(** * synapse/handlers/auth.py: the user-interactive auth handler

    A shallow embedding of [AuthHandler] and of the macaroon generator of
    [synapse/handlers/auth.py], and the properties of the specification
    that concern them.

    Python values are an inductive type of JSON-like values; dictionaries
    are finite maps with string keys.  Text is represented by its UTF-8
    bytes, so that [encode('utf8')] is the identity on the representation.
    The code runs on a single reactor thread: a call is modelled as a
    state transformer over a [World] holding the session cache, the
    strings the random generator is going to produce, the clock and the
    log of the calls made to collaborators.  The external collaborators
    (data store, password providers, identity server, captcha service,
    bcrypt, pymacaroons) are fields of the [HomeServer] record. *)

From stdpp Require Import gmap strings list fin_maps pretty.

Set Warnings "-register-all".
#[local] Open Scope string_scope.
#[local] Open Scope Z_scope.

(** ** Python values *)

Inductive Value : Type :=
  | VNone
  | VBool (b : bool)
  | VInt (z : Z)
  | VStr (s : string)
  | VList (l : list Value)
  | VDict (d : gmap string Value).

(** [bool(v)]: the truth value Python gives to [v] in a condition. *)
Definition truthy (v : Value) : bool :=
  match v with
  | VNone => false
  | VBool b => b
  | VInt z => negb (z =? 0)
  | VStr s => negb (String.eqb s "")
  | VList l => match l with [] => false | _ => true end
  | VDict d => negb (Nat.eqb (size d) 0)
  end.

(** Lists and dictionaries cannot be used as dictionary keys. *)
Definition hashable (v : Value) : bool :=
  match v with
  | VList _ | VDict _ => false
  | _ => true
  end.

(** [v == s] for a string constant [s]. *)
Definition is_str (v : Value) (s : string) : bool :=
  match v with
  | VStr s' => String.eqb s' s
  | _ => false
  end.

(** [d.get(k)]: [None] when the key is missing. *)
Definition dict_get (d : gmap string Value) (k : string) : Value :=
  default VNone (d !! k).

(** [k in d] *)
Definition has_key {A} (d : gmap string A) (k : string) : bool :=
  bool_decide (is_Some (d !! k)).

(** [d.keys()]; Python 2 fixes no order, the model lists them in the
    order of the map's enumeration. *)
Definition keys {A} (d : gmap string A) : list string := (map_to_list d).*1.

(** ** Constants of [synapse.api] *)

Module LoginType.
(** Modelled from the spec: [synapse.api.constants.LoginType] is not
    under src/; the spec names the password and the dummy type
    ("m.login.password", "m.login.dummy"), the other three are the
    identifiers of the captcha, email-possession and phone-possession
    stages. *)
Definition PASSWORD : string := "m.login.password".
Definition RECAPTCHA : string := "m.login.recaptcha".
Definition EMAIL_IDENTITY : string := "m.login.email.identity".
Definition MSISDN : string := "m.login.msisdn".
Definition DUMMY : string := "m.login.dummy".
End LoginType.

Module Codes.
(** The error codes of [synapse.api.errors.Codes] that the handler uses. *)
Inductive t : Set :=
  | UNRECOGNIZED
  | MISSING_PARAM
  | CAPTCHA_NEEDED
  | UNAUTHORIZED
  | FORBIDDEN.

(** Modelled from the spec: the string sent to the client for each code
    ([synapse.api.errors] is not under src/). *)
Definition value (c : t) : string :=
  match c with
  | UNRECOGNIZED => "M_UNRECOGNIZED"
  | MISSING_PARAM => "M_MISSING_PARAM"
  | CAPTCHA_NEEDED => "M_CAPTCHA_NEEDED"
  | UNAUTHORIZED => "M_UNAUTHORIZED"
  | FORBIDDEN => "M_FORBIDDEN"
  end.
End Codes.

(** ** Exceptions *)

(** The message of an error: a literal, or a format string with the
    arguments of its [%] operator, kept as they are until the message is
    put into a response. *)
Inductive Msg : Type :=
  | MsgText (s : string)
  | MsgFormat (fmt : string) (args : list Value).
Coercion MsgText : string >-> Msg.

(** [LoginError] is a subclass of [SynapseError]; [except LoginError]
    catches the first constructor only.  [SynapseError] is raised in this
    file without an error code.  The last three are the built-in errors
    Python raises on ill-typed values. *)
Inductive Exn : Type :=
  | LoginError (code : Z) (msg : Msg) (errcode : Codes.t)
  | SynapseError (code : Z) (msg : Msg)
  | TypeError
  | KeyError
  | AttributeError.

(** ** Collaborators *)

Definition Callback := nat.

(** What a provider's [check_auth] returns: nothing, a bare user id, or a
    pair of a user id and an optional callback. *)
Inductive ProviderResult : Type :=
  | PRNone
  | PRStr (user_id : string)
  | PRPair (user_id : string) (callback : option Callback).

Module Provider.
(** A password provider module; each capability is optional
    ([hasattr]). *)
Record t : Type := {
  check_password : option (string → Value → bool);
  get_supported_login_types : option (gmap string (list string));
  check_auth : option (string → Value → gmap string Value → ProviderResult)
}.
End Provider.

(** A [pymacaroons.Macaroon] before serialisation; the caveats are in the
    order they were added. *)
Record Macaroon : Type := {
  location : string;
  identifier : string;
  key : string;
  caveats : list string
}.

(** The home server as the handler sees it: configuration, the
    collaborators reached through [hs] and [self.store], and the library
    functions the code calls. *)
Record HomeServer : Type := {
  (* hs.hostname, hs.config *)
  hostname : string;
  password_enabled : bool;
  password_pepper : string;
  bcrypt_rounds : Z;
  recaptcha_public_key : Value;
  password_providers : list Provider.t;
  server_name : string;
  macaroon_secret_key : string;
  (* self.store *)
  get_users_by_id_case_insensitive : string → gmap string (option string);
  (* identity_handler.threepid_from_creds *)
  threepid_from_creds : Value → Value;
  (* the body of the captcha service's answer, for a response and an ip *)
  recaptcha_siteverify : Value → string → gmap string Value;
  (* bcrypt.hashpw(password, salt) and bcrypt.gensalt(rounds), the latter
     with the random bytes it draws *)
  bcrypt_hashpw : string → string → string;
  bcrypt_gensalt : Z → string → string;
  (* the % operator on str with arguments that are not all text *)
  str_format : string → list Value → string;
  (* Macaroon.serialize() *)
  macaroon_serialize : Macaroon → string
}.

Definition render (hs : HomeServer) (msg : Msg) : string :=
  match msg with
  | MsgText s => s
  | MsgFormat fmt args => str_format hs fmt args
  end.

(** Modelled from the spec: [SynapseError.error_dict] is not under src/;
    the flow-description response carries ["errcode"] and ["error"]. *)
Definition error_dict (hs : HomeServer) (msg : Msg) (errcode : Codes.t)
    : gmap string Value :=
  {[ "errcode" := VStr (Codes.value errcode); "error" := VStr (render hs msg) ]}.

(** A call made to a collaborator. *)
Inductive Call : Type :=
  | CallCheckPassword (provider : nat) (user_id : string) (password : Value)
  | CallSupportedLoginTypes (provider : nat)
  | CallCheckAuth (provider : nat) (username : string) (login_type : Value)
      (login_dict : gmap string Value)
  | CallStore (user_id : string)
  | CallIdentity (threepid_creds : Value)
  | CallRecaptcha (response : Value) (clientip : string).

(** ** Sessions and the world *)

(** A session dictionary: ["id"] is always present, the other entries
    appear as the code sets them. *)
Record Session : Type := {
  id : string;
  clientdict : option (gmap string Value);
  creds : option (gmap string Value);
  serverdict : option (gmap string Value);
  last_used : option Z
}.

(** [session['clientdict'] = cd] and the like, on the value. *)
Definition set_clientdict (session : Session) (cd : gmap string Value) : Session :=
  {| id := id session; clientdict := Some cd; creds := creds session;
     serverdict := serverdict session; last_used := last_used session |}.

Definition set_creds (session : Session) (c : gmap string Value) : Session :=
  {| id := id session; clientdict := clientdict session; creds := Some c;
     serverdict := serverdict session; last_used := last_used session |}.

Definition set_serverdict (session : Session) (d : gmap string Value) : Session :=
  {| id := id session; clientdict := clientdict session; creds := creds session;
     serverdict := Some d; last_used := last_used session |}.

Definition set_last_used (session : Session) (t : Z) : Session :=
  {| id := id session; clientdict := clientdict session; creds := creds session;
     serverdict := serverdict session; last_used := Some t |}.

(** Modelled from the spec: [ExpiringCache] is not under src/; the cache
    is a finite map from session id to session, and nothing is evicted
    while a call runs. *)
Record World : Type := {
  sessions : gmap string Session;
  entropy : list string;   (* what stringutils.random_string returns next *)
  time_msec : Z;           (* hs.get_clock().time_msec() *)
  trace : list Call        (* calls to collaborators, oldest first *)
}.

Definition with_sessions (f : gmap string Session → gmap string Session)
    (w : World) : World :=
  {| sessions := f (sessions w); entropy := entropy w;
     time_msec := time_msec w; trace := trace w |}.

Definition with_entropy (l : list string) (w : World) : World :=
  {| sessions := sessions w; entropy := l;
     time_msec := time_msec w; trace := trace w |}.

Definition with_call (c : Call) (w : World) : World :=
  {| sessions := sessions w; entropy := entropy w;
     time_msec := time_msec w; trace := trace w ++ [c] |}.

(** ** The monad of a call: state, exceptions, and running out of
    random strings *)

Inductive Res (A : Type) : Type :=
  | Ok (a : A)
  | Raise (e : Exn)
  | Diverge.
Arguments Ok {A} a.
Arguments Raise {A} e.
Arguments Diverge {A}.

Definition M (A : Type) : Type := World → Res A * World.

Definition ret {A} (a : A) : M A := λ w, (Ok a, w).
Definition raise {A} (e : Exn) : M A := λ w, (Raise e, w).
Definition bind {A B} (m : M A) (k : A → M B) : M B :=
  λ w, match m w with
       | (Ok a, w') => k a w'
       | (Raise e, w') => (Raise e, w')
       | (Diverge, w') => (Diverge, w')
       end.
Definition get : M World := λ w, (Ok w, w).
Definition modify (f : World → World) : M unit := λ w, (Ok tt, f w).
Definition call (c : Call) : M unit := modify (with_call c).

Declare Scope auth_scope.
Delimit Scope auth_scope with auth.
Notation "x <- c1 ;; c2" := (bind c1 (λ x, c2))
  (at level 100, c1 at next level, right associativity) : auth_scope.
Notation "c1 ;; c2" := (bind c1 (λ _, c2))
  (at level 100, right associativity) : auth_scope.
#[local] Open Scope auth_scope.

(** ** The session store *)

(** The loop [while session_id is None or session_id in self.sessions]:
    draw until a string is not the id of a live session.  [None] when the
    listed draws are used up before that. *)
Fixpoint fresh_session_id (draws : list string) (live : gmap string Session)
    : option (string * list string) :=
  match draws with
  | [] => None
  | s :: rest =>
      if has_key live s then fresh_session_id rest live else Some (s, rest)
  end.

Definition new_session (session_id : string) : Session :=
  {| id := session_id; clientdict := None; creds := None;
     serverdict := None; last_used := None |}.

Definition _get_session_info (session_id : Value) : M Session :=
  λ w,
    if negb (hashable session_id) then (Raise TypeError, w)
    else
      let known :=
        match session_id with
        | VStr s => if truthy session_id then sessions w !! s else None
        | _ => None
        end in
      match known with
      | Some session => (Ok session, w)
      | None =>
          (* create a new session *)
          match fresh_session_id (entropy w) (sessions w) with
          | None => (Diverge, with_entropy [] w)
          | Some (s, rest) =>
              (Ok (new_session s),
               with_sessions (insert s (new_session s)) (with_entropy rest w))
          end
      end.

(** An assignment to an entry of the session dictionary: the dictionary
    is the object held by the cache, so the cache sees it at once. *)
Definition update_session (session : Session) : M unit :=
  modify (with_sessions (insert (id session) session)).

Definition _save_session (session : Session) : M Session :=
  w <- get ;;
  let session := set_last_used session (time_msec w) in
  update_session session ;;
  ret session.

Definition set_session_data (session_id : string) (key : string) (value : Value)
    : M unit :=
  sess <- _get_session_info (VStr session_id) ;;
  let sess :=
    set_serverdict sess (<[key := value]> (default ∅ (serverdict sess))) in
  update_session sess ;;
  _ <- _save_session sess ;;
  ret tt.

Definition get_session_data (session_id : string) (key : string)
    (default_value : Value) : M Value :=
  sess <- _get_session_info (VStr session_id) ;;
  let sess := set_serverdict sess (default ∅ (serverdict sess)) in
  update_session sess ;;
  ret (default default_value (default ∅ (serverdict sess) !! key)).

(** ** The credential store adapter *)

(** [dict.popitem()]: some entry of the dictionary. *)
Definition popitem {A} (d : gmap string A) : option (string * A) :=
  head (map_to_list d).

Definition _find_user_id_and_pwd_hash (hs : HomeServer) (user_id : string)
    : M (option (string * option string)) :=
  call (CallStore user_id) ;;
  let user_infos := get_users_by_id_case_insensitive hs user_id in
  ret (if Nat.eqb (size user_infos) 0 then None
       else if Nat.eqb (size user_infos) 1 then
         (* a single match (possibly not exact) *)
         popitem user_infos
       else
         match user_infos !! user_id with
         | Some password_hash =>
             (* multiple matches, but one is exact *)
             Some (user_id, password_hash)
         | None =>
             (* multiple matches, none of them exact *)
             None
         end).

Definition check_user_exists (hs : HomeServer) (user_id : string)
    : M (option string) :=
  res <- _find_user_id_and_pwd_hash hs user_id ;;
  ret (fst <$> res).

(** [s.encode('utf8')]: text is represented by its UTF-8 bytes. *)
Definition encode_utf8 (s : string) : string := s.

(** [hash(password)], given the random bytes [bcrypt.gensalt] draws. *)
Definition hash (hs : HomeServer) (random : string) (password : string)
    : string :=
  bcrypt_hashpw hs (encode_utf8 password ++ password_pepper hs)
    (bcrypt_gensalt hs (bcrypt_rounds hs) random).

Definition validate_hash (hs : HomeServer) (password : Value)
    (stored_hash : option string) : M bool :=
  match stored_hash with
  | Some stored =>
      if negb (String.eqb stored "") then
        match password with
        | VStr p =>
            ret (String.eqb
                   (bcrypt_hashpw hs (encode_utf8 p ++ password_pepper hs)
                      (encode_utf8 stored))
                   stored)
        | _ => raise AttributeError
        end
      else ret false
  | None => ret false
  end.

Definition _check_local_password (hs : HomeServer) (user_id : string)
    (password : Value) : M (option string) :=
  lookupres <- _find_user_id_and_pwd_hash hs user_id ;;
  match lookupres with
  | None => ret None
  | Some (user_id, password_hash) =>
      result <- validate_hash hs password password_hash ;;
      if negb result then ret None else ret (Some user_id)
  end.

(** ** Login validation with the provider chain *)

(** Modelled from the spec: [synapse.types.UserID] is not under src/; an
    identifier that is not fully qualified is qualified against the
    server's own domain. *)
Definition UserID_to_string (localpart domain : string) : string :=
  "@" ++ localpart ++ ":" ++ domain.

(** What one step of [validate_login] hands to the next: the value the
    function returns, if it returned, and [known_login_type]. *)
Definition Step : Type := option (string * option Callback) * bool.

(** The loop [for f in login_fields] of [validate_login]. *)
Fixpoint collect_fields (login_fields : list string)
    (login_submission : gmap string Value)
    (missing_fields : list string) (login_dict : gmap string Value)
    : list string * gmap string Value :=
  match login_fields with
  | [] => (missing_fields, login_dict)
  | f :: rest =>
      match login_submission !! f with
      | None =>
          collect_fields rest login_submission (missing_fields ++ [f]) login_dict
      | Some v =>
          collect_fields rest login_submission missing_fields (<[f := v]> login_dict)
      end
  end.

(** The first half of the loop body: the [check_password] interface. *)
Definition provider_check_password (i : nat) (provider : Provider.t)
    (qualified_user_id : string) (login_type password : Value)
    (known_login_type : bool) : M Step :=
  match Provider.check_password provider with
  | Some check_password =>
      if is_str login_type LoginType.PASSWORD then
        call (CallCheckPassword i qualified_user_id password) ;;
        if check_password qualified_user_id password
        then ret (Some (qualified_user_id, None), true)
        else ret (None, true)
      else ret (None, known_login_type)
  | None => ret (None, known_login_type)
  end.

(** The second half of the loop body: custom login types. *)
Definition provider_check_auth (i : nat)
    (provider : Provider.t) (username : string) (login_type : Value)
    (login_submission : gmap string Value) (known_login_type : bool)
    : M Step :=
  match Provider.get_supported_login_types provider,
        Provider.check_auth provider with
  | Some supported_login_types, Some check_auth =>
      call (CallSupportedLoginTypes i) ;;
      if negb (hashable login_type) then raise TypeError
      else
        match match login_type with
              | VStr t => supported_login_types !! t
              | _ => None
              end with
        | None =>
            (* this password provider doesn't understand this login type *)
            ret (None, known_login_type)
        | Some login_fields =>
            let '(missing_fields, login_dict) :=
              collect_fields login_fields login_submission [] ∅ in
            match missing_fields with
            | _ :: _ =>
                raise (SynapseError 400
                         (MsgFormat "Missing parameters for login type %s: %s"
                            [login_type; VList (VStr <$> missing_fields)]))
            | [] =>
                call (CallCheckAuth i username login_type login_dict) ;;
                match check_auth username login_type login_dict with
                | PRNone => ret (None, true)
                | PRStr result =>
                    if String.eqb result "" then ret (None, true)
                    else ret (Some (result, None), true)
                | PRPair user_id callback => ret (Some (user_id, callback), true)
                end
            end
        end
  | _, _ =>
      (* this password provider doesn't understand custom login types *)
      ret (None, known_login_type)
  end.

(** The loop [for provider in self.password_providers]. *)
Fixpoint providers_loop (i : nat)
    (providers : list Provider.t) (username qualified_user_id : string)
    (login_type password : Value) (login_submission : gmap string Value)
    (known_login_type : bool) : M Step :=
  match providers with
  | [] => ret (None, known_login_type)
  | provider :: rest =>
      r <- provider_check_password i provider qualified_user_id login_type
             password known_login_type ;;
      match r with
      | (Some result, known) => ret (Some result, known)
      | (None, known) =>
          r <- provider_check_auth i provider username login_type
                 login_submission known ;;
          match r with
          | (Some result, known) => ret (Some result, known)
          | (None, known) =>
              providers_loop (S i) rest username qualified_user_id
                login_type password login_submission known
          end
      end
  end.

(** The first statement of [validate_login]. *)
Definition qualify (hs : HomeServer) (username : string) : string :=
  if String.prefix "@" username then username
  else UserID_to_string username (hostname hs).

Definition validate_login (hs : HomeServer) (username : string)
    (login_submission : gmap string Value) : M (string * option Callback) :=
  let qualified_user_id := qualify hs username in
  let login_type := dict_get login_submission "type" in
  (* special case to check for "password" for the check_password interface
     for the auth providers *)
  let password := dict_get login_submission "password" in
  if is_str login_type LoginType.PASSWORD && negb (password_enabled hs) then
    raise (SynapseError 400 "Password login has been disabled.")
  else if is_str login_type LoginType.PASSWORD && negb (truthy password) then
    raise (SynapseError 400 "Missing parameter: password")
  else
    r <- providers_loop 0 (password_providers hs) username
           qualified_user_id login_type password login_submission false ;;
    match r with
    | (Some result, _) => ret result
    | (None, known_login_type) =>
        r <- (if is_str login_type LoginType.PASSWORD then
                canonical_user_id <-
                  _check_local_password hs qualified_user_id password ;;
                match canonical_user_id with
                | Some c =>
                    if String.eqb c "" then ret ((None, true) : Step)
                    else ret (Some (c, None), true)
                | None => ret (None, true)
                end
              else ret (None, known_login_type)) ;;
        match r with
        | (Some result, _) => ret result
        | (None, known_login_type) =>
            if negb known_login_type then
              raise (SynapseError 400
                       (MsgFormat "Unknown login type %s" [login_type]))
            else
              (* unknown username or invalid password *)
              raise (LoginError 403 "Invalid password" Codes.FORBIDDEN)
        end
    end.

(** ** The stage checkers *)

Abbreviation Checker := (gmap string Value → string → M Value).

Definition _check_password_auth (hs : HomeServer) : Checker :=
  λ authdict _,
    if negb (has_key authdict "user") || negb (has_key authdict "password") then
      raise (LoginError 400 "" Codes.MISSING_PARAM)
    else
      let user_id := dict_get authdict "user" in
      let password := dict_get authdict "password" in
      match user_id with
      | VStr user_id =>
          r <- validate_login hs user_id
                 {[ "type" := VStr LoginType.PASSWORD; "password" := password ]} ;;
          ret (VStr (fst r))
      | _ => raise AttributeError   (* username.startswith *)
      end.

Definition _check_recaptcha (hs : HomeServer) : Checker :=
  λ authdict clientip,
    match authdict !! "response" with
    | None =>
        (* Client tried to provide captcha but didn't give the parameter *)
        raise (LoginError 400 "Captcha response is required" Codes.CAPTCHA_NEEDED)
    | Some user_response =>
        call (CallRecaptcha user_response clientip) ;;
        let resp_body := recaptcha_siteverify hs user_response clientip in
        match resp_body !! "success" with
        | Some success =>
            if truthy success then ret (VBool true)
            else raise (LoginError 401 "" Codes.UNAUTHORIZED)
        | None => raise (LoginError 401 "" Codes.UNAUTHORIZED)
        end
    end.

Definition _check_threepid (hs : HomeServer) (medium : string)
    (authdict : gmap string Value) : M Value :=
  match authdict !! "threepid_creds" with
  | None => raise (LoginError 400 "Missing threepid_creds" Codes.MISSING_PARAM)
  | Some threepid_creds =>
      call (CallIdentity threepid_creds) ;;
      let threepid := threepid_from_creds hs threepid_creds in
      if negb (truthy threepid) then
        raise (LoginError 401 "" Codes.UNAUTHORIZED)
      else
        match threepid with
        | VDict d =>
            match d !! "medium" with
            | None => raise KeyError
            | Some got =>
                if negb (is_str got medium) then
                  raise (LoginError 401
                           (MsgFormat "Expecting threepid of type '%s', got '%s'"
                              [VStr medium; got])
                           Codes.UNAUTHORIZED)
                else ret (VDict (<["threepid_creds" := threepid_creds]> d))
            end
        | _ => raise TypeError
        end
  end.

Definition _check_email_identity (hs : HomeServer) : Checker :=
  λ authdict _, _check_threepid hs "email" authdict.

Definition _check_msisdn (hs : HomeServer) : Checker :=
  λ authdict _, _check_threepid hs "msisdn" authdict.

Definition _check_dummy_auth : Checker :=
  λ authdict _, ret (VBool true).

(** [self.checkers] *)
Definition checkers (hs : HomeServer) : gmap string Checker :=
  <[LoginType.PASSWORD := _check_password_auth hs]>
  (<[LoginType.RECAPTCHA := _check_recaptcha hs]>
  (<[LoginType.EMAIL_IDENTITY := _check_email_identity hs]>
  (<[LoginType.MSISDN := _check_msisdn hs]>
  (<[LoginType.DUMMY := _check_dummy_auth]> ∅)))).

(** ** The user-interactive auth flow *)

(** The request body of the client: the JSON object under ['auth'], when
    there is one, and the other entries. *)
Record ClientDict : Type := {
  cd_auth : option (gmap string Value);
  cd_rest : gmap string Value
}.

Definition _get_params_recaptcha (hs : HomeServer) : Value :=
  VDict {[ "public_key" := recaptcha_public_key hs ]}.

(** The table [get_params] of [_auth_dict_for_flows]. *)
Definition get_params (hs : HomeServer) : gmap string Value :=
  {[ LoginType.RECAPTCHA := _get_params_recaptcha hs ]}.

Definition _auth_dict_for_flows (hs : HomeServer) (flows : list (list string))
    (session : Session) : gmap string Value :=
  let public_flows := flows in
  let params :=
    foldl (λ params f,
             foldl (λ params stage,
                      match get_params hs !! stage with
                      | Some p =>
                          if has_key params stage then params
                          else <[stage := p]> params
                      | None => params
                      end) params f)
          (∅ : gmap string Value) public_flows in
  {[ "session" := VStr (id session);
     "flows" := VList ((λ f, VDict {[ "stages" := VList (VStr <$> f) ]}) <$> public_flows);
     "params" := VDict params ]}.

(** [len(set(f) - set(creds.keys())) == 0] *)
Definition flow_complete (creds : gmap string Value) (f : list string) : bool :=
  Nat.eqb (size ((list_to_set f : gset string) ∖ dom creds)) 0.

(** [try: m except LoginError, e: handler(e)] *)
Definition try_except_LoginError {A} (m : M A)
    (handler : Z → Msg → Codes.t → M A) : M A :=
  λ w, match m w with
       | (Raise (LoginError code msg errcode), w') => handler code msg errcode w'
       | r => r
       end.

(** [if 'creds' not in session: session['creds'] = {}] *)
Definition ensure_creds (session : Session) : M Session :=
  match creds session with
  | Some _ => ret session
  | None =>
      update_session (set_creds session ∅) ;;
      ret (set_creds session ∅)
  end.

(** [creds[login_type] = result; self._save_session(session)], [creds]
    being the dictionary held by the session. *)
Definition record_result (session : Session) (login_type : string)
    (result : Value) : M Session :=
  let session :=
    set_creds session (<[login_type := result]> (default ∅ (creds session))) in
  update_session session ;;
  _save_session session.

(** The block that keeps the client's parameters on the session, or
    fetches the ones kept by an earlier request. *)
Definition stash_clientdict (session : Session) (cd : gmap string Value)
    : M (Session * gmap string Value) :=
  if negb (Nat.eqb (size cd) 0) then
    update_session (set_clientdict session cd) ;;
    session <- _save_session (set_clientdict session cd) ;;
    ret (session, cd)
  else
    match clientdict session with
    | Some stored => ret (session, stored)
    | None => ret (session, cd)
    end.

(** The block "check auth type currently being presented": the session
    after it and [errordict]. *)
Definition check_stage (hs : HomeServer) (session : Session)
    (authdict : gmap string Value) (clientip : string)
    : M (Session * gmap string Value) :=
  match authdict !! "type" with
  | None => ret (session, ∅)
  | Some login_type =>
      if negb (hashable login_type) then raise TypeError
      else
        match login_type with
        | VStr login_type =>
            match checkers hs !! login_type with
            | None => raise (LoginError 400 "" Codes.UNRECOGNIZED)
            | Some checker =>
                try_except_LoginError
                  (result <- checker authdict clientip ;;
                   if truthy result then
                     session <- record_result session login_type result ;;
                     ret (session, ∅)
                   else ret (session, ∅))
                  (λ code msg errcode,
                     if String.eqb login_type LoginType.EMAIL_IDENTITY then
                       (* Grandfather in the old behaviour for now to avoid
                          breaking old riot deployments. *)
                       raise (LoginError code msg errcode)
                     else
                       (* this step failed. Merge the error dict into the
                          response so that the client can have another go. *)
                       ret (session, error_dict hs msg errcode))
            end
        | _ =>
            (* no other value is a key of self.checkers *)
            raise (LoginError 400 "" Codes.UNRECOGNIZED)
        end
  end.

(** The loop [for f in flows] and the response that follows it. *)
Definition flows_response (hs : HomeServer) (flows : list (list string))
    (session : Session) (errordict client_dict : gmap string Value)
    : bool * gmap string Value * gmap string Value * string :=
  let creds := default ∅ (creds session) in
  if existsb (flow_complete creds) flows then
    (true, creds, client_dict, id session)
  else
    let ret0 := _auth_dict_for_flows hs flows session in
    let ret1 := <["completed" := VList (VStr <$> keys creds)]> ret0 in
    (* ret.update(errordict) *)
    (false, errordict ∪ ret1, client_dict, id session).

Definition check_auth (hs : HomeServer) (flows : list (list string))
    (clientdict0 : option ClientDict) (clientip : string)
    : M (bool * gmap string Value * gmap string Value * string) :=
  let authdict := clientdict0 ≫= cd_auth in
  let sid :=
    match authdict with
    | Some a => dict_get a "session"
    | None => VNone
    end in
  session <- _get_session_info sid ;;
  match clientdict0 with
  | None => raise TypeError   (* len(None) *)
  | Some cd =>
      r <- stash_clientdict session (cd_rest cd) ;;
      let '(session, client_dict) := r in
      match authdict with
      | None =>
          ret (false, _auth_dict_for_flows hs flows session, client_dict, id session)
      | Some authdict =>
          if Nat.eqb (size authdict) 0 then
            ret (false, _auth_dict_for_flows hs flows session, client_dict, id session)
          else
            session <- ensure_creds session ;;
            r <- check_stage hs session authdict clientip ;;
            let '(session, errordict) := r in
            ret (flows_response hs flows session errordict client_dict)
      end
  end.

Definition add_oob_auth (hs : HomeServer) (stagetype : string)
    (authdict : gmap string Value) (clientip : string) : M bool :=
  match checkers hs !! stagetype with
  | None => raise (LoginError 400 "" Codes.MISSING_PARAM)
  | Some checker =>
      match authdict !! "session" with
      | None => raise (LoginError 400 "" Codes.MISSING_PARAM)
      | Some sid =>
          sess <- _get_session_info sid ;;
          sess <- ensure_creds sess ;;
          result <- checker authdict clientip ;;
          if truthy result then
            _ <- record_result sess stagetype result ;;
            ret true
          else ret false
      end
  end.

Definition get_session_id (clientdict0 : option ClientDict) : Value :=
  match clientdict0 ≫= cd_auth with
  | Some authdict => dict_get authdict "session"
  | None => VNone
  end.

(** ** The macaroon generator *)

Definition add_first_party_caveat (m : Macaroon) (caveat : string) : Macaroon :=
  {| location := location m; identifier := identifier m; key := key m;
     caveats := caveats m ++ [caveat] |}.

Definition _generate_base_macaroon (hs : HomeServer) (user_id : string)
    : Macaroon :=
  let macaroon :=
    {| location := server_name hs; identifier := "key";
       key := macaroon_secret_key hs; caveats := [] |} in
  let macaroon := add_first_party_caveat macaroon "gen = 1" in
  let macaroon := add_first_party_caveat macaroon ("user_id = " ++ user_id) in
  macaroon.

(** The macaroon [generate_short_term_login_token] builds when the clock
    reads [now]. *)
Definition short_term_login_macaroon (hs : HomeServer) (now : Z)
    (user_id : string) (duration_in_ms : Z) : Macaroon :=
  let macaroon := _generate_base_macaroon hs user_id in
  let macaroon := add_first_party_caveat macaroon "type = login" in
  let expiry := now + duration_in_ms in
  add_first_party_caveat macaroon ("time < " ++ pretty expiry).

(** [duration_in_ms] is an optional argument: [None] when the caller
    leaves it out. *)
Definition generate_short_term_login_token (hs : HomeServer)
    (user_id : string) (duration_in_ms : option Z) : M string :=
  let duration_in_ms := default (2 * 60 * 1000) duration_in_ms in
  w <- get ;;
  let now := time_msec w in
  ret (macaroon_serialize hs
         (short_term_login_macaroon hs now user_id duration_in_ms)).

Definition generate_delete_pusher_token (hs : HomeServer) (user_id : string)
    : M string :=
  let macaroon := _generate_base_macaroon hs user_id in
  let macaroon := add_first_party_caveat macaroon "type = delete_pusher" in
  ret (macaroon_serialize hs macaroon).

(** ** A small home server for the examples *)

Module Example.
(** A stand-in for bcrypt: a salt has four characters, and a hash is
    its salt, a separator and the password. *)
Definition salt_of (s : string) : string :=
  match s with
  | String a (String b (String c (String d _))) =>
      String a (String b (String c (String d "")))
  | _ => "salt"
  end.

Definition hashpw (password salt : string) : string :=
  salt_of salt ++ "$" ++ password.

(** A home server "example.org", with password login enabled or not,
    the given password providers and the given table of users: the
    store finds all of them, whatever the id asked for. *)
Definition make (enabled : bool) (providers : list Provider.t)
    (users : gmap string (option string)) : HomeServer :=
  {| hostname := "example.org";
     password_enabled := enabled;
     password_pepper := "pepper";
     bcrypt_rounds := 12;
     recaptcha_public_key := VStr "public";
     password_providers := providers;
     server_name := "example.org";
     macaroon_secret_key := "secret";
     get_users_by_id_case_insensitive := λ _, users;
     threepid_from_creds := λ _, VNone;
     recaptcha_siteverify := λ _ _, ∅;
     bcrypt_hashpw := hashpw;
     bcrypt_gensalt := λ _ random, salt_of random;
     str_format := λ fmt _, fmt;
     macaroon_serialize := λ m, String.concat "," (caveats m) |}.

(** No provider, no user. *)
Definition hs : HomeServer := make true [] ∅.

(** The same server with password login switched off. *)
Definition hs_no_password : HomeServer := make false [] ∅.

(** A provider that declares the login type "m.login.token" but has no
    [check_auth]. *)
Definition declaring_only : Provider.t :=
  {| Provider.check_password := None;
     Provider.get_supported_login_types :=
       Some {[ "m.login.token" := ["token"] ]};
     Provider.check_auth := None |}.

(** No session yet; the random generator will produce "AAAA", then
    "BBBB". *)
Definition w0 : World :=
  {| sessions := ∅; entropy := ["AAAA"; "BBBB"]; time_msec := 1000; trace := [] |}.

(** A session "S" that has completed the dummy stage. *)
Definition done_session : Session :=
  {| id := "S"; clientdict := None;
     creds := Some {[ LoginType.DUMMY := VBool true ]};
     serverdict := None; last_used := Some 500 |}.

Definition w1 : World :=
  {| sessions := {[ "S" := done_session ]}; entropy := ["AAAA"];
     time_msec := 1000; trace := [] |}.

(** [{auth: a}] *)
Definition request (a : gmap string Value) : option ClientDict :=
  Some {| cd_auth := Some a; cd_rest := ∅ |}.
End Example.

(** * Specification

    The predicates in which the properties are stated. *)

(** Only the log of collaborator calls differs between [w] and [w']. *)
Definition same_store (w w' : World) : Prop :=
  sessions w' = sessions w ∧ entropy w' = entropy w
  ∧ time_msec w' = time_msec w.

(** [m] touches nothing but the log. *)
Definition quiet {A} (m : M A) : Prop :=
  ∀ w r w', m w = (r, w') → same_store w w'.

(** Every session is stored under its own id. *)
Definition sessions_wf (w : World) : Prop :=
  ∀ k s, sessions w !! k = Some s → id s = k.

(** The session dictionary [s] the code holds is the one in the cache. *)
Definition in_sync (s : Session) (w : World) : Prop :=
  sessions w !! id s = Some s.

(** The credential map of session [sid]; empty when there is no such
    session or it has no ['creds'] entry yet. *)
Definition creds_of (w : World) (sid : string) : gmap string Value :=
  default ∅ (sessions w !! sid ≫= creds).

(** From [c] to [c'] no entry is lost, and only the entry of [touched]
    may have changed. *)
Definition creds_grow (touched : option string)
    (c c' : gmap string Value) : Prop :=
  ∀ stage v, c !! stage = Some v →
    is_Some (c' !! stage) ∧ (touched ≠ Some stage → c' !! stage = Some v).

(** The same for all the sessions of two worlds. *)
Definition extends (touched : option string) (w w' : World) : Prop :=
  ∀ sid, creds_grow touched (creds_of w sid) (creds_of w' sid).

(** What a block that works on the session dictionary [s] guarantees for
    the dictionary [s'] and the world [w'] it leaves. *)
Definition session_step (touched : option string) (s : Session) (w : World)
    (s' : Session) (w' : World) : Prop :=
  id s' = id s ∧ in_sync s' w' ∧ sessions_wf w' ∧ extends touched w w'.

(** The stage type an [auth] block presents. *)
Definition presented (authdict : gmap string Value) : option string :=
  match authdict !! "type" with
  | Some (VStr t) => Some t
  | _ => None
  end.

(** The outcome of the dispatch block, by the outcome of the checker. *)
Definition stage_outcome (hs : HomeServer) (s : Session) (t : string)
    (rc : Res Value) (r : Res (Session * gmap string Value)) : Prop :=
  match rc with
  | Ok result =>
      if truthy result then
        ∃ s', r = Ok (s', ∅)
              ∧ creds s' = Some (<[t := result]> (default ∅ (creds s)))
      else r = Ok (s, ∅)
  | Raise (LoginError code msg errcode) =>
      if String.eqb t LoginType.EMAIL_IDENTITY
      then r = Raise (LoginError code msg errcode)
      else r = Ok (s, error_dict hs msg errcode)
  | Raise e => r = Raise e
  | Diverge => r = Diverge
  end.

(** The [auth] block of a request, when it has one that is not empty. *)
Definition auth_block (clientdict0 : option ClientDict)
    : option (gmap string Value) :=
  match clientdict0 ≫= cd_auth with
  | Some a => if Nat.eqb (size a) 0 then None else Some a
  | None => None
  end.

(** The session a request is about: the one [_get_session_info] finds or
    creates for the session id of its [auth] block. *)
Definition request_session (clientdict0 : option ClientDict) (w : World)
    : option string :=
  match _get_session_info (get_session_id clientdict0) w with
  | (Ok s, _) => Some (id s)
  | _ => None
  end.

(** Every stage type the flow names has a recorded credential. *)
Definition flow_satisfied (c : gmap string Value) (f : list string) : Prop :=
  ∀ stage, stage ∈ f → is_Some (c !! stage).

Definition some_flow_satisfied (flows : list (list string))
    (c : gmap string Value) : Prop :=
  ∃ f, f ∈ flows ∧ flow_satisfied c f.

(** The statement of the specification for one call: [check_auth]
    answers [(True, creds, _, _)] with the credential map of the
    request's session exactly when some flow is satisfied by the stage
    types recorded in that session. *)
Definition reports_complete_iff (hs : HomeServer) (flows : list (list string))
    (clientdict0 : option ClientDict) (clientip : string) (w : World) : Prop :=
  let '(r, w') := check_auth hs flows clientdict0 clientip w in
  (∃ sid client_dict,
      request_session clientdict0 w = Some sid
      ∧ r = Ok (true, creds_of w' sid, client_dict, sid))
  ↔ (∃ sid,
      request_session clientdict0 w = Some sid
      ∧ some_flow_satisfied flows (creds_of w' sid)).

(** The statement of the specification for one call in which the
    checker has failed with the error of message [msg] and code
    [errcode]: the answer is an incomplete response that has the fields
    of the error's dictionary. *)
Definition error_merged_into_response (hs : HomeServer)
    (flows : list (list string)) (clientdict0 : option ClientDict)
    (clientip : string) (w : World) (msg : Msg) (errcode : Codes.t) : Prop :=
  ∃ body client_dict sid,
    (check_auth hs flows clientdict0 clientip w).1
    = Ok (false, body, client_dict, sid)
    ∧ error_dict hs msg errcode ⊆ body.

(** One call of an operation of the handler that touches sessions. *)
Inductive session_op (hs : HomeServer) : World → World → Prop :=
  | op_check_auth flows clientdict0 clientip w r w' :
      check_auth hs flows clientdict0 clientip w = (r, w') →
      session_op hs w w'
  | op_add_oob_auth stagetype authdict clientip w r w' :
      add_oob_auth hs stagetype authdict clientip w = (r, w') →
      session_op hs w w'
  | op_set_session_data session_id key value w r w' :
      set_session_data session_id key value w = (r, w') →
      session_op hs w w'
  | op_get_session_data session_id key dflt w r w' :
      get_session_data session_id key dflt w = (r, w') →
      session_op hs w w'.

(** The request [{auth: {type: "m.login.dummy"}}], with the session id
    when the client sends one. *)
Definition dummy_request (sid : option string) : option ClientDict :=
  Some {| cd_auth :=
            Some match sid with
                 | None => {[ "type" := VStr LoginType.DUMMY ]}
                 | Some s => {[ "type" := VStr LoginType.DUMMY;
                                "session" := VStr s ]}
                 end;
          cd_rest := ∅ |}.

(** The scenario of the specification: the first call, without session,
    is answered with an incomplete response that has a new session id,
    the flows and no ['completed'] entry; the second call, with that
    session id and the single dummy flow, completes. *)
Definition dummy_scenario (hs : HomeServer) (flows : list (list string))
    (clientip : string) (w : World) : Prop :=
  ∃ body client_dict sid w1,
    check_auth hs flows (dummy_request None) clientip w
    = (Ok (false, body, client_dict, sid), w1)
    ∧ sessions w !! sid = None
    ∧ body !! "session" = Some (VStr sid)
    ∧ is_Some (body !! "flows")
    ∧ body !! "completed" = None
    ∧ ∃ client_dict' w2,
        check_auth hs [[LoginType.DUMMY]] (dummy_request (Some sid)) clientip w1
        = (Ok (true, {[ LoginType.DUMMY := VBool true ]}, client_dict', sid), w2).

(** The example server with a table of users. *)
Definition hs_with_users (users : gmap string (option string)) : HomeServer :=
  Example.make true [] users.

(** What the code relies on from bcrypt: a hash carries the salt it was
    made with, so that hashing with a hash in the place of the salt uses
    that salt again; and a hash is never the empty string.  Nothing is
    assumed on how bcrypt tells passwords apart. *)
Definition bcrypt_contract (hs : HomeServer) : Prop :=
  (∀ password password' random,
      let salt := bcrypt_gensalt hs (bcrypt_rounds hs) random in
      bcrypt_hashpw hs password (bcrypt_hashpw hs password' salt)
      = bcrypt_hashpw hs password salt)
  ∧ (∀ password salt, bcrypt_hashpw hs password salt ≠ "").

(** The round trip as the specification states it. *)
Definition roundtrip_as_stated (hs : HomeServer) : Prop :=
  (∀ random p w,
      validate_hash hs (VStr p) (Some (hash hs random p)) w = (Ok true, w))
  ∧ (∀ random p q w,
      p ≠ q →
      validate_hash hs (VStr p) (Some (hash hs random q)) w = (Ok false, w))
  ∧ (∀ password w, validate_hash hs password None w = (Ok false, w)).

(** A stand-in for bcrypt that, as the library does, reads no more than
    the first 72 bytes of the password. *)
Definition hashpw72 (password salt : string) : string :=
  Example.hashpw (String.substring 0 72 password) salt.

(** The example server with that bcrypt. *)
Definition hs_bcrypt72 : HomeServer :=
  {| hostname := hostname Example.hs;
     password_enabled := password_enabled Example.hs;
     password_pepper := password_pepper Example.hs;
     bcrypt_rounds := bcrypt_rounds Example.hs;
     recaptcha_public_key := recaptcha_public_key Example.hs;
     password_providers := password_providers Example.hs;
     server_name := server_name Example.hs;
     macaroon_secret_key := macaroon_secret_key Example.hs;
     get_users_by_id_case_insensitive :=
       get_users_by_id_case_insensitive Example.hs;
     threepid_from_creds := threepid_from_creds Example.hs;
     recaptcha_siteverify := recaptcha_siteverify Example.hs;
     bcrypt_hashpw := hashpw72;
     bcrypt_gensalt := bcrypt_gensalt Example.hs;
     str_format := str_format Example.hs;
     macaroon_serialize := macaroon_serialize Example.hs |}.

(** A password of 73 bytes: 72 times "a", then [last]. *)
Definition long_password (last : string) : string :=
  String.concat "" (replicate 72 "a") ++ last.

(** Provider [p] takes the login type [lt] as one of its own: it has both
    [get_supported_login_types] and [check_auth], and declares [lt]. *)
Definition provider_recognizes (p : Provider.t) (lt : Value) : Prop :=
  ∃ types chk t,
    Provider.get_supported_login_types p = Some types
    ∧ Provider.check_auth p = Some chk
    ∧ lt = VStr t ∧ is_Some (types !! t).

(** Some step of [validate_login] sets [known_login_type] for [lt]. *)
Definition step_recognized (hs : HomeServer) (lt : Value) : Prop :=
  is_str lt LoginType.PASSWORD = true
  ∨ ∃ p, p ∈ password_providers hs ∧ provider_recognizes p lt.

(** The login type is the password type or a type some provider declares. *)
Definition declared (hs : HomeServer) (lt : Value) : Prop :=
  is_str lt LoginType.PASSWORD = true
  ∨ ∃ p types t,
      p ∈ password_providers hs
      ∧ Provider.get_supported_login_types p = Some types
      ∧ lt = VStr t ∧ is_Some (types !! t).

Definition invalid_credentials : Exn :=
  LoginError 403 "Invalid password" Codes.FORBIDDEN.

Definition unknown_login_type (lt : Value) : Exn :=
  SynapseError 400 (MsgFormat "Unknown login type %s" [lt]).

Definition missing_parameters (e : Exn) : Prop :=
  ∃ args,
    e = SynapseError 400
          (MsgFormat "Missing parameters for login type %s: %s" args).

(** Nothing in the request makes [validate_login] turn it down before it
    comes to a verdict: for the password type, password login is enabled
    and the password is a string that is not empty; and the submission
    has every field that a provider taking the login type asks for. *)
Definition answerable (hs : HomeServer) (login_submission : gmap string Value)
    : Prop :=
  let lt := dict_get login_submission "type" in
  (is_str lt LoginType.PASSWORD = true →
   password_enabled hs = true
   ∧ ∃ p, dict_get login_submission "password" = VStr p ∧ p ≠ "")
  ∧ (∀ p types chk t fields f,
       p ∈ password_providers hs →
       Provider.get_supported_login_types p = Some types →
       Provider.check_auth p = Some chk →
       lt = VStr t → types !! t = Some fields → f ∈ fields →
       is_Some (login_submission !! f)).

(** No provider produces a match: every [check_password] turns the
    password down, and every [check_auth] of a provider that takes the
    login type answers [None] or the empty string. *)
Definition no_provider_match (hs : HomeServer) (username : string)
    (login_submission : gmap string Value) : Prop :=
  let lt := dict_get login_submission "type" in
  (∀ p cp,
      p ∈ password_providers hs → Provider.check_password p = Some cp →
      is_str lt LoginType.PASSWORD = true →
      cp (qualify hs username) (dict_get login_submission "password") = false)
  ∧ (∀ p types chk t fields,
       p ∈ password_providers hs →
       Provider.get_supported_login_types p = Some types →
       Provider.check_auth p = Some chk →
       lt = VStr t → types !! t = Some fields →
       let answer :=
         chk username lt (collect_fields fields login_submission [] ∅).2 in
       answer = PRNone ∨ answer = PRStr "").

(** The local lookup produces no match: [_check_local_password] returns
    no user id, or an empty one. *)
Definition no_local_match (hs : HomeServer) (username : string)
    (login_submission : gmap string Value) : Prop :=
  ∀ w c,
    (_check_local_password hs (qualify hs username)
       (dict_get login_submission "password") w).1 = Ok (Some c) →
    c = "".

(** No provider and no local lookup produces a match; the local lookup
    is made for the password type only. *)
Definition no_match (hs : HomeServer) (username : string)
    (login_submission : gmap string Value) : Prop :=
  no_provider_match hs username login_submission
  ∧ (is_str (dict_get login_submission "type") LoginType.PASSWORD = true →
     no_local_match hs username login_submission).

(** A provider with both interfaces for custom login types: it takes the
    type "com.example.sso", asks for the field "ticket", and accepts
    nobody. *)
Definition sso_provider : Provider.t :=
  {| Provider.check_password := None;
     Provider.get_supported_login_types :=
       Some {[ "com.example.sso" := ["ticket"] ]};
     Provider.check_auth := Some (λ _ _ _, PRNone) |}.

(** The two failure modes as the specification states them, for one
    call. *)
Definition failure_modes_as_stated (hs : HomeServer) (username : string)
    (login_submission : gmap string Value) (w : World) : Prop :=
  let r := (validate_login hs username login_submission w).1 in
  let lt := dict_get login_submission "type" in
  (declared hs lt → (∀ x, r ≠ Ok x) → r = Raise invalid_credentials)
  ∧ (r = Raise (unknown_login_type lt) → ¬ declared hs lt).

(** ** The rest of the handler *)

(** [self._supported_login_types], as [__init__] computes it. *)
Definition _supported_login_types (hs : HomeServer) : gset string :=
  let login_types : gset string :=
    if password_enabled hs then {[ LoginType.PASSWORD ]} else ∅ in
  foldl (λ login_types provider,
           match Provider.get_supported_login_types provider with
           | Some types => login_types ∪ dom types
           | None => login_types
           end)
        login_types (password_providers hs).

Definition get_supported_login_types (hs : HomeServer) : gset string :=
  _supported_login_types hs.

(** The macaroon [generate_access_token] builds, [nonce] being the string
    [random_string_with_symbols(16)] returns; [extra_caveats] is an
    optional argument. *)
Definition access_macaroon (hs : HomeServer) (user_id : string)
    (extra_caveats : option (list string)) (nonce : string) : Macaroon :=
  let extra_caveats := default [] extra_caveats in
  let macaroon := _generate_base_macaroon hs user_id in
  let macaroon := add_first_party_caveat macaroon "type = access" in
  (* Include a nonce, to make sure that each login gets a different
     access token. *)
  let macaroon := add_first_party_caveat macaroon ("nonce = " ++ nonce) in
  foldl add_first_party_caveat macaroon extra_caveats.

Definition generate_access_token (hs : HomeServer) (user_id : string)
    (extra_caveats : option (list string)) (nonce : string) : string :=
  macaroon_serialize hs (access_macaroon hs user_id extra_caveats nonce).

(** Between [w] and [w'] the credential maps differ at most in the
    entries [touched] names, by session id and stage type. *)
Definition creds_frame (touched : string → string → Prop) (w w' : World)
    : Prop :=
  ∀ sid stage,
    ¬ touched sid stage → creds_of w' sid !! stage = creds_of w sid !! stage.

(** No entry at all. *)
Definition nothing : string → string → Prop := λ _ _, False.

(** The entry of stage type [t] in session [sid0]. *)
Definition entry (sid0 t : string) : string → string → Prop :=
  λ sid stage, sid = sid0 ∧ stage = t.

(** A provider accepts the login by its [check_auth]: it has declared
    the login type, the submission has all the fields it asks for, and
    its answer names the user. *)
Definition accepted_by_check_auth (p : Provider.t) (username : string)
    (lt : Value) (login_submission : gmap string Value)
    (res : string * option Callback) : Prop :=
  ∃ types chk t fields login_dict,
    Provider.get_supported_login_types p = Some types
    ∧ Provider.check_auth p = Some chk
    ∧ lt = VStr t ∧ types !! t = Some fields
    ∧ collect_fields fields login_submission [] ∅ = ([], login_dict)
    ∧ (chk username lt login_dict = PRPair res.1 res.2
       ∨ (chk username lt login_dict = PRStr res.1 ∧ res.1 ≠ ""
          ∧ res.2 = None)).

(** The example server with an identity server that resolves every
    [threepid_creds] to [threepid]. *)
Definition hs_with_threepid (threepid : Value) : HomeServer :=
  {| hostname := hostname Example.hs;
     password_enabled := password_enabled Example.hs;
     password_pepper := password_pepper Example.hs;
     bcrypt_rounds := bcrypt_rounds Example.hs;
     recaptcha_public_key := recaptcha_public_key Example.hs;
     password_providers := password_providers Example.hs;
     server_name := server_name Example.hs;
     macaroon_secret_key := macaroon_secret_key Example.hs;
     get_users_by_id_case_insensitive :=
       get_users_by_id_case_insensitive Example.hs;
     threepid_from_creds := λ _, threepid;
     recaptcha_siteverify := recaptcha_siteverify Example.hs;
     bcrypt_hashpw := bcrypt_hashpw Example.hs;
     bcrypt_gensalt := bcrypt_gensalt Example.hs;
     str_format := str_format Example.hs;
     macaroon_serialize := macaroon_serialize Example.hs |}.

(** * Properties *)

(** ** The monad *)

Lemma bind_Ok {A B} (m : M A) (k : A → M B) w a w1 :
  m w = (Ok a, w1) → bind m k w = k a w1.
Proof. intros H. unfold bind. by rewrite H. Qed.

Lemma bind_Raise {A B} (m : M A) (k : A → M B) w e w1 :
  m w = (Raise e, w1) → bind m k w = (Raise e, w1).
Proof. intros H. unfold bind. by rewrite H. Qed.

Lemma bind_Diverge {A B} (m : M A) (k : A → M B) w w1 :
  m w = (Diverge, w1) → bind m k w = (Diverge, w1).
Proof. intros H. unfold bind. by rewrite H. Qed.

Lemma bind_inv {A B} (m : M A) (k : A → M B) w r w' :
  bind m k w = (r, w') →
  (∃ a w1, m w = (Ok a, w1) ∧ k a w1 = (r, w'))
  ∨ (∃ e, m w = (Raise e, w') ∧ r = Raise e)
  ∨ (m w = (Diverge, w') ∧ r = Diverge).
Proof.
  unfold bind. destruct (m w) as [[a|e|] w1]; intros H.
  - left. eauto.
  - right. left. exists e. by inversion H.
  - right. right. by inversion H.
Qed.

(** ** Calls that leave the store alone *)

Lemma same_store_refl w : same_store w w.
Proof. by repeat split. Qed.

Lemma same_store_trans w1 w2 w3 :
  same_store w1 w2 → same_store w2 w3 → same_store w1 w3.
Proof. intros (?&?&?) (?&?&?). repeat split; congruence. Qed.

Lemma quiet_ret {A} (a : A) : quiet (ret a).
Proof. intros w r w' [= <- <-]. apply same_store_refl. Qed.

Lemma quiet_raise {A} e : quiet (@raise A e).
Proof. intros w r w' [= <- <-]. apply same_store_refl. Qed.

Lemma quiet_call c : quiet (call c).
Proof. intros w r w' [= <- <-]. by repeat split. Qed.

Lemma quiet_bind {A B} (m : M A) (k : A → M B) :
  quiet m → (∀ a, quiet (k a)) → quiet (bind m k).
Proof.
  intros Hm Hk w r w' H.
  apply bind_inv in H as [(a & w1 & H1 & H2)|[(e & H1 & _)|[H1 _]]]; eauto.
  eapply same_store_trans; [by eapply Hm | by eapply Hk].
Qed.

Create HintDb quiet.
#[local] Hint Resolve quiet_ret quiet_raise quiet_call : quiet.

Ltac quiet_step :=
  match goal with
  | |- quiet (bind _ _) => apply quiet_bind; [| intros ?]
  | |- quiet (match ?x with _ => _ end) => destruct x
  | |- quiet (if ?b then _ else _) => destruct b
  | |- quiet (let '(_, _) := ?x in _) => destruct x
  | |- quiet _ => solve [auto with quiet]
  end.

Lemma quiet_find_user hs user_id : quiet (_find_user_id_and_pwd_hash hs user_id).
Proof. unfold _find_user_id_and_pwd_hash. repeat quiet_step. Qed.

Lemma quiet_validate_hash hs password stored_hash :
  quiet (validate_hash hs password stored_hash).
Proof. unfold validate_hash. repeat quiet_step. Qed.

#[local] Hint Resolve quiet_find_user quiet_validate_hash : quiet.

Lemma quiet_check_local_password hs user_id password :
  quiet (_check_local_password hs user_id password).
Proof. unfold _check_local_password. repeat quiet_step. Qed.

Lemma quiet_provider_check_password i p q lt pw known :
  quiet (provider_check_password i p q lt pw known).
Proof. unfold provider_check_password. repeat quiet_step. Qed.

Lemma quiet_provider_check_auth i p u lt sub known :
  quiet (provider_check_auth i p u lt sub known).
Proof. unfold provider_check_auth. repeat quiet_step. Qed.

#[local] Hint Resolve quiet_check_local_password quiet_provider_check_password
  quiet_provider_check_auth : quiet.

Lemma quiet_providers_loop providers : ∀ i u q lt pw sub known,
  quiet (providers_loop i providers u q lt pw sub known).
Proof.
  induction providers as [|p rest IH]; intros; simpl; repeat quiet_step.
Qed.

#[local] Hint Resolve quiet_providers_loop : quiet.

Lemma quiet_validate_login hs username login_submission :
  quiet (validate_login hs username login_submission).
Proof. unfold validate_login. repeat quiet_step. Qed.

#[local] Hint Resolve quiet_validate_login : quiet.

Lemma quiet_check_threepid hs medium authdict :
  quiet (_check_threepid hs medium authdict).
Proof. unfold _check_threepid. repeat quiet_step. Qed.

#[local] Hint Resolve quiet_check_threepid : quiet.

(** Every registered checker leaves sessions, random strings and clock
    as they are. *)
Lemma checkers_inv hs t (checker : Checker) :
  checkers hs !! t = Some checker →
  (t = LoginType.PASSWORD ∧ checker = _check_password_auth hs)
  ∨ (t = LoginType.RECAPTCHA ∧ checker = _check_recaptcha hs)
  ∨ (t = LoginType.EMAIL_IDENTITY ∧ checker = _check_email_identity hs)
  ∨ (t = LoginType.MSISDN ∧ checker = _check_msisdn hs)
  ∨ (t = LoginType.DUMMY ∧ checker = _check_dummy_auth).
Proof.
  unfold checkers. intros H.
  repeat (rewrite lookup_insert in H; destruct (decide _) as [<-|?];
          [inversion H; tauto|]).
  by rewrite lookup_empty in H.
Qed.

Lemma quiet_checkers hs t (checker : Checker) authdict clientip :
  checkers hs !! t = Some checker → quiet (checker authdict clientip).
Proof.
  intros H.
  apply checkers_inv in H as [[_ ->]|[[_ ->]|[[_ ->]|[[_ ->]|[_ ->]]]]].
  - unfold _check_password_auth. repeat quiet_step.
  - unfold _check_recaptcha. repeat quiet_step.
  - unfold _check_email_identity. auto with quiet.
  - unfold _check_msisdn. auto with quiet.
  - unfold _check_dummy_auth. auto with quiet.
Qed.

(** ** The session cache *)

Lemma creds_grow_refl t c : creds_grow t c c.
Proof. intros stage v H. eauto. Qed.

Lemma creds_grow_trans t c1 c2 c3 :
  creds_grow t c1 c2 → creds_grow t c2 c3 → creds_grow t c1 c3.
Proof.
  intros H12 H23 stage v H1.
  destruct (H12 _ _ H1) as [[v2 H2] Hv2].
  destruct (H23 _ _ H2) as [H3 Hv3]. split; [done|].
  intros Ht. specialize (Hv2 Ht). rewrite Hv2 in H2.
  destruct (H23 _ _ Hv2) as [_ Hv]. by apply Hv.
Qed.

Lemma creds_grow_weaken t c c' : creds_grow None c c' → creds_grow t c c'.
Proof. intros H stage v Hs. destruct (H _ _ Hs) as [? Hv]. split; [done|]. intros _. by apply Hv. Qed.

Lemma creds_grow_insert t result c : creds_grow (Some t) c (<[t := result]> c).
Proof.
  intros stage v H. rewrite lookup_insert. case_decide; subst.
  - split; [eauto|]. by intros [].
  - eauto.
Qed.

Lemma creds_grow_empty t c : creds_grow t ∅ c.
Proof. intros stage v H. by rewrite lookup_empty in H. Qed.

Lemma extends_refl t w : extends t w w.
Proof. intros sid. apply creds_grow_refl. Qed.

Lemma extends_trans t w1 w2 w3 :
  extends t w1 w2 → extends t w2 w3 → extends t w1 w3.
Proof. intros H12 H23 sid. eapply creds_grow_trans; eauto. Qed.

Lemma extends_weaken t w w' : extends None w w' → extends t w w'.
Proof. intros H sid. by apply creds_grow_weaken. Qed.

Lemma same_store_extends t w w' : same_store w w' → extends t w w'.
Proof.
  intros (Hs & _ & _) sid. unfold creds_of. rewrite Hs. apply creds_grow_refl.
Qed.

Lemma same_store_wf w w' : same_store w w' → sessions_wf w → sessions_wf w'.
Proof. intros (Hs & _) Hwf k s. rewrite Hs. apply Hwf. Qed.

Lemma same_store_in_sync s w w' : same_store w w' → in_sync s w → in_sync s w'.
Proof. intros (Hs & _). unfold in_sync. by rewrite Hs. Qed.

(** A cache without sessions is well formed. *)
Lemma sessions_wf_empty w : sessions w = ∅ → sessions_wf w.
Proof. intros He k s. by rewrite He, lookup_empty. Qed.

(** Writing the session dictionary back under its id. *)
Lemma wf_insert s w :
  sessions_wf w → sessions_wf (with_sessions (insert (id s) s) w).
Proof.
  intros Hwf k s'. simpl. rewrite lookup_insert. case_decide.
  - by intros [= <-].
  - apply Hwf.
Qed.

Lemma in_sync_insert s w : in_sync s (with_sessions (insert (id s) s) w).
Proof. unfold in_sync. simpl. by rewrite lookup_insert_eq. Qed.

Lemma extends_insert t s s' w :
  in_sync s w → id s' = id s →
  creds_grow t (default ∅ (creds s)) (default ∅ (creds s')) →
  extends t w (with_sessions (insert (id s') s') w).
Proof.
  intros Hs Hid Hg sid. unfold creds_of. simpl.
  rewrite lookup_insert. case_decide as Hk.
  - subst sid. rewrite Hid. unfold in_sync in Hs. rewrite Hs. simpl. done.
  - apply creds_grow_refl.
Qed.

Lemma extends_insert_fresh t k s w :
  sessions w !! k = None → extends t w (with_sessions (insert k s) w).
Proof.
  intros Hk sid. unfold creds_of. simpl.
  rewrite lookup_insert. case_decide as Hd.
  - subst. rewrite Hk. simpl. apply creds_grow_empty.
  - apply creds_grow_refl.
Qed.

Lemma has_key_true {A} (d : gmap string A) k : has_key d k = true ↔ is_Some (d !! k).
Proof. unfold has_key. apply bool_decide_eq_true. Qed.

Lemma has_key_false {A} (d : gmap string A) k : has_key d k = false ↔ d !! k = None.
Proof. unfold has_key. rewrite bool_decide_eq_false. symmetry. apply eq_None_not_Some. Qed.

Lemma fresh_session_id_spec draws live s rest :
  fresh_session_id draws live = Some (s, rest) →
  live !! s = None ∧ ∃ used, draws = (used ++ s :: rest)%list.
Proof.
  induction draws as [|d draws IH]; simpl; [done|].
  destruct (has_key live d) eqn:Hd.
  - intros H. destruct (IH H) as (? & used & ->). split; [done|].
    by exists (d :: used).
  - intros [= -> ->]. apply has_key_false in Hd. split; [done|]. by exists [].
Qed.

(** A live, non-empty session id resolves to its session and changes
    nothing. *)
Lemma get_session_info_live sid s w :
  sessions w !! sid = Some s → sid ≠ "" →
  _get_session_info (VStr sid) w = (Ok s, w).
Proof.
  intros Hs Hne. unfold _get_session_info. simpl.
  destruct (String.eqb_spec sid "") as [|_]; [done|]. simpl. by rewrite Hs.
Qed.

(** Without a session id, the first random string that is not a live id
    names the new session. *)
Lemma get_session_info_new w s rest :
  fresh_session_id (entropy w) (sessions w) = Some (s, rest) →
  _get_session_info VNone w
  = (Ok (new_session s),
     with_sessions (insert s (new_session s)) (with_entropy rest w)).
Proof. intros H. unfold _get_session_info. simpl. by rewrite H. Qed.

Lemma get_session_info_spec sid w r w' :
  _get_session_info sid w = (r, w') → sessions_wf w →
  sessions_wf w' ∧ extends None w w' ∧ trace w' = trace w
  ∧ time_msec w' = time_msec w
  ∧ (∀ k, is_Some (sessions w !! k) → is_Some (sessions w' !! k))
  ∧ ∀ s, r = Ok s → in_sync s w'.
Proof.
  intros H Hwf. unfold _get_session_info in H.
  destruct (negb (hashable sid)).
  { inversion H; subst. split_and!; auto using extends_refl. done. }
  destruct (match sid with
            | VStr s => if truthy sid then sessions w !! s else None
            | _ => None
            end) as [s0|] eqn:Hknown.
  - inversion H; subst. split_and!; auto using extends_refl.
    intros s [= <-]. destruct sid; try done.
    destruct (truthy _); [|done]. unfold in_sync.
    by rewrite (Hwf _ _ Hknown).
  - destruct (fresh_session_id _ _) as [[s rest]|] eqn:Hf.
    + apply fresh_session_id_spec in Hf as [Hnone _].
      inversion H; subst. split_and!; try done.
      * intros k s'. simpl. rewrite lookup_insert. case_decide.
        -- by intros [= <-].
        -- apply Hwf.
      * intros sid'. unfold creds_of. simpl. rewrite lookup_insert.
        case_decide as Hd.
        -- subst. rewrite Hnone. apply creds_grow_empty.
        -- apply creds_grow_refl.
      * intros k Hk. simpl. rewrite lookup_insert. case_decide; eauto.
      * intros s' [= <-]. unfold in_sync. simpl. by rewrite lookup_insert_eq.
    + inversion H; subst. split_and!; try done;
        intros sid'; apply creds_grow_refl.
Qed.

(** ** The blocks of [check_auth] *)

Lemma session_step_insert t s s' w :
  sessions_wf w → in_sync s w → id s' = id s →
  creds_grow t (default ∅ (creds s)) (default ∅ (creds s')) →
  session_step t s w s' (with_sessions (insert (id s') s') w).
Proof.
  intros Hwf Hs Hid Hg. split_and!; [done| | |].
  - apply in_sync_insert.
  - by apply wf_insert.
  - by eapply extends_insert.
Qed.

Lemma session_step_trans t s1 w1 s2 w2 s3 w3 :
  session_step t s1 w1 s2 w2 → session_step t s2 w2 s3 w3 →
  session_step t s1 w1 s3 w3.
Proof.
  intros (?&?&?&?) (?&?&?&?). split_and!; try done; [congruence|].
  by eapply extends_trans.
Qed.

Lemma session_step_quiet t s w w' :
  same_store w w' → sessions_wf w → in_sync s w → session_step t s w s w'.
Proof.
  intros Hq Hwf Hs. split_and!; [done| | |].
  - by eapply same_store_in_sync.
  - by eapply same_store_wf.
  - by apply same_store_extends.
Qed.

Lemma save_session_spec s w :
  ∃ s', _save_session s w = (Ok s', with_sessions (insert (id s') s') w)
        ∧ id s' = id s ∧ creds s' = creds s ∧ clientdict s' = clientdict s.
Proof. exists (set_last_used s (time_msec w)). split; [reflexivity|done]. Qed.

Lemma stash_clientdict_spec s cd w :
  ∃ s' c w',
    stash_clientdict s cd w = (Ok (s', c), w') ∧ creds s' = creds s
    ∧ trace w' = trace w
    ∧ (c = cd ∨ size cd = 0%nat ∧ clientdict s = Some c)
    ∧ (sessions_wf w → in_sync s w → session_step None s w s' w').
Proof.
  unfold stash_clientdict. destruct (Nat.eqb_spec (size cd) 0) as [Hz|Hnz]; simpl.
  - destruct (clientdict s) as [stored|] eqn:Hc.
    + exists s, stored, w. split_and!; auto.
      intros. by apply session_step_quiet; [apply same_store_refl|..].
    + exists s, cd, w. split_and!; auto.
      intros. by apply session_step_quiet; [apply same_store_refl|..].
  - eexists _, cd, _.
    split; [cbv [bind update_session modify _save_session get ret];
            reflexivity|].
    split_and!; auto.
    intros Hwf Hs. split_and!; [done| | |].
    + unfold in_sync. simpl. by rewrite lookup_insert_eq.
    + intros k s'. simpl. rewrite !lookup_insert.
      case_decide; [by intros [= <-]|]. apply Hwf.
    + intros sid. unfold creds_of. simpl. rewrite !lookup_insert.
      case_decide as Hk; [|apply creds_grow_refl].
      subst. unfold in_sync in Hs. rewrite Hs. apply creds_grow_refl.
Qed.

Lemma ensure_creds_spec s w :
  ∃ s' w',
    ensure_creds s w = (Ok s', w') ∧ creds s' = Some (default ∅ (creds s))
    ∧ trace w' = trace w
    ∧ (sessions_wf w → in_sync s w → session_step None s w s' w').
Proof.
  unfold ensure_creds. destruct (creds s) as [c|] eqn:Hc.
  - exists s, w. split_and!; auto.
    intros. by apply session_step_quiet; [apply same_store_refl|..].
  - eexists _, _.
    split; [cbv [bind update_session modify ret]; reflexivity|].
    split_and!; auto.
    intros Hwf Hs. apply (session_step_insert None s (set_creds s ∅)); auto.
    rewrite Hc. apply creds_grow_empty.
Qed.

Lemma record_result_spec s t result w :
  ∃ s' w',
    record_result s t result w = (Ok s', w')
    ∧ creds s' = Some (<[t := result]> (default ∅ (creds s)))
    ∧ trace w' = trace w
    ∧ (sessions_wf w → in_sync s w → session_step (Some t) s w s' w').
Proof.
  eexists _, _.
  split; [cbv [record_result bind update_session modify _save_session get ret];
          reflexivity|].
  split_and!; auto.
  intros Hwf Hs. split_and!; [done| | |].
  - unfold in_sync. simpl. by rewrite lookup_insert_eq.
  - intros k s'. simpl. rewrite !lookup_insert.
    case_decide; [by intros [= <-]|]. apply Hwf.
  - intros sid. unfold creds_of. simpl. rewrite !lookup_insert.
    case_decide as Hk; [|apply creds_grow_refl].
    subst. unfold in_sync in Hs. rewrite Hs. simpl. apply creds_grow_insert.
Qed.

#[local] Arguments checkers : simpl never.

Lemma check_stage_registered hs s a ip t (checker : Checker) w :
  a !! "type" = Some (VStr t) → checkers hs !! t = Some checker →
  ∃ r w',
    check_stage hs s a ip w = (r, w')
    ∧ stage_outcome hs s t (checker a ip w).1 r
    ∧ trace w' = trace (checker a ip w).2
    ∧ (sessions_wf w → in_sync s w →
       sessions_wf w' ∧ extends (Some t) w w'
       ∧ ∀ s' ed, r = Ok (s', ed) → id s' = id s ∧ in_sync s' w').
Proof.
  intros Ht Hc. unfold check_stage. rewrite Ht. cbn [hashable negb].
  rewrite Hc.
  unfold try_except_LoginError, bind at 1.
  pose proof (quiet_checkers hs t checker a ip Hc w) as Hq.
  destruct (checker a ip w) as [[result|e|] w1] eqn:Hrun; simpl.
  - specialize (Hq _ _ eq_refl). destruct (truthy result) eqn:Htr.
    + destruct (record_result_spec s t result w1) as (s' & w' & Hrec & Hcr & Htrace & Hstep).
      rewrite (bind_Ok _ _ _ _ _ Hrec). unfold ret.
      exists (Ok (s', ∅)), w'. split_and!; eauto.
      intros Hwf Hs.
      destruct (Hstep (same_store_wf _ _ Hq Hwf) (same_store_in_sync _ _ _ Hq Hs))
        as (Hid & Hs' & Hwf' & Hext).
      split_and!; [done| |].
      * eapply extends_trans; [by apply same_store_extends|done].
      * by intros ? ? [= <- <-].
    + exists (Ok (s, ∅)), w1. split_and!; eauto.
      intros Hwf Hs. split_and!.
      * by eapply same_store_wf.
      * by apply same_store_extends.
      * intros ? ? [= <- <-]. split; [done|]. by eapply same_store_in_sync.
  - specialize (Hq _ _ eq_refl).
    assert (sessions_wf w → in_sync s w →
            sessions_wf w1 ∧ extends (Some t) w w1 ∧ in_sync s w1) as Hframe.
    { intros Hwf Hs. split_and!.
      - by eapply same_store_wf.
      - by apply same_store_extends.
      - by eapply same_store_in_sync. }
    destruct e as [code msg errcode| | | |];
      try (eexists _, w1; split; [reflexivity|]; split_and!; eauto;
           intros Hwf Hs; destruct (Hframe Hwf Hs) as (?&?&?); by split_and!).
    destruct (String.eqb t LoginType.EMAIL_IDENTITY) eqn:He.
    + eexists _, w1. split; [reflexivity|]. split_and!; eauto.
      intros Hwf Hs; destruct (Hframe Hwf Hs) as (?&?&?); by split_and!.
    + eexists _, w1. split; [reflexivity|]. split_and!; eauto.
      intros Hwf Hs; destruct (Hframe Hwf Hs) as (?&?&?). split_and!; try done.
      by intros ? ? [= <- <-].
  - specialize (Hq _ _ eq_refl).
    eexists _, w1. split; [reflexivity|]. split_and!; eauto.
    intros Hwf Hs. split_and!; try done.
    + by eapply same_store_wf.
    + by apply same_store_extends.
Qed.

Lemma presented_str a t : a !! "type" = Some (VStr t) → presented a = Some t.
Proof. intros H. unfold presented. by rewrite H. Qed.

(** The dispatch block on every path: the session stays in the cache
    under its id, and no credential is lost. *)
Lemma check_stage_spec hs s a ip w r w' :
  check_stage hs s a ip w = (r, w') → sessions_wf w → in_sync s w →
  sessions_wf w' ∧ extends (presented a) w w'
  ∧ ∀ s' ed, r = Ok (s', ed) → id s' = id s ∧ in_sync s' w'.
Proof.
  intros H Hwf Hs.
  assert (∀ t, (r, w') = (r, w') → w' = w → (∀ s' ed, r = Ok (s', ed) → s' = s) →
          sessions_wf w' ∧ extends t w w'
          ∧ ∀ s' ed, r = Ok (s', ed) → id s' = id s ∧ in_sync s' w') as Hsame.
  { intros t _ -> Hr. split_and!; [done|apply extends_refl|].
    intros s' ed Hok. by rewrite (Hr _ _ Hok). }
  destruct (a !! "type") as [lt|] eqn:Ht.
  2:{ unfold check_stage in H. rewrite Ht in H. inversion H; subst.
      apply Hsame; auto. by intros ? ? [= <- _]. }
  destruct lt as [|b|z|t|l|d];
    try (unfold check_stage in H; rewrite Ht in H; inversion H; subst;
         by apply Hsame).
  destruct (checkers hs !! t) as [checker|] eqn:Hc.
  2:{ unfold check_stage in H. rewrite Ht in H. simpl in H. rewrite Hc in H.
      inversion H; subst. by apply Hsame. }
  destruct (check_stage_registered hs s a ip t checker w Ht Hc)
    as (r0 & w0 & Heq & _ & _ & Hpost).
  rewrite Heq in H. inversion H; subst.
  rewrite (presented_str _ _ Ht). by apply Hpost.
Qed.

(** ** [check_auth] as a whole *)

(** On every path, [check_auth] keeps the cache well formed and loses no
    credential of any session; only the entry of the presented stage type
    can have a new value. *)
Lemma check_auth_extends hs flows cd0 ip w r w' :
  check_auth hs flows cd0 ip w = (r, w') → sessions_wf w →
  sessions_wf w' ∧ extends (auth_block cd0 ≫= presented) w w'.
Proof.
  intros H Hwf. unfold check_auth in H.
  apply bind_inv in H as [(s & w1 & Hget & H)|[(e & Hget & _)|[Hget _]]].
  2,3: destruct (get_session_info_spec _ _ _ _ Hget Hwf) as (? & ? & _);
       split; [done|by apply extends_weaken].
  destruct (get_session_info_spec _ _ _ _ Hget Hwf) as (Hwf1 & Hext1 & _ & _ & _ & Hs1).
  specialize (Hs1 _ eq_refl).
  destruct cd0 as [cd|].
  2:{ inversion H; subst. split; [done|by apply extends_weaken]. }
  destruct (stash_clientdict_spec s (cd_rest cd) w1)
    as (s2 & c & w2 & Hstash & _ & _ & _ & Hstep2).
  rewrite (bind_Ok _ _ _ _ _ Hstash) in H.
  destruct (Hstep2 Hwf1 Hs1) as (Hid2 & Hs2 & Hwf2 & Hext2).
  assert (extends None w w2) as Hext02 by (by eapply extends_trans).
  simpl in H. unfold auth_block. simpl.
  destruct (cd_auth cd) as [a|] eqn:Ha.
  2:{ inversion H; subst. split; [done|by apply extends_weaken]. }
  destruct (Nat.eqb (size a) 0).
  { inversion H; subst. split; [done|by apply extends_weaken]. }
  destruct (ensure_creds_spec s2 w2) as (s3 & w3 & Hens & _ & _ & Hstep3).
  rewrite (bind_Ok _ _ _ _ _ Hens) in H.
  destruct (Hstep3 Hwf2 Hs2) as (Hid3 & Hs3 & Hwf3 & Hext3).
  assert (extends (presented a) w w3) as Hext03.
  { apply extends_weaken. by eapply extends_trans. }
  apply bind_inv in H as [([s4 ed] & w4 & Hst & H)|[(e & Hst & _)|[Hst _]]].
  - destruct (check_stage_spec _ _ _ _ _ _ _ Hst Hwf3 Hs3) as (Hwf4 & Hext4 & _).
    inversion H; subst. split; [done|]. by eapply extends_trans.
  - destruct (check_stage_spec _ _ _ _ _ _ _ Hst Hwf3 Hs3) as (Hwf4 & Hext4 & _).
    split; [done|]. by eapply extends_trans.
  - destruct (check_stage_spec _ _ _ _ _ _ _ Hst Hwf3 Hs3) as (Hwf4 & Hext4 & _).
    split; [done|]. by eapply extends_trans.
Qed.

(** When [check_auth] returns on a request with an [auth] block, its
    answer is [flows_response] on the session as the cache now holds it. *)
Lemma check_auth_returns hs flows cd0 a ip w res w' :
  check_auth hs flows cd0 ip w = (Ok res, w') → sessions_wf w →
  auth_block cd0 = Some a →
  ∃ s errordict client_dict,
    res = flows_response hs flows s errordict client_dict
    ∧ in_sync s w' ∧ is_Some (creds s)
    ∧ request_session cd0 w = Some (id s).
Proof.
  intros H Hwf Hauth. unfold check_auth in H.
  apply bind_inv in H as [(s & w1 & Hget & H)|[(e & _ & ?)|[_ ?]]]; [|done..].
  destruct (get_session_info_spec _ _ _ _ Hget Hwf) as (Hwf1 & _ & _ & _ & _ & Hs1).
  specialize (Hs1 _ eq_refl).
  assert (request_session cd0 w = Some (id s)) as Hreq.
  { unfold request_session, get_session_id. by rewrite Hget. }
  destruct cd0 as [cd|]; [|done].
  destruct (stash_clientdict_spec s (cd_rest cd) w1)
    as (s2 & c & w2 & Hstash & _ & _ & _ & Hstep2).
  rewrite (bind_Ok _ _ _ _ _ Hstash) in H.
  destruct (Hstep2 Hwf1 Hs1) as (Hid2 & Hs2 & Hwf2 & _).
  unfold auth_block in Hauth. simpl in H, Hauth.
  destruct (cd_auth cd) as [a'|]; [|done].
  destruct (Nat.eqb (size a') 0); [done|].
  destruct (ensure_creds_spec s2 w2) as (s3 & w3 & Hens & Hc3 & _ & Hstep3).
  rewrite (bind_Ok _ _ _ _ _ Hens) in H.
  destruct (Hstep3 Hwf2 Hs2) as (Hid3 & Hs3 & Hwf3 & _).
  apply bind_inv in H as [([s4 ed] & w4 & Hst & H)|[(e & _ & ?)|[_ ?]]]; [|done..].
  destruct (check_stage_spec _ _ _ _ _ _ _ Hst Hwf3 Hs3) as (_ & _ & Hpost).
  destruct (Hpost _ _ eq_refl) as [Hid4 Hs4].
  inversion H; subst. exists s4, ed, c. split_and!; [done..| |congruence].
  (* the session has a creds entry from ensure_creds on *)
  clear - Hst Hc3.
  unfold check_stage in Hst.
  destruct (a' !! "type") as [lt|]; [|inversion Hst; subst; by rewrite Hc3].
  destruct (negb (hashable lt)); [done|].
  destruct lt; try done.
  destruct (checkers hs !! s) as [checker|]; [|done].
  unfold try_except_LoginError, bind at 1 in Hst.
  destruct (checker a' ip w3) as [[result|e|] wc]; [| |done].
  - destruct (truthy result).
    + destruct (record_result_spec s3 s result wc) as (s' & wr & Hrec & Hcr & _).
      rewrite (bind_Ok _ _ _ _ _ Hrec) in Hst. inversion Hst; subst.
      by rewrite Hcr.
    + inversion Hst; subst. by rewrite Hc3.
  - destruct e; try done.
    destruct (String.eqb _ _); [done|]. inversion Hst; subst. by rewrite Hc3.
Qed.

(** ** Flow completion (C1) *)

Lemma flow_complete_iff c f : flow_complete c f = true ↔ flow_satisfied c f.
Proof.
  unfold flow_complete, flow_satisfied.
  rewrite Nat.eqb_eq, size_empty_iff. split.
  - intros H stage Hin. apply elem_of_dom.
    destruct (decide (stage ∈ dom c)) as [|Hn]; [done|].
    exfalso. apply (not_elem_of_empty (C := gset string) stage).
    rewrite <- H. apply elem_of_difference. split; [|done].
    by apply elem_of_list_to_set.
  - intros H stage. rewrite elem_of_difference, elem_of_list_to_set, elem_of_dom.
    split; [|by intros ?%not_elem_of_empty]. intros [Hin Hn]. destruct Hn. auto.
Qed.

Lemma some_flow_complete_iff flows c :
  existsb (flow_complete c) flows = true ↔ some_flow_satisfied flows c.
Proof.
  rewrite existsb_exists. unfold some_flow_satisfied.
  split; intros (f & Hin & Hf); exists f.
  - split; [by apply list_elem_of_In|by apply flow_complete_iff].
  - split; [by apply list_elem_of_In|by apply flow_complete_iff].
Qed.

(** The order of the stages within a flow does not matter, nor does the
    order in which results were recorded. *)
Lemma flow_satisfied_Permutation c f f' :
  f ≡ₚ f' → flow_satisfied c f ↔ flow_satisfied c f'.
Proof.
  intros Hp. unfold flow_satisfied.
  split; intros H stage Hin; apply H; [by rewrite Hp|by rewrite <- Hp].
Qed.

Lemma record_order_irrelevant (c : gmap string Value) t1 v1 t2 v2 :
  t1 ≠ t2 → <[t1 := v1]> (<[t2 := v2]> c) = <[t2 := v2]> (<[t1 := v1]> c).
Proof. intros. by apply insert_insert_ne. Qed.

(** C1, as stated, fails in two ways.  Session "S" has completed the
    only flow, and a request that names "S" and presents a stage type
    without checker is rejected with an error; no completion is
    reported.  And a request without [auth] block is answered with the
    description of the flows although a flow without stages is among
    them, which every session satisfies. *)
Lemma check_auth_complete_iff_counterexample :
  ¬ reports_complete_iff Example.hs [[LoginType.DUMMY]]
      (Example.request {[ "type" := VStr "m.login.bogus"; "session" := VStr "S" ]})
      "10.0.0.1" Example.w1
  ∧ ¬ reports_complete_iff Example.hs [[]]
        (Some {| cd_auth := None; cd_rest := ∅ |}) "10.0.0.1" Example.w0.
Proof.
  split.
  - unfold reports_complete_iff.
    replace (check_auth _ _ _ _ _)
      with (@Raise (bool * gmap string Value * gmap string Value * string)
              (LoginError 400 "" Codes.UNRECOGNIZED), Example.w1)
      by (vm_compute; reflexivity).
    intros [_ H].
    destruct H as (sid & cd & _ & Habs); [|done].
    exists "S". split; [by vm_compute|].
    exists [LoginType.DUMMY]. split; [apply list_elem_of_here|].
    intros stage ->%list_elem_of_singleton. vm_compute. eauto.
  - unfold reports_complete_iff.
    destruct (check_auth Example.hs [[]]
                (Some {| cd_auth := None; cd_rest := ∅ |}) "10.0.0.1"
                Example.w0) as [r w'] eqn:Hrun.
    assert (r = Ok (false,
                      _auth_dict_for_flows Example.hs [[]] (new_session "AAAA"),
                      ∅, "AAAA")) as Hr.
    { replace r with (check_auth Example.hs [[]]
                        (Some {| cd_auth := None; cd_rest := ∅ |}) "10.0.0.1"
                        Example.w0).1 by (by rewrite Hrun).
      vm_compute. reflexivity. }
    intros [_ H].
    destruct H as (sid & cd & _ & Habs).
    + exists "AAAA". split; [by vm_compute|].
      exists []. split; [apply list_elem_of_here|].
      intros stage Hin. by apply not_elem_of_nil in Hin.
    + rewrite Habs in Hr. discriminate.
Qed.

(** C1 (amended): when the request carries a non-empty [auth] block and
    [check_auth] returns (the session id is usable and the dispatch of
    the presented stage raises nothing), the session id it returns is
    that of the request's session, and it reports completion if and only
    if some flow has all its stage types among those recorded in that
    session; with the report of completion comes the session's
    credential map. *)
Theorem check_auth_complete_iff hs flows clientdict0 a clientip w authed body
    client_dict sid w' :
  sessions_wf w →
  auth_block clientdict0 = Some a →
  check_auth hs flows clientdict0 clientip w
  = (Ok (authed, body, client_dict, sid), w') →
  request_session clientdict0 w = Some sid
  ∧ (authed = true ↔ some_flow_satisfied flows (creds_of w' sid))
  ∧ (authed = true → body = creds_of w' sid).
Proof.
  intros Hwf Ha Hrun.
  destruct (check_auth_returns _ _ _ _ _ _ _ _ Hrun Hwf Ha)
    as (s & ed & cd & Hres & Hs & _ & Hreq).
  assert (creds_of w' (id s) = default ∅ (creds s)) as Hcreds.
  { unfold creds_of. unfold in_sync in Hs. by rewrite Hs. }
  unfold flows_response in Hres.
  destruct (existsb (flow_complete (default ∅ (creds s))) flows) eqn:Hex;
    injection Hres as -> -> -> ->; rewrite Hcreds.
  - apply some_flow_complete_iff in Hex. by split_and!.
  - split_and!; [done| |done]. split; [done|].
    intros Hsat%some_flow_complete_iff. congruence.
Qed.

Lemma check_auth_complete_iff_witness :
  let run :=
    check_auth Example.hs [[LoginType.DUMMY]]
      (Example.request {[ "type" := VStr LoginType.DUMMY ]}) "10.0.0.1"
      Example.w0 in
  run.1 = Ok (true, {[ LoginType.DUMMY := VBool true ]}, ∅, "AAAA")
  ∧ some_flow_satisfied [[LoginType.DUMMY]] (creds_of run.2 "AAAA")
  ∧ ({[ LoginType.DUMMY := VBool true ]} : gmap string Value)
    = creds_of run.2 "AAAA".
Proof.
  intros run.
  assert (run = (Ok (true, {[ LoginType.DUMMY := VBool true ]}, ∅, "AAAA"),
                 run.2)) as Hrun by (vm_compute; reflexivity).
  destruct (check_auth_complete_iff Example.hs [[LoginType.DUMMY]]
              (Example.request {[ "type" := VStr LoginType.DUMMY ]})
              {[ "type" := VStr LoginType.DUMMY ]} "10.0.0.1" Example.w0
              true {[ LoginType.DUMMY := VBool true ]} ∅ "AAAA" run.2)
    as (_ & Hiff & Hbody).
  - intros k s H. vm_compute in H. discriminate.
  - vm_compute. reflexivity.
  - exact Hrun.
  - split_and!.
    + by rewrite Hrun.
    + by apply Hiff.
    + by apply Hbody.
Defined.

(** ** The credential map only grows (C2) *)

Lemma add_oob_auth_extends hs stagetype a ip w r w' :
  add_oob_auth hs stagetype a ip w = (r, w') → sessions_wf w →
  sessions_wf w' ∧ extends (Some stagetype) w w'.
Proof.
  intros H Hwf. unfold add_oob_auth in H.
  destruct (checkers hs !! stagetype) as [checker|] eqn:Hc.
  2:{ inversion H; subst. split; [done|apply extends_refl]. }
  destruct (a !! "session") as [sid|].
  2:{ inversion H; subst. split; [done|apply extends_refl]. }
  apply bind_inv in H as [(s & w1 & Hget & H)|[(e & Hget & _)|[Hget _]]].
  2,3: destruct (get_session_info_spec _ _ _ _ Hget Hwf) as (? & ? & _);
       split; [done|by apply extends_weaken].
  destruct (get_session_info_spec _ _ _ _ Hget Hwf) as (Hwf1 & Hext1 & _ & _ & _ & Hs1).
  specialize (Hs1 _ eq_refl).
  destruct (ensure_creds_spec s w1) as (s2 & w2 & Hens & _ & _ & Hstep2).
  rewrite (bind_Ok _ _ _ _ _ Hens) in H.
  destruct (Hstep2 Hwf1 Hs1) as (Hid2 & Hs2 & Hwf2 & Hext2).
  assert (extends (Some stagetype) w w2) as Hext02.
  { apply extends_weaken. by eapply extends_trans. }
  pose proof (quiet_checkers hs stagetype checker a ip Hc w2) as Hq.
  unfold bind at 1 in H.
  destruct (checker a ip w2) as [[result|e|] w3] eqn:Hrun;
    specialize (Hq _ _ eq_refl).
  - destruct (truthy result).
    + destruct (record_result_spec s2 stagetype result w3)
        as (s4 & w4 & Hrec & _ & _ & Hstep4).
      rewrite (bind_Ok _ _ _ _ _ Hrec) in H. inversion H; subst.
      destruct (Hstep4 (same_store_wf _ _ Hq Hwf2)
                  (same_store_in_sync _ _ _ Hq Hs2)) as (_ & _ & Hwf4 & Hext4).
      split; [done|].
      eapply extends_trans; [done|].
      eapply extends_trans; [by apply same_store_extends|done].
    + inversion H; subst. split; [by eapply same_store_wf|].
      eapply extends_trans; [done|by apply same_store_extends].
  - inversion H; subst. split; [by eapply same_store_wf|].
    eapply extends_trans; [done|by apply same_store_extends].
  - inversion H; subst. split; [by eapply same_store_wf|].
    eapply extends_trans; [done|by apply same_store_extends].
Qed.

Lemma set_session_data_extends session_id key value w r w' :
  set_session_data session_id key value w = (r, w') → sessions_wf w →
  sessions_wf w' ∧ extends None w w'.
Proof.
  intros H Hwf. unfold set_session_data in H.
  apply bind_inv in H as [(s & w1 & Hget & H)|[(e & Hget & _)|[Hget _]]].
  2,3: by destruct (get_session_info_spec _ _ _ _ Hget Hwf) as (? & ? & _).
  destruct (get_session_info_spec _ _ _ _ Hget Hwf) as (Hwf1 & Hext1 & _ & _ & _ & Hs1).
  specialize (Hs1 _ eq_refl).
  cbv [bind update_session modify _save_session get ret] in H.
  inversion H; subst. split.
  - intros k s'. simpl. rewrite !lookup_insert.
    case_decide; [by intros [= <-]|]. apply Hwf1.
  - eapply extends_trans; [done|].
    intros sid. unfold creds_of. simpl. rewrite !lookup_insert.
    case_decide as Hk; [|apply creds_grow_refl].
    subst. unfold in_sync in Hs1. rewrite Hs1. apply creds_grow_refl.
Qed.

Lemma get_session_data_extends session_id key dflt w r w' :
  get_session_data session_id key dflt w = (r, w') → sessions_wf w →
  sessions_wf w' ∧ extends None w w'.
Proof.
  intros H Hwf. unfold get_session_data in H.
  apply bind_inv in H as [(s & w1 & Hget & H)|[(e & Hget & _)|[Hget _]]].
  2,3: by destruct (get_session_info_spec _ _ _ _ Hget Hwf) as (? & ? & _).
  destruct (get_session_info_spec _ _ _ _ Hget Hwf) as (Hwf1 & Hext1 & _ & _ & _ & Hs1).
  specialize (Hs1 _ eq_refl).
  cbv [bind update_session modify ret] in H.
  inversion H; subst. split.
  - intros k s'. simpl. rewrite !lookup_insert.
    case_decide; [by intros [= <-]|]. apply Hwf1.
  - eapply extends_trans; [done|].
    intros sid. unfold creds_of. simpl. rewrite !lookup_insert.
    case_decide as Hk; [|apply creds_grow_refl].
    subst. unfold in_sync in Hs1. rewrite Hs1. apply creds_grow_refl.
Qed.

(** Across any number of calls, a stage type that has a recorded result
    keeps one, and the cache stays well formed. *)
Lemma session_ops_grow hs w w' :
  rtc (session_op hs) w w' → sessions_wf w →
  sessions_wf w'
  ∧ ∀ sid stage, is_Some (creds_of w sid !! stage) →
                 is_Some (creds_of w' sid !! stage).
Proof.
  induction 1 as [w|w w1 w2 Hop _ IH]; intros Hwf; [done|].
  assert (∃ t, sessions_wf w1 ∧ extends t w w1) as (t & Hwf1 & Hext).
  { destruct Hop as [flows cd ip w r w1 H|st a ip w r w1 H
                     |sid key v w r w1 H|sid key d w r w1 H].
    - eexists. by eapply check_auth_extends.
    - eexists. by eapply add_oob_auth_extends.
    - eexists. by eapply set_session_data_extends.
    - eexists. by eapply get_session_data_extends. }
  destruct (IH Hwf1) as [Hwf2 Hgrow]. split; [done|].
  intros sid stage [v Hv]. apply Hgrow. by destruct (Hext sid stage v Hv).
Qed.

(** C2: whatever [check_auth] or [add_oob_auth] does, and whether it
    returns or raises, every stage type with a recorded result in a
    session still has one afterwards, and the results recorded for stage
    types other than the one presented are the same as before. *)
Theorem credentials_only_grow hs w :
  sessions_wf w →
  (∀ flows clientdict0 clientip r w',
      check_auth hs flows clientdict0 clientip w = (r, w') →
      ∀ sid stage v,
        creds_of w sid !! stage = Some v →
        is_Some (creds_of w' sid !! stage)
        ∧ (auth_block clientdict0 ≫= presented ≠ Some stage →
           creds_of w' sid !! stage = Some v))
  ∧ (∀ stagetype authdict clientip r w',
      add_oob_auth hs stagetype authdict clientip w = (r, w') →
      ∀ sid stage v,
        creds_of w sid !! stage = Some v →
        is_Some (creds_of w' sid !! stage)
        ∧ (stagetype ≠ stage → creds_of w' sid !! stage = Some v)).
Proof.
  intros Hwf. split.
  - intros flows cd0 ip r w' H sid stage v Hv.
    destruct (check_auth_extends _ _ _ _ _ _ _ H Hwf) as [_ Hext].
    apply (Hext sid stage v Hv).
  - intros st a ip r w' H sid stage v Hv.
    destruct (add_oob_auth_extends _ _ _ _ _ _ _ H Hwf) as [_ Hext].
    destruct (Hext sid stage v Hv) as [Hsome Hsame]. split; [done|].
    intros Hne. apply Hsame. congruence.
Qed.

Lemma example_w0_wf : sessions_wf Example.w0.
Proof. intros k s H. unfold Example.w0 in H. simpl in H. by rewrite lookup_empty in H. Qed.

Lemma example_w1_wf : sessions_wf Example.w1.
Proof.
  intros k s H. unfold Example.w1 in H. simpl in H.
  by apply lookup_singleton_Some in H as [<- <-].
Qed.

(** The session "S" of [Example.w1] has completed the dummy stage; a
    replay of that stage, and an out-of-band captcha result that fails,
    leave the recorded result in place. *)
Lemma credentials_only_grow_witness :
  is_Some (creds_of
             (check_auth Example.hs [[LoginType.DUMMY; LoginType.RECAPTCHA]]
                (Example.request
                   {[ "type" := VStr LoginType.DUMMY; "session" := VStr "S" ]})
                "10.0.0.1" Example.w1).2 "S" !! LoginType.DUMMY)
  ∧ creds_of
      (add_oob_auth Example.hs LoginType.RECAPTCHA
         {[ "session" := VStr "S"; "response" := VStr "r" ]}
         "10.0.0.1" Example.w1).2 "S" !! LoginType.DUMMY
    = Some (VBool true).
Proof.
  destruct (credentials_only_grow Example.hs Example.w1 example_w1_wf)
    as [Hca Hoob].
  split.
  - eapply (Hca _ _ _ _ _ (surjective_pairing _) "S" LoginType.DUMMY (VBool true)).
    vm_compute. reflexivity.
  - eapply (Hoob _ _ _ _ _ (surjective_pairing _) "S" LoginType.DUMMY (VBool true)).
    + vm_compute. reflexivity.
    + vm_compute. discriminate.
Defined.

(** ** Dispatch in [add_oob_auth] (C3) *)

(** C3: for a stage type without a registered checker, [add_oob_auth]
    raises a [LoginError] whose code is [MISSING_PARAM], where the same
    test in [check_auth] raises it with [UNRECOGNIZED]. *)
Theorem add_oob_auth_unregistered hs stagetype authdict clientip w :
  checkers hs !! stagetype = None →
  add_oob_auth hs stagetype authdict clientip w
  = (Raise (LoginError 400 "" Codes.MISSING_PARAM), w)
  ∧ ∀ session,
      check_stage hs session (<["type" := VStr stagetype]> authdict) clientip w
      = (Raise (LoginError 400 "" Codes.UNRECOGNIZED), w).
Proof.
  intros Hc. split.
  - unfold add_oob_auth. by rewrite Hc.
  - intros session. unfold check_stage. rewrite lookup_insert_eq. simpl.
    by rewrite Hc.
Qed.

Lemma add_oob_auth_unregistered_witness :
  add_oob_auth Example.hs "m.login.bogus" {[ "session" := VStr "S" ]}
    "10.0.0.1" Example.w1
  = (Raise (LoginError 400 "" Codes.MISSING_PARAM), Example.w1)
  ∧ ∀ session,
      check_stage Example.hs session
        (<["type" := VStr "m.login.bogus"]> {[ "session" := VStr "S" ]})
        "10.0.0.1" Example.w1
      = (Raise (LoginError 400 "" Codes.UNRECOGNIZED), Example.w1).
Proof.
  apply (add_oob_auth_unregistered Example.hs "m.login.bogus").
  vm_compute. reflexivity.
Defined.

(** ** Stage failures in [check_auth] (C4) *)

(** How [check_auth] goes once the session is found, for a request with
    a non-empty [auth] block. *)
Lemma check_auth_unfold hs flows cd a ip w s w1 :
  cd_auth cd = Some a → size a ≠ 0%nat →
  _get_session_info (dict_get a "session") w = (Ok s, w1) →
  ∃ s2 client_dict w2 s3 w3,
    stash_clientdict s (cd_rest cd) w1 = (Ok (s2, client_dict), w2)
    ∧ ensure_creds s2 w2 = (Ok s3, w3)
    ∧ check_auth hs flows (Some cd) ip w
      = bind (check_stage hs s3 a ip)
          (λ r, ret (flows_response hs flows r.1 r.2 client_dict)) w3.
Proof.
  intros Ha Hsz Hget.
  destruct (stash_clientdict_spec s (cd_rest cd) w1)
    as (s2 & c & w2 & Hstash & _).
  destruct (ensure_creds_spec s2 w2) as (s3 & w3 & Hens & _).
  exists s2, c, w2, s3, w3. split_and!; [done..|].
  unfold check_auth. simpl. rewrite Ha.
  rewrite (bind_Ok _ _ _ _ _ Hget), (bind_Ok _ _ _ _ _ Hstash).
  destruct (Nat.eqb_spec (size a) 0) as [|_]; [done|].
  rewrite (bind_Ok _ _ _ _ _ Hens).
  unfold bind. destruct (check_stage hs s3 a ip w3) as [[[s4 ed]| |] w4]; done.
Qed.

Lemma stash_clientdict_id s cd w s' c w' :
  stash_clientdict s cd w = (Ok (s', c), w') → id s' = id s.
Proof.
  unfold stash_clientdict. destruct (negb _).
  - cbv [bind update_session modify _save_session get ret].
    by intros [= <- _ _].
  - destruct (clientdict s); by intros [= <- _ _].
Qed.

Lemma ensure_creds_id s w s' w' :
  ensure_creds s w = (Ok s', w') → id s' = id s.
Proof.
  unfold ensure_creds. destruct (creds s).
  - by intros [= <- _].
  - cbv [bind update_session modify ret]. by intros [= <- _].
Qed.

(** The description of the flows depends on the session by its id
    only. *)
Lemma auth_dict_for_flows_id hs flows s s' :
  id s = id s' →
  _auth_dict_for_flows hs flows s = _auth_dict_for_flows hs flows s'.
Proof. unfold _auth_dict_for_flows. by intros ->. Qed.

Lemma check_auth_stage_failure_at hs flows cd a clientip w t (checker : Checker)
    code msg errcode s w1 :
  cd_auth cd = Some a →
  a !! "type" = Some (VStr t) →
  checkers hs !! t = Some checker →
  (∀ w0, (checker a clientip w0).1 = Raise (LoginError code msg errcode)) →
  _get_session_info (dict_get a "session") w = (Ok s, w1) →
  let recorded := default ∅ (creds s) in
  (t = LoginType.EMAIL_IDENTITY →
     (check_auth hs flows (Some cd) clientip w).1
     = Raise (LoginError code msg errcode))
  ∧ (t ≠ LoginType.EMAIL_IDENTITY →
     ∃ client_dict,
       (client_dict = cd_rest cd ∨ clientdict s = Some client_dict)
       ∧ (check_auth hs flows (Some cd) clientip w).1
         = Ok (if existsb (flow_complete recorded) flows
               then (true, recorded, client_dict, id s)
               else (false,
                     error_dict hs msg errcode
                     ∪ <["completed" := VList (VStr <$> keys recorded)]>
                         (_auth_dict_for_flows hs flows s),
                     client_dict, id s))).
Proof.
  intros Ha Ht Hc Hfail Hget recorded.
  assert (size a ≠ 0%nat) as Hsz.
  { intros Hz. apply map_size_empty_iff in Hz. subst a.
    by rewrite lookup_empty in Ht. }
  destruct (check_auth_unfold hs flows cd a clientip w s w1 Ha Hsz Hget)
    as (s2 & c & w2 & s3 & w3 & Hstash & Hens & ->).
  destruct (stash_clientdict_spec s (cd_rest cd) w1)
    as (s2' & c' & w2' & Hstash' & Hc2 & _ & Hcd & _).
  rewrite Hstash in Hstash'. injection Hstash' as <- <- <-.
  destruct (ensure_creds_spec s2 w2) as (s3' & w3' & Hens' & Hc3 & _).
  rewrite Hens in Hens'. injection Hens' as <- <-.
  assert (id s3 = id s) as Hid.
  { rewrite (ensure_creds_id _ _ _ _ Hens).
    by rewrite (stash_clientdict_id _ _ _ _ _ _ Hstash). }
  assert (default ∅ (creds s3) = recorded) as Hrec.
  { by rewrite Hc3, Hc2. }
  destruct (check_stage_registered hs s3 a clientip t checker w3 Ht Hc)
    as (r & w4 & Hst & Hout & _).
  rewrite (Hfail w3) in Hout. simpl in Hout.
  split.
  - intros ->. simpl in Hout. subst r.
    by rewrite (bind_Raise _ _ _ _ _ Hst).
  - intros Hne.
    destruct (String.eqb_spec t LoginType.EMAIL_IDENTITY) as [|_]; [done|].
    subst r. rewrite (bind_Ok _ _ _ _ _ Hst). simpl.
    exists c. split; [destruct Hcd as [|[_ ?]]; auto|].
    unfold flows_response. rewrite Hrec, Hid.
    by rewrite (auth_dict_for_flows_id hs flows s3 s Hid).
Qed.

(** C4, as stated, fails when the session has satisfied a flow already:
    session "S" has completed the dummy stage, the only flow is the dummy
    stage, and the request presents the captcha stage without a
    response.  The checker fails with a [LoginError], and [check_auth]
    answers with the completion; the error is in no response. *)
Lemma check_auth_stage_failure_counterexample :
  let a : gmap string Value :=
    {[ "type" := VStr LoginType.RECAPTCHA; "session" := VStr "S" ]} in
  (∀ w0, (_check_recaptcha Example.hs a "10.0.0.1" w0).1
         = Raise (LoginError 400 "Captcha response is required"
                    Codes.CAPTCHA_NEEDED))
  ∧ (check_auth Example.hs [[LoginType.DUMMY]] (Example.request a) "10.0.0.1"
       Example.w1).1
    = Ok (true, {[ LoginType.DUMMY := VBool true ]}, ∅, "S")
  ∧ ¬ error_merged_into_response Example.hs [[LoginType.DUMMY]]
        (Example.request a) "10.0.0.1" Example.w1
        "Captcha response is required" Codes.CAPTCHA_NEEDED.
Proof.
  intros a.
  assert ((check_auth Example.hs [[LoginType.DUMMY]] (Example.request a)
             "10.0.0.1" Example.w1).1
          = Ok (true, {[ LoginType.DUMMY := VBool true ]}, ∅, "S")) as Hrun
    by (vm_compute; reflexivity).
  split_and!.
  - intros w0. vm_compute. reflexivity.
  - exact Hrun.
  - intros (body & cd & sid & Hinc & _). rewrite Hrun in Hinc. discriminate.
Qed.

(** C4 (amended): let the presented stage type have a checker that
    fails with a [LoginError], and let the session of the request be
    found or created.
    For the email-possession type, [check_auth] raises that very error,
    and so does the same request made again in the state the first
    attempt left.  For any other type [check_auth] returns: if a flow is
    satisfied by what the session has recorded already, the answer is the
    completion with those credentials; otherwise it is incomplete, and
    its body is the description of the flows with the stage types
    completed so far, overlaid with the fields of the error's
    dictionary. *)
Theorem check_auth_stage_failure hs flows cd a clientip t (checker : Checker)
    code msg errcode w s w1 :
  cd_auth cd = Some a →
  a !! "type" = Some (VStr t) →
  checkers hs !! t = Some checker →
  (∀ w0, (checker a clientip w0).1 = Raise (LoginError code msg errcode)) →
  _get_session_info (dict_get a "session") w = (Ok s, w1) →
  let first := check_auth hs flows (Some cd) clientip w in
  let recorded := default ∅ (creds s) in
  (t = LoginType.EMAIL_IDENTITY →
     first.1 = Raise (LoginError code msg errcode)
     ∧ ∀ s' w1',
         _get_session_info (dict_get a "session") first.2 = (Ok s', w1') →
         (check_auth hs flows (Some cd) clientip first.2).1
         = Raise (LoginError code msg errcode))
  ∧ (t ≠ LoginType.EMAIL_IDENTITY →
     ∃ client_dict,
       (client_dict = cd_rest cd ∨ clientdict s = Some client_dict)
       ∧ (some_flow_satisfied flows recorded →
          first.1 = Ok (true, recorded, client_dict, id s))
       ∧ (¬ some_flow_satisfied flows recorded →
          ∃ body,
            first.1 = Ok (false, body, client_dict, id s)
            ∧ body
              = error_dict hs msg errcode
                ∪ <["completed" := VList (VStr <$> keys recorded)]>
                    (_auth_dict_for_flows hs flows s)
            ∧ error_dict hs msg errcode ⊆ body)).
Proof.
  intros Ha Ht Hc Hfail Hget first recorded.
  destruct (check_auth_stage_failure_at hs flows cd a clientip w t checker
              code msg errcode s w1 Ha Ht Hc Hfail Hget) as [Hemail Hother].
  split.
  - intros He. split; [by apply Hemail|].
    intros s' w1' Hget'.
    by apply (check_auth_stage_failure_at hs flows cd a clientip first.2 t
                checker code msg errcode s' w1' Ha Ht Hc Hfail Hget').
  - intros Hne. destruct (Hother Hne) as (c & Hcd & Hrun).
    exists c. split; [done|]. fold first recorded in Hrun. split.
    + intros Hsat%some_flow_complete_iff. by rewrite Hrun, Hsat.
    + intros Hnot.
      destruct (existsb (flow_complete recorded) flows) eqn:Hex.
      { by apply some_flow_complete_iff in Hex. }
      eexists. split; [exact Hrun|]. split; [done|].
      apply map_union_subseteq_l.
Qed.

(** In session "S", which has completed the dummy stage: the email stage
    presented without [threepid_creds] fails twice in a row with the
    error of the checker; the captcha stage presented without a response
    is answered with an incomplete response that carries the error. *)
Lemma check_auth_stage_failure_witness :
  let request t :=
    {| cd_auth := Some {[ "type" := VStr t; "session" := VStr "S" ]};
       cd_rest := ∅ |} in
  let first :=
    check_auth Example.hs [[LoginType.EMAIL_IDENTITY]]
      (Some (request LoginType.EMAIL_IDENTITY)) "10.0.0.1" Example.w1 in
  (first.1 = Raise (LoginError 400 "Missing threepid_creds" Codes.MISSING_PARAM)
   ∧ (check_auth Example.hs [[LoginType.EMAIL_IDENTITY]]
        (Some (request LoginType.EMAIL_IDENTITY)) "10.0.0.1" first.2).1
     = Raise (LoginError 400 "Missing threepid_creds" Codes.MISSING_PARAM))
  ∧ ∃ client_dict body,
      (check_auth Example.hs [[LoginType.RECAPTCHA]]
         (Some (request LoginType.RECAPTCHA)) "10.0.0.1" Example.w1).1
      = Ok (false, body, client_dict, "S")
      ∧ error_dict Example.hs "Captcha response is required"
          Codes.CAPTCHA_NEEDED ⊆ body.
Proof.
  intros request first. split.
  - destruct (check_auth_stage_failure Example.hs [[LoginType.EMAIL_IDENTITY]]
                (request LoginType.EMAIL_IDENTITY)
                {[ "type" := VStr LoginType.EMAIL_IDENTITY;
                   "session" := VStr "S" ]}
                "10.0.0.1" LoginType.EMAIL_IDENTITY
                (_check_email_identity Example.hs)
                400 "Missing threepid_creds" Codes.MISSING_PARAM
                Example.w1 Example.done_session Example.w1) as [Hemail _].
    + reflexivity.
    + vm_compute. reflexivity.
    + vm_compute. reflexivity.
    + intros w0. vm_compute. reflexivity.
    + vm_compute. reflexivity.
    + destruct (Hemail eq_refl) as [H1 H2]. split; [exact H1|].
      apply (H2 Example.done_session first.2). vm_compute. reflexivity.
  - destruct (check_auth_stage_failure Example.hs [[LoginType.RECAPTCHA]]
                (request LoginType.RECAPTCHA)
                {[ "type" := VStr LoginType.RECAPTCHA; "session" := VStr "S" ]}
                "10.0.0.1" LoginType.RECAPTCHA (_check_recaptcha Example.hs)
                400 "Captcha response is required" Codes.CAPTCHA_NEEDED
                Example.w1 Example.done_session Example.w1) as [_ Hother].
    + reflexivity.
    + vm_compute. reflexivity.
    + vm_compute. reflexivity.
    + intros w0. vm_compute. reflexivity.
    + vm_compute. reflexivity.
    + destruct Hother as (c & _ & _ & Hinc); [discriminate|].
      destruct Hinc as (body & Hrun & _ & Hsub).
      { intros Hsat%some_flow_complete_iff. vm_compute in Hsat. discriminate. }
      exists c, body. split; [exact Hrun|exact Hsub].
Defined.

(** ** The dummy stage (C9) *)

Lemma checkers_dummy hs : checkers hs !! LoginType.DUMMY = Some _check_dummy_auth.
Proof. reflexivity. Qed.

(** [check_auth_unfold] with what is known of the session when the
    dispatch starts. *)
Lemma check_auth_forward hs flows cd a ip w s w1 :
  sessions_wf w → cd_auth cd = Some a → size a ≠ 0%nat →
  _get_session_info (dict_get a "session") w = (Ok s, w1) →
  ∃ client_dict s3 w3,
    check_auth hs flows (Some cd) ip w
    = bind (check_stage hs s3 a ip)
        (λ r, ret (flows_response hs flows r.1 r.2 client_dict)) w3
    ∧ id s3 = id s ∧ creds s3 = Some (default ∅ (creds s))
    ∧ in_sync s3 w3 ∧ sessions_wf w3
    ∧ (client_dict = cd_rest cd ∨ clientdict s = Some client_dict).
Proof.
  intros Hwf Ha Hsz Hget.
  destruct (get_session_info_spec _ _ _ _ Hget Hwf) as (Hwf1 & _ & _ & _ & _ & Hs1).
  specialize (Hs1 _ eq_refl).
  destruct (check_auth_unfold hs flows cd a ip w s w1 Ha Hsz Hget)
    as (s2 & c & w2 & s3 & w3 & Hstash & Hens & ->).
  destruct (stash_clientdict_spec s (cd_rest cd) w1)
    as (s2' & c' & w2' & Hstash' & Hc2 & _ & Hcd & Hstep2).
  rewrite Hstash in Hstash'. injection Hstash' as <- <- <-.
  destruct (Hstep2 Hwf1 Hs1) as (Hid2 & Hs2 & Hwf2 & _).
  destruct (ensure_creds_spec s2 w2) as (s3' & w3' & Hens' & Hc3 & _ & Hstep3).
  rewrite Hens in Hens'. injection Hens' as <- <-.
  destruct (Hstep3 Hwf2 Hs2) as (Hid3 & Hs3 & Hwf3 & _).
  exists c, s3, w3. split_and!; try done.
  - congruence.
  - by rewrite Hc3, Hc2.
  - destruct Hcd as [|[_ ?]]; auto.
Qed.

(** [check_auth] on a request that presents the dummy stage: the stage is
    recorded, and the answer is [flows_response] on the session with the
    new entry. *)
Lemma check_auth_dummy hs flows cd a ip w s w1 :
  sessions_wf w →
  cd_auth cd = Some a →
  a !! "type" = Some (VStr LoginType.DUMMY) →
  _get_session_info (dict_get a "session") w = (Ok s, w1) →
  ∃ s' client_dict w',
    check_auth hs flows (Some cd) ip w
    = (Ok (flows_response hs flows s' ∅ client_dict), w')
    ∧ id s' = id s
    ∧ creds s'
      = Some (<[LoginType.DUMMY := VBool true]> (default ∅ (creds s)))
    ∧ in_sync s' w' ∧ sessions_wf w'
    ∧ (client_dict = cd_rest cd ∨ clientdict s = Some client_dict).
Proof.
  intros Hwf Ha Ht Hget.
  assert (size a ≠ 0%nat) as Hsz.
  { intros Hz. apply map_size_empty_iff in Hz. subst a.
    by rewrite lookup_empty in Ht. }
  destruct (check_auth_forward hs flows cd a ip w s w1 Hwf Ha Hsz Hget)
    as (c & s3 & w3 & -> & Hid3 & Hc3 & Hs3 & Hwf3 & Hcd).
  destruct (check_stage_registered hs s3 a ip LoginType.DUMMY _check_dummy_auth
              w3 Ht (checkers_dummy hs))
    as (r & w4 & Hst & Hout & _ & Hpost).
  simpl in Hout. destruct Hout as (s' & -> & Hc').
  destruct (Hpost Hwf3 Hs3) as (Hwf4 & _ & Hr).
  destruct (Hr _ _ eq_refl) as [Hid' Hs'].
  exists s', c, w4. rewrite (bind_Ok _ _ _ _ _ Hst).
  split_and!; try done; [congruence|]. by rewrite Hc', Hc3.
Qed.

Lemma keys_singleton {A} k (v : A) : keys ({[ k := v ]} : gmap string A) = [k].
Proof. unfold keys. by rewrite map_to_list_singleton. Qed.

(** What the first call answers, whatever the flows: the new session
    has the dummy stage recorded. *)
Lemma check_auth_dummy_first hs flows clientip w sid rest :
  sessions_wf w →
  fresh_session_id (entropy w) (sessions w) = Some (sid, rest) →
  ∃ s1 w1,
    check_auth hs flows (dummy_request None) clientip w
    = (Ok (flows_response hs flows s1 ∅ ∅), w1)
    ∧ id s1 = sid ∧ creds s1 = Some {[ LoginType.DUMMY := VBool true ]}
    ∧ in_sync s1 w1 ∧ sessions_wf w1.
Proof.
  intros Hwf Hfresh.
  assert (_get_session_info
            (dict_get {[ "type" := VStr LoginType.DUMMY ]} "session") w
          = (Ok (new_session sid),
             with_sessions (insert sid (new_session sid)) (with_entropy rest w)))
    as Hget.
  { replace (dict_get _ "session") with VNone by (vm_compute; reflexivity).
    by apply get_session_info_new. }
  destruct (check_auth_dummy hs flows
              {| cd_auth := Some {[ "type" := VStr LoginType.DUMMY ]};
                 cd_rest := ∅ |}
              {[ "type" := VStr LoginType.DUMMY ]} clientip w (new_session sid)
              (with_sessions (insert sid (new_session sid)) (with_entropy rest w))
              Hwf eq_refl)
    as (s1 & c1 & w1 & Hrun & Hid & Hcreds & Hs1 & Hwf1 & Hc1);
    [by simplify_map_eq|exact Hget|].
  simpl in Hid, Hcreds, Hc1. destruct Hc1 as [->|?]; [|done].
  rewrite insert_empty in Hcreds.
  by exists s1, w1.
Qed.

(** The incomplete response for a session in which only the dummy stage
    is recorded. *)
Lemma flows_response_dummy hs flows s1 body client_dict sid :
  creds s1 = Some {[ LoginType.DUMMY := VBool true ]} →
  flows_response hs flows s1 ∅ ∅ = (false, body, client_dict, sid) →
  body !! "session" = Some (VStr (id s1))
  ∧ body !! "flows"
    = Some (VList ((λ f, VDict {[ "stages" := VList (VStr <$> f) ]}) <$> flows))
  ∧ body !! "completed" = Some (VList [VStr LoginType.DUMMY]).
Proof.
  intros Hcreds. unfold flows_response. rewrite Hcreds. simpl.
  destruct (existsb _ flows); [done|]. intros [= <- _ _].
  rewrite (left_id_L ∅ (∪)). unfold _auth_dict_for_flows.
  split_and!.
  - by simplify_map_eq.
  - by simplify_map_eq.
  - rewrite lookup_insert_eq. by rewrite keys_singleton.
Qed.

(** C9, as stated, fails: against the single dummy flow the first call
    already completes, since the dummy checker succeeds at once; and
    whatever the flows, an incomplete response to a request that presents
    the dummy stage has a ['completed'] entry. *)
Lemma dummy_scenario_counterexample :
  check_auth Example.hs [[LoginType.DUMMY]] (dummy_request None)
    "10.0.0.1" Example.w0
  = (Ok (true, {[ LoginType.DUMMY := VBool true ]}, ∅, "AAAA"),
     {| sessions :=
          {[ "AAAA" := {| id := "AAAA"; clientdict := None;
                          creds := Some {[ LoginType.DUMMY := VBool true ]};
                          serverdict := None; last_used := Some 1000 |} ]};
        entropy := ["BBBB"]; time_msec := 1000; trace := [] |})
  ∧ ∀ flows, ¬ dummy_scenario Example.hs flows "10.0.0.1" Example.w0.
Proof.
  split; [vm_compute; reflexivity|].
  intros flows (body & cd & sid & w1 & H & _ & _ & _ & Hnone & _).
  destruct (check_auth_dummy_first Example.hs flows "10.0.0.1" Example.w0
              "AAAA" ["BBBB"] example_w0_wf)
    as (s1 & w1' & Hrun & _ & Hcreds & _); [vm_compute; reflexivity|].
  rewrite Hrun in H. injection H as H _.
  destruct (flows_response_dummy _ _ _ _ _ _ Hcreds H) as (_ & _ & Hcompleted).
  congruence.
Qed.

(** C9 (amended): the first call, which presents the dummy stage without
    a session, gets a new session in which the stage is recorded.  If some
    offered flow consists of the dummy stage alone, the call completes with
    the credentials [{"m.login.dummy": true}]; otherwise the response is
    incomplete and carries the new session id, the flows and
    ['completed'] = ["m.login.dummy"].  Resubmitting with that session id
    against the single dummy flow completes with the same credentials. *)
Theorem dummy_scenario_amended hs flows clientip w sid rest :
  sessions_wf w →
  fresh_session_id (entropy w) (sessions w) = Some (sid, rest) →
  sid ≠ "" →
  ∃ res w1,
    check_auth hs flows (dummy_request None) clientip w = (Ok res, w1)
    ∧ sessions w !! sid = None
    ∧ (some_flow_satisfied flows {[ LoginType.DUMMY := VBool true ]} →
       res = (true, {[ LoginType.DUMMY := VBool true ]}, ∅, sid))
    ∧ (¬ some_flow_satisfied flows {[ LoginType.DUMMY := VBool true ]} →
       ∃ body,
         res = (false, body, ∅, sid)
         ∧ body !! "session" = Some (VStr sid)
         ∧ body !! "flows"
           = Some (VList ((λ f, VDict {[ "stages" := VList (VStr <$> f) ]})
                            <$> flows))
         ∧ body !! "completed" = Some (VList [VStr LoginType.DUMMY]))
    ∧ ∃ client_dict w2,
        check_auth hs [[LoginType.DUMMY]] (dummy_request (Some sid)) clientip w1
        = (Ok (true, {[ LoginType.DUMMY := VBool true ]}, client_dict, sid), w2).
Proof.
  intros Hwf Hfresh Hne.
  destruct (check_auth_dummy_first hs flows clientip w sid rest Hwf Hfresh)
    as (s1 & w1 & Hrun & Hid & Hcreds & Hs1 & Hwf1).
  exists (flows_response hs flows s1 ∅ ∅), w1. split; [exact Hrun|].
  split; [by apply fresh_session_id_spec in Hfresh as [? _]|].
  split_and!.
  - intros Hsat%some_flow_complete_iff.
    unfold flows_response. rewrite Hcreds, Hid. simpl. by rewrite Hsat.
  - intros Hnsat.
    destruct (flows_response hs flows s1 ∅ ∅) as [[[authed body] cd] sid']
      eqn:Hresp.
    assert (authed = false ∧ cd = ∅ ∧ sid' = sid) as (-> & -> & ->).
    { unfold flows_response in Hresp. rewrite Hcreds, Hid in Hresp.
      simpl in Hresp.
      destruct (existsb _ flows) eqn:Hex;
        [by apply some_flow_complete_iff in Hex|].
      by injection Hresp as <- _ <- <-. }
    exists body. split; [done|].
    rewrite <- Hid at 1. by eapply flows_response_dummy.
  - assert (_get_session_info
              (dict_get {[ "type" := VStr LoginType.DUMMY; "session" := VStr sid ]}
                 "session") w1 = (Ok s1, w1)) as Hget2.
    { replace (dict_get _ "session") with (VStr sid)
        by (unfold dict_get; by simplify_map_eq).
      apply get_session_info_live; [|done].
      unfold in_sync in Hs1. by rewrite Hid in Hs1. }
    destruct (check_auth_dummy hs [[LoginType.DUMMY]]
              {| cd_auth := Some {[ "type" := VStr LoginType.DUMMY;
                                    "session" := VStr sid ]};
                 cd_rest := ∅ |}
              {[ "type" := VStr LoginType.DUMMY; "session" := VStr sid ]}
              clientip w1 s1 w1 Hwf1 eq_refl)
      as (s2 & c2 & w2 & Hrun2 & Hid2 & Hcreds2 & _); [by simplify_map_eq|done|].
    exists c2, w2. unfold dummy_request. rewrite Hrun2.
    unfold flows_response. rewrite Hcreds2, Hcreds, Hid2, Hid. simpl.
    rewrite insert_singleton_eq. reflexivity.
Qed.

Lemma dummy_scenario_amended_witness :
  ∃ res w1,
    check_auth Example.hs [[LoginType.DUMMY]] (dummy_request None) "10.0.0.1"
      Example.w0 = (Ok res, w1)
    ∧ res = (true, {[ LoginType.DUMMY := VBool true ]}, ∅, "AAAA")
    ∧ ∃ client_dict w2,
        check_auth Example.hs [[LoginType.DUMMY]] (dummy_request (Some "AAAA"))
          "10.0.0.1" w1
        = (Ok (true, {[ LoginType.DUMMY := VBool true ]}, client_dict, "AAAA"), w2).
Proof.
  destruct (dummy_scenario_amended Example.hs [[LoginType.DUMMY]] "10.0.0.1"
              Example.w0 "AAAA" ["BBBB"])
    as (res & w1 & Hrun & _ & Hsat & _ & Hsecond).
  - apply example_w0_wf.
  - vm_compute. reflexivity.
  - discriminate.
  - exists res, w1. split; [exact Hrun|]. split; [|exact Hsecond].
    apply Hsat. exists [LoginType.DUMMY]. split; [apply list_elem_of_here|].
    intros stage ->%list_elem_of_singleton. rewrite lookup_singleton_eq. eauto.
Defined.

(** ** Identity resolution (C5) *)

(** C5: [_find_user_id_and_pwd_hash] always returns; with [user_infos]
    what the case-insensitive lookup of the store yields, it returns the
    single entry when there is exactly one (whatever its case), the entry
    of the queried id when there are several and it is among them, and
    nothing when there is none or there are several without the queried
    id. *)
Theorem find_user_id_and_pwd_hash_spec hs user_id w :
  let user_infos := get_users_by_id_case_insensitive hs user_id in
  ∃ result,
    _find_user_id_and_pwd_hash hs user_id w
    = (Ok result, with_call (CallStore user_id) w)
    ∧ (∀ canonical_id password_hash,
         user_infos = {[ canonical_id := password_hash ]} →
         result = Some (canonical_id, password_hash))
    ∧ (∀ password_hash,
         (1 < size user_infos)%nat →
         user_infos !! user_id = Some password_hash →
         result = Some (user_id, password_hash))
    ∧ (user_infos = ∅ → result = None)
    ∧ ((1 < size user_infos)%nat → user_infos !! user_id = None →
       result = None).
Proof.
  intros user_infos. eexists. split; [reflexivity|].
  fold user_infos. split_and!.
  - intros k h ->. rewrite map_size_singleton. simpl.
    unfold popitem. by rewrite map_to_list_singleton.
  - intros h Hsz Hl.
    destruct (Nat.eqb_spec (size user_infos) 0); [lia|].
    destruct (Nat.eqb_spec (size user_infos) 1); [lia|]. by rewrite Hl.
  - intros ->. by rewrite map_size_empty.
  - intros Hsz Hl.
    destruct (Nat.eqb_spec (size user_infos) 0); [lia|].
    destruct (Nat.eqb_spec (size user_infos) 1); [lia|]. by rewrite Hl.
Qed.

Lemma find_user_id_and_pwd_hash_spec_witness :
  (_find_user_id_and_pwd_hash
     (hs_with_users {[ "@Alice:example.org" := Some "h1" ]})
     "@alice:example.org" Example.w0).1
  = Ok (Some ("@Alice:example.org", Some "h1"))
  ∧ (_find_user_id_and_pwd_hash
       (hs_with_users {[ "@Alice:example.org" := Some "h1";
                         "@ALICE:example.org" := Some "h2" ]})
       "@alice:example.org" Example.w0).1
    = Ok None.
Proof.
  split.
  - destruct (find_user_id_and_pwd_hash_spec
                (hs_with_users {[ "@Alice:example.org" := Some "h1" ]})
                "@alice:example.org" Example.w0) as (r & -> & H1 & _).
    simpl. f_equal. by apply H1.
  - destruct (find_user_id_and_pwd_hash_spec
                (hs_with_users {[ "@Alice:example.org" := Some "h1";
                                  "@ALICE:example.org" := Some "h2" ]})
                "@alice:example.org" Example.w0) as (r & -> & _ & _ & _ & H4).
    simpl. f_equal. apply H4; vm_compute; [lia|reflexivity].
Defined.

(** ** Hashing and verifying passwords (C6) *)

Lemma bcrypt72_contract : bcrypt_contract hs_bcrypt72.
Proof.
  split.
  - intros pw pw' random. simpl. unfold hashpw72, Example.hashpw.
    destruct random as [|a [|b [|c [|d r]]]]; reflexivity.
  - intros pw salt. simpl. unfold hashpw72, Example.hashpw.
    destruct salt as [|a [|b [|c [|d r]]]]; discriminate.
Qed.

(** C6, as stated, fails with a bcrypt that reads only the first 72 bytes
    of its input, as the library does: two passwords of 73 bytes that
    differ in the last byte have the same hash, and each verifies
    against the hash of the other. *)
Lemma hash_validate_roundtrip_counterexample :
  bcrypt_contract hs_bcrypt72
  ∧ long_password "x" ≠ long_password "y"
  ∧ validate_hash hs_bcrypt72 (VStr (long_password "x"))
      (Some (hash hs_bcrypt72 "r4nd0m" (long_password "y"))) Example.w0
    = (Ok true, Example.w0)
  ∧ ¬ roundtrip_as_stated hs_bcrypt72.
Proof.
  assert (long_password "x" ≠ long_password "y") as Hne
    by (vm_compute; discriminate).
  assert (validate_hash hs_bcrypt72 (VStr (long_password "x"))
            (Some (hash hs_bcrypt72 "r4nd0m" (long_password "y"))) Example.w0
          = (Ok true, Example.w0)) as Hrun by (vm_compute; reflexivity).
  split_and!; [exact bcrypt72_contract | done | done |].
  intros (_ & Hother & _).
  specialize (Hother "r4nd0m" _ _ Example.w0 Hne).
  rewrite Hrun in Hother. discriminate.
Qed.

(** C6 (amended): under the contract of bcrypt, a password verifies
    against its own hash, whatever salt was drawn; against the hash of a
    password [q] it verifies exactly when bcrypt gives the two passwords,
    each followed by the pepper, the same hash under the salt drawn, so
    that the answer is [False] for every password bcrypt tells apart from
    [q]; and verification against an absent hash answers [False].
    Verification of a string never raises. *)
Theorem hash_validate_roundtrip hs :
  bcrypt_contract hs →
  (∀ random p w,
      validate_hash hs (VStr p) (Some (hash hs random p)) w = (Ok true, w))
  ∧ (∀ random p q w,
      let salt := bcrypt_gensalt hs (bcrypt_rounds hs) random in
      validate_hash hs (VStr p) (Some (hash hs random q)) w
      = (Ok (bool_decide
               (bcrypt_hashpw hs (encode_utf8 p ++ password_pepper hs) salt
                = bcrypt_hashpw hs (encode_utf8 q ++ password_pepper hs) salt)),
         w))
  ∧ (∀ password w, validate_hash hs password None w = (Ok false, w)).
Proof.
  intros (Hsalt & Hne).
  assert (∀ random p q w,
            validate_hash hs (VStr p) (Some (hash hs random q)) w
            = (Ok (bool_decide
                     (bcrypt_hashpw hs (encode_utf8 p ++ password_pepper hs)
                        (bcrypt_gensalt hs (bcrypt_rounds hs) random)
                      = bcrypt_hashpw hs (encode_utf8 q ++ password_pepper hs)
                          (bcrypt_gensalt hs (bcrypt_rounds hs) random))),
               w)) as Hverify.
  { intros random p q w. unfold validate_hash, hash, encode_utf8.
    destruct (String.eqb_spec (bcrypt_hashpw hs (q ++ password_pepper hs)
                (bcrypt_gensalt hs (bcrypt_rounds hs) random)) "") as [He|_];
      [by apply Hne in He|].
    simpl. rewrite Hsalt. unfold ret. do 2 f_equal.
    destruct (String.eqb_spec
                (bcrypt_hashpw hs (p ++ password_pepper hs)
                   (bcrypt_gensalt hs (bcrypt_rounds hs) random))
                (bcrypt_hashpw hs (q ++ password_pepper hs)
                   (bcrypt_gensalt hs (bcrypt_rounds hs) random))) as [Heq|Hneq].
    - by rewrite bool_decide_eq_true_2.
    - by rewrite bool_decide_eq_false_2. }
  split_and!.
  - intros random p w. rewrite Hverify. by rewrite bool_decide_eq_true_2.
  - intros random p q w. apply Hverify.
  - done.
Qed.

Lemma example_bcrypt_contract : bcrypt_contract Example.hs.
Proof.
  split.
  - intros pw pw' random. simpl.
    destruct random as [|a [|b [|c [|d r]]]]; reflexivity.
  - intros pw salt. simpl. unfold Example.hashpw.
    destruct salt as [|a [|b [|c [|d r]]]]; discriminate.
Qed.

(** On the example server a password verifies against its own hash and
    not against the hash of another; with a bcrypt that reads 72 bytes,
    the long password that ends in "x" verifies against the hash of the
    one that ends in "y". *)
Lemma hash_validate_roundtrip_witness :
  validate_hash Example.hs (VStr "correct horse")
    (Some (hash Example.hs "r4nd0m" "correct horse")) Example.w0
  = (Ok true, Example.w0)
  ∧ validate_hash Example.hs (VStr "battery staple")
      (Some (hash Example.hs "r4nd0m" "correct horse")) Example.w0
    = (Ok false, Example.w0)
  ∧ validate_hash Example.hs (VStr "correct horse") None Example.w0
    = (Ok false, Example.w0)
  ∧ validate_hash hs_bcrypt72 (VStr (long_password "x"))
      (Some (hash hs_bcrypt72 "r4nd0m" (long_password "y"))) Example.w0
    = (Ok true, Example.w0).
Proof.
  destruct (hash_validate_roundtrip Example.hs example_bcrypt_contract)
    as (Hsame & Hother & Habsent).
  destruct (hash_validate_roundtrip hs_bcrypt72 bcrypt72_contract)
    as (_ & Hother72 & _).
  split_and!.
  - apply Hsame.
  - rewrite Hother. vm_compute. reflexivity.
  - apply Habsent.
  - rewrite Hother72. vm_compute. reflexivity.
Defined.

(** ** The failures of [validate_login] (C7, C10) *)

Lemma provider_check_password_spec i p q lt pw known w r w' :
  provider_check_password i p q lt pw known w = (r, w') →
  ∃ res known', r = Ok (res, known') ∧ (known = true → known' = true)
                ∧ (known' = true → known = true ∨ is_str lt LoginType.PASSWORD = true).
Proof.
  unfold provider_check_password.
  destruct (Provider.check_password p) as [cp|];
    [destruct (is_str lt LoginType.PASSWORD) eqn:Hlt;
     [cbv [bind call modify ret]; destruct (cp q pw)|]|];
    intros [= <- <-]; eexists _, _; split; try reflexivity; auto.
Qed.

Lemma provider_check_auth_spec i p u lt sub known w r w' :
  provider_check_auth i p u lt sub known w = (r, w') →
  match r with
  | Ok (Some _, _) => True
  | Ok (None, known') =>
      (known = true → known' = true)
      ∧ (known' = false → ¬ provider_recognizes p lt)
  | Raise e => missing_parameters e ∨ (e = TypeError ∧ hashable lt = false)
  | Diverge => False
  end.
Proof.
  unfold provider_check_auth.
  destruct (Provider.get_supported_login_types p) as [types|] eqn:Ht.
  2:{ intros [= <- <-]. split; [done|]. intros _ (? & ? & ? & ? & _). congruence. }
  destruct (Provider.check_auth p) as [chk|] eqn:Hc.
  2:{ intros [= <- <-]. split; [done|]. intros _ (? & ? & ? & _ & ? & _). congruence. }
  cbv [bind call modify]. destruct (hashable lt) eqn:Hh; simpl.
  2:{ intros [= <- <-]. by right. }
  destruct (match lt with VStr t => types !! t | _ => None end) as [fields|] eqn:Hl.
  2:{ intros [= <- <-]. split; [done|]. intros _ (ty & ck & t & Hty & _ & -> & Hsome).
      rewrite Ht in Hty. injection Hty as <-. rewrite Hl in Hsome.
      by destruct Hsome. }
  destruct (collect_fields fields sub [] ∅) as [missing login_dict].
  destruct missing as [|m missing].
  2:{ intros [= <- <-]. left. by eexists. }
  destruct (chk u lt login_dict) as [|result|uid cb].
  - intros [= <- <-]. done.
  - destruct (String.eqb result ""); intros [= <- <-]; done.
  - intros [= <- <-]. done.
Qed.

Lemma providers_loop_spec providers : ∀ i u q lt pw sub known w r w',
  providers_loop i providers u q lt pw sub known w = (r, w') →
  match r with
  | Ok (Some _, _) => True
  | Ok (None, known') =>
      (known = true → known' = true)
      ∧ (known' = false → ∀ p, p ∈ providers → ¬ provider_recognizes p lt)
  | Raise e => missing_parameters e ∨ (e = TypeError ∧ hashable lt = false)
  | Diverge => False
  end.
Proof.
  induction providers as [|p rest IH]; intros i u q lt pw sub known w r w' H.
  - simpl in H. injection H as <- <-. split; [done|].
    intros _ p Hp. by apply not_elem_of_nil in Hp.
  - simpl in H.
    apply bind_inv in H as [([res1 k1] & w1 & H1 & H)|[(e & H1 & _)|[H1 _]]].
    2,3: by apply provider_check_password_spec in H1 as (? & ? & ? & _).
    apply provider_check_password_spec in H1 as (? & ? & [= <- <-] & Hk1 & _).
    destruct res1 as [res1|]; [by injection H as <- <-|].
    apply bind_inv in H as [([res2 k2] & w2 & H2 & H)|[(e & H2 & ->)|[H2 ->]]].
    2,3: by apply provider_check_auth_spec in H2.
    apply provider_check_auth_spec in H2.
    destruct res2 as [res2|]; [by injection H as <- <-|].
    destruct H2 as [Hk2 Hn2].
    apply IH in H. destruct r as [[[res|] k3]|e|]; try done.
    destruct H as [Hk3 Hn3]. split; [auto|].
    intros -> p' Hp'. apply elem_of_cons in Hp' as [->|Hp'].
    + apply Hn2. destruct k2; [|done]. by specialize (Hk3 eq_refl).
    + by apply Hn3.
Qed.

Lemma check_local_password_spec hs user_id password w r w' :
  _check_local_password hs user_id password w = (r, w') →
  match r with
  | Ok _ => True
  | Raise e =>
      e = AttributeError ∧ get_users_by_id_case_insensitive hs user_id ≠ ∅
  | Diverge => False
  end.
Proof.
  unfold _check_local_password, _find_user_id_and_pwd_hash.
  cbv [bind call modify ret].
  destruct (Nat.eqb_spec (size (get_users_by_id_case_insensitive hs user_id)) 0)
    as [Hz|Hnz].
  { by intros [= <- <-]. }
  assert (get_users_by_id_case_insensitive hs user_id ≠ ∅) as Hne.
  { intros He. rewrite He in Hnz. by rewrite map_size_empty in Hnz. }
  destruct (if Nat.eqb _ 1 then _ else _) as [[uid ph]|]; [|by intros [= <- <-]].
  unfold validate_hash.
  destruct ph as [stored|]; [|by intros [= <- <-]].
  destruct (negb (String.eqb stored "")); [|by intros [= <- <-]].
  destruct password; try by intros [= <- <-].
  unfold ret. destruct (negb _); by intros [= <- <-].
Qed.

(** Every way [validate_login] can end. *)
Lemma validate_login_outcome hs username sub w r w' :
  validate_login hs username sub w = (r, w') →
  let lt := dict_get sub "type" in
  match r with
  | Ok _ => True
  | Raise e =>
      (e = SynapseError 400 "Password login has been disabled."
       ∧ password_enabled hs = false)
      ∨ (e = SynapseError 400 "Missing parameter: password"
         ∧ truthy (dict_get sub "password") = false)
      ∨ missing_parameters e
      ∨ (e = TypeError ∧ hashable lt = false)
      ∨ (e = AttributeError
         ∧ get_users_by_id_case_insensitive hs (qualify hs username) ≠ ∅)
      ∨ (e = unknown_login_type lt ∧ ¬ step_recognized hs lt)
      ∨ e = invalid_credentials
  | Diverge => False
  end.
Proof.
  intros H lt. unfold validate_login in H. fold lt in H.
  destruct (is_str lt LoginType.PASSWORD) eqn:Hpw; simpl in H.
  - destruct (password_enabled hs) eqn:Hen; simpl in H.
    2:{ injection H as <- <-. by left. }
    destruct (truthy (dict_get sub "password")) eqn:Htr; simpl in H.
    2:{ injection H as <- <-. right. by left. }
    apply bind_inv in H as [([res k] & w1 & Hloop & H)|[(e & Hloop & ->)|[Hloop ->]]].
    2: { apply providers_loop_spec in Hloop. tauto. }
    2: { by apply providers_loop_spec in Hloop. }
    destruct res as [res|]; [by injection H as <- <-|].
    apply bind_inv in H as [(step & w2 & Hlocal & H)|[(e & Hlocal & ->)|[Hlocal ->]]].
    + destruct step as [[res|] k2]; [by injection H as <- <-|].
      assert (k2 = true) as ->.
      { apply bind_inv in Hlocal
          as [(c & w3 & _ & Hl)|[(e & _ & ?)|[_ ?]]]; [|done..].
        destruct c as [c|]; [destruct (String.eqb c "")|];
          unfold ret in Hl; by simplify_eq. }
      injection H as <- <-. tauto.
    + apply bind_inv in Hlocal
        as [(c & w3 & _ & Hl)|[(e' & Hl & [= <-])|[_ ?]]]; [| |done].
      * destruct c as [c|]; [destruct (String.eqb c "")|]; done.
      * apply check_local_password_spec in Hl. tauto.
    + apply bind_inv in Hlocal
        as [(c & w3 & _ & Hl)|[(e' & _ & ?)|[Hl _]]]; [|done|].
      * destruct c as [c|]; [destruct (String.eqb c "")|]; done.
      * by apply check_local_password_spec in Hl.
  - apply bind_inv in H as [([res k] & w1 & Hloop & H)|[(e & Hloop & ->)|[Hloop ->]]].
    2: { apply providers_loop_spec in Hloop. tauto. }
    2: { by apply providers_loop_spec in Hloop. }
    destruct res as [res|]; [by injection H as <- <-|].
    apply providers_loop_spec in Hloop as [_ Hnone].
    cbv [bind ret] in H. destruct k; simpl in H; injection H as <- <-.
    + tauto.
    + do 5 right. left. split; [done|].
      intros [Hp|(p & Hin & Hrec)]; [congruence|]. by apply (Hnone eq_refl p).
Qed.

(** The fields [collect_fields] reports missing are the fields that the
    submission lacks, in the order the provider lists them. *)
Lemma collect_fields_missing fields sub : ∀ missing login_dict,
  (collect_fields fields sub missing login_dict).1
  = (missing ++ filter (λ f, sub !! f = None) fields)%list.
Proof.
  induction fields as [|f fields IH]; intros missing login_dict; simpl.
  - by rewrite app_nil_r.
  - rewrite filter_cons. destruct (sub !! f) as [v|] eqn:Hf.
    + rewrite IH. by rewrite decide_False.
    + rewrite IH. rewrite decide_True; [|done]. by rewrite <- app_assoc.
Qed.

Lemma filter_missing_nil (fields : list string) (sub : gmap string Value) :
  (∀ f, f ∈ fields → is_Some (sub !! f)) →
  filter (λ f, sub !! f = None) fields = [].
Proof.
  induction fields as [|f fields IH]; intros Hall; [done|].
  rewrite filter_cons. destruct (Hall f (list_elem_of_here _ _)) as [v Hv].
  rewrite decide_False; [|by rewrite Hv].
  apply IH. intros f' Hin. by apply Hall, list_elem_of_further.
Qed.

(** The loop over the providers when none of them produces a match: it
    runs to its end, and [known_login_type] is set exactly when a
    provider has taken the login type. *)
Lemma provider_check_password_no_match i p q lt pw known w :
  (∀ cp, Provider.check_password p = Some cp →
         is_str lt LoginType.PASSWORD = true → cp q pw = false) →
  ∃ known' w',
    provider_check_password i p q lt pw known w = (Ok (None, known'), w')
    ∧ (known' = true
       ↔ known = true
         ∨ (is_str lt LoginType.PASSWORD = true
            ∧ is_Some (Provider.check_password p))).
Proof.
  intros Hno. unfold provider_check_password.
  destruct (Provider.check_password p) as [cp|] eqn:Hcp.
  - destruct (is_str lt LoginType.PASSWORD) eqn:Hpw.
    + cbv [bind call modify ret]. rewrite (Hno cp eq_refl eq_refl).
      eexists _, _. split; [reflexivity|]. split; [|done]. right. eauto.
    + eexists _, _. split; [reflexivity|].
      split; [by left|]. by intros [?|[? _]].
  - eexists _, _. split; [reflexivity|].
    split; [by left|]. intros [?|[_ [? ?]]]; done.
Qed.

Lemma provider_check_auth_no_match i p u lt sub known w :
  hashable lt = true →
  (∀ types chk t fields f,
     Provider.get_supported_login_types p = Some types →
     Provider.check_auth p = Some chk →
     lt = VStr t → types !! t = Some fields → f ∈ fields →
     is_Some (sub !! f)) →
  (∀ types chk t fields,
     Provider.get_supported_login_types p = Some types →
     Provider.check_auth p = Some chk →
     lt = VStr t → types !! t = Some fields →
     let answer := chk u lt (collect_fields fields sub [] ∅).2 in
     answer = PRNone ∨ answer = PRStr "") →
  ∃ known' w',
    provider_check_auth i p u lt sub known w = (Ok (None, known'), w')
    ∧ (known' = true ↔ known = true ∨ provider_recognizes p lt).
Proof.
  intros Hh Hfields Hno. unfold provider_check_auth.
  destruct (Provider.get_supported_login_types p) as [types|] eqn:Hty.
  2:{ eexists _, _. split; [reflexivity|]. split; [by left|].
      intros [?|(? & ? & ? & ? & _)]; [done|congruence]. }
  destruct (Provider.check_auth p) as [chk|] eqn:Hchk.
  2:{ eexists _, _. split; [reflexivity|]. split; [by left|].
      intros [?|(? & ? & ? & _ & ? & _)]; [done|congruence]. }
  cbv [bind call modify]. rewrite Hh. simpl.
  destruct (match lt with VStr t => types !! t | _ => None end)
    as [fields|] eqn:Hl.
  2:{ eexists _, _. split; [reflexivity|]. split; [by left|].
      intros [?|(ty & ck & t & Hty' & _ & -> & Hsome)]; [done|].
      rewrite Hty in Hty'. injection Hty' as <-.
      rewrite Hl in Hsome. by destruct Hsome. }
  destruct lt as [| | |t| |]; try done.
  assert (provider_recognizes p (VStr t)) as Hrec.
  { exists types, chk, t. rewrite Hl. eauto. }
  specialize (Hfields types chk t fields).
  specialize (Hno types chk t fields eq_refl eq_refl eq_refl Hl).
  pose proof (collect_fields_missing fields sub [] ∅) as Hmiss.
  destruct (collect_fields fields sub [] ∅) as [missing login_dict].
  simpl in Hmiss, Hno. subst missing.
  rewrite (filter_missing_nil fields sub);
    [|intros f Hin; by apply (Hfields f)].
  simpl.
  destruct Hno as [-> | ->]; simpl;
    (eexists _, _; split; [reflexivity|]; split; [by right|done]).
Qed.

Lemma providers_loop_no_match u q lt pw sub providers : ∀ i known w,
  hashable lt = true →
  (∀ p types chk t fields f,
     p ∈ providers →
     Provider.get_supported_login_types p = Some types →
     Provider.check_auth p = Some chk →
     lt = VStr t → types !! t = Some fields → f ∈ fields →
     is_Some (sub !! f)) →
  (∀ p cp, p ∈ providers → Provider.check_password p = Some cp →
           is_str lt LoginType.PASSWORD = true → cp q pw = false) →
  (∀ p types chk t fields,
     p ∈ providers →
     Provider.get_supported_login_types p = Some types →
     Provider.check_auth p = Some chk →
     lt = VStr t → types !! t = Some fields →
     let answer := chk u lt (collect_fields fields sub [] ∅).2 in
     answer = PRNone ∨ answer = PRStr "") →
  ∃ known' w',
    providers_loop i providers u q lt pw sub known w = (Ok (None, known'), w')
    ∧ (known' = true
       ↔ known = true
         ∨ (is_str lt LoginType.PASSWORD = true
            ∧ ∃ p, p ∈ providers ∧ is_Some (Provider.check_password p))
         ∨ ∃ p, p ∈ providers ∧ provider_recognizes p lt).
Proof.
  induction providers as [|p rest IH]; intros i known w Hh Hfields Hcp Hca.
  - exists known, w. split; [done|]. split; [by left|].
    intros [?|[(_ & ? & Hin & _)|(? & Hin & _)]]; [done|..];
      by apply not_elem_of_nil in Hin.
  - destruct (provider_check_password_no_match i p q lt pw known w)
      as (k1 & w1 & H1 & Hk1).
    { intros cp. apply Hcp, list_elem_of_here. }
    destruct (provider_check_auth_no_match i p u lt sub k1 w1 Hh)
      as (k2 & w2 & H2 & Hk2).
    { intros types chk t fields f. apply Hfields, list_elem_of_here. }
    { intros types chk t fields. apply Hca, list_elem_of_here. }
    destruct (IH (S i) k2 w2 Hh) as (k3 & w3 & H3 & Hk3).
    { intros p' types chk t fields f Hin.
      by apply Hfields, list_elem_of_further. }
    { intros p' cp Hin. by apply Hcp, list_elem_of_further. }
    { intros p' types chk t fields Hin.
      by apply Hca, list_elem_of_further. }
    exists k3, w3. split.
    + simpl. rewrite (bind_Ok _ _ _ _ _ H1). simpl.
      rewrite (bind_Ok _ _ _ _ _ H2). simpl. exact H3.
    + rewrite Hk3, Hk2, Hk1. split.
      * intros [[[?|[Hpw Hsome]]|Hrec]|[(Hpw & p' & Hin & Hsome)
                                        |(p' & Hin & Hrec)]].
        -- by left.
        -- right. left. split; [done|]. exists p.
           split; [apply list_elem_of_here|done].
        -- right. right. exists p. split; [apply list_elem_of_here|done].
        -- right. left. split; [done|]. exists p'.
           split; [by apply list_elem_of_further|done].
        -- right. right. exists p'.
           split; [by apply list_elem_of_further|done].
      * intros [?|[(Hpw & p' & Hin & Hsome)|(p' & Hin & Hrec)]].
        -- by left; left; left.
        -- apply elem_of_cons in Hin as [->|Hin].
           ++ left. left. right. done.
           ++ right. left. split; [done|]. by exists p'.
        -- apply elem_of_cons in Hin as [->|Hin].
           ++ left. by right.
           ++ right. right. by exists p'.
Qed.

(** The local check of a string password always returns. *)
Lemma check_local_password_returns hs user_id p w :
  ∃ c w', _check_local_password hs user_id (VStr p) w = (Ok c, w').
Proof.
  destruct (_check_local_password hs user_id (VStr p) w) as [r w'] eqn:H.
  pose proof H as Hspec. apply check_local_password_spec in Hspec.
  destruct r as [c|e|]; [by eauto| |done].
  exfalso. clear Hspec. revert H.
  unfold _check_local_password, _find_user_id_and_pwd_hash.
  cbv [bind call modify ret].
  destruct (if Nat.eqb _ 0 then _ else _) as [[uid ph]|]; [|done].
  unfold validate_hash. destruct ph as [stored|]; [|done].
  destruct (negb (String.eqb stored "")); [|done].
  unfold ret. by destruct (negb _).
Qed.

(** A store that finds nobody gives no local match. *)
Lemma check_local_password_nobody hs user_id password w :
  get_users_by_id_case_insensitive hs user_id = ∅ →
  _check_local_password hs user_id password w
  = (Ok None, with_call (CallStore user_id) w).
Proof.
  intros Hu. unfold _check_local_password, _find_user_id_and_pwd_hash.
  cbv [bind call modify ret]. by rewrite Hu, map_size_empty.
Qed.

Lemma step_recognized_hashable hs lt :
  step_recognized hs lt → hashable lt = true.
Proof.
  intros [Hpw|(p & _ & types & chk & t & _ & _ & -> & _)]; [|done].
  by destruct lt.
Qed.

(** A login type that no step recognizes leaves nothing to turn the
    request down for, and nothing to match. *)
Lemma unrecognized_answerable hs username login_submission :
  ¬ step_recognized hs (dict_get login_submission "type") →
  answerable hs login_submission
  ∧ no_match hs username login_submission.
Proof.
  intros Hnot.
  assert (is_str (dict_get login_submission "type") LoginType.PASSWORD
          = false) as Hpw.
  { destruct (is_str _ _) eqn:H; [|done]. destruct Hnot. by left. }
  assert (∀ p types chk t fields,
            p ∈ password_providers hs →
            Provider.get_supported_login_types p = Some types →
            Provider.check_auth p = Some chk →
            dict_get login_submission "type" = VStr t →
            types !! t = Some fields → False) as Hnone.
  { intros p types chk t fields Hin Hty Hchk Ht Hf. apply Hnot. right.
    exists p. split; [done|]. exists types, chk, t. rewrite Hf. eauto. }
  split; [split|split; [split|]].
  - intros H. congruence.
  - intros p types chk t fields f Hin Hty Hchk Ht Hf.
    by destruct (Hnone p types chk t fields).
  - intros p cp _ _ H. congruence.
  - intros p types chk t fields Hin Hty Hchk Ht Hf.
    by destruct (Hnone p types chk t fields).
  - intros H. congruence.
Qed.

(** The verdict of [validate_login] on a request that it does not turn
    down and for which nothing produces a match. *)
Lemma validate_login_verdict hs username login_submission w :
  let lt := dict_get login_submission "type" in
  hashable lt = true →
  answerable hs login_submission →
  no_provider_match hs username login_submission →
  (is_str lt LoginType.PASSWORD = true →
   no_local_match hs username login_submission) →
  ∃ (known : bool) w',
    validate_login hs username login_submission w
    = (Raise (if known then invalid_credentials else unknown_login_type lt),
       w')
    ∧ (known = true ↔ step_recognized hs lt).
Proof.
  intros lt Hh (Hpass & Hfields) (Hcp & Hca) Hlocal.
  fold lt in Hpass, Hfields, Hcp, Hca.
  destruct (providers_loop_no_match username (qualify hs username) lt
              (dict_get login_submission "password") login_submission
              (password_providers hs) 0 false w Hh Hfields Hcp Hca)
    as (k & w1 & Hloop & Hk).
  unfold validate_login. fold lt.
  destruct (is_str lt LoginType.PASSWORD) eqn:Hpw.
  - destruct (Hpass eq_refl) as (Hen & p & Hp & Hne).
    rewrite Hen, Hp. simpl.
    destruct (String.eqb_spec p "") as [|_]; [done|]. simpl.
    rewrite Hp in Hloop. rewrite (bind_Ok _ _ _ _ _ Hloop). simpl.
    destruct (check_local_password_returns hs (qualify hs username) p w1)
      as (c & w2 & Hl).
    assert (c = None ∨ c = Some "") as Hc.
    { destruct c as [c|]; [|by left]. right. f_equal.
      apply (Hlocal eq_refl w1). by rewrite Hp, Hl. }
    exists true, w2. split; [|split; [by left|done]].
    unfold bind. rewrite Hl. by destruct Hc as [-> | ->].
  - simpl. rewrite (bind_Ok _ _ _ _ _ Hloop). simpl.
    exists k, w1. split; [by destruct k|].
    rewrite Hk. unfold step_recognized. rewrite Hpw. split.
    + intros [?|[[? _]|?]]; try done. by right.
    + intros [?|?]; [done|]. by right; right.
Qed.

(** C7, as stated, fails on five kinds of request whose login type is
    the password type or declared by a provider.  With password login
    switched off, with no password in the submission, with a password
    that is no string for a user the store knows, and with a field
    missing that the provider of the login type asks for, the call fails
    with an error that is neither of the two; with a provider that
    declares the type but has no [check_auth], the type counts as
    unknown. *)
Lemma validate_login_failure_modes_counterexample :
  ¬ failure_modes_as_stated Example.hs_no_password "alice"
      {[ "type" := VStr LoginType.PASSWORD; "password" := VStr "x" ]} Example.w0
  ∧ ¬ failure_modes_as_stated Example.hs "alice"
        {[ "type" := VStr LoginType.PASSWORD ]} Example.w0
  ∧ ¬ failure_modes_as_stated
        (Example.make true [Example.declaring_only] ∅) "alice"
        {[ "type" := VStr "m.login.token"; "token" := VStr "t" ]} Example.w0
  ∧ ¬ failure_modes_as_stated
        (hs_with_users {[ "@alice:example.org" := Some "$2b$12$hash" ]})
        "alice"
        {[ "type" := VStr LoginType.PASSWORD; "password" := VInt 5 ]}
        Example.w0
  ∧ ¬ failure_modes_as_stated (Example.make true [sso_provider] ∅) "alice"
        {[ "type" := VStr "com.example.sso" ]} Example.w0.
Proof.
  split_and!.
  - unfold failure_modes_as_stated.
    replace (validate_login _ _ _ _).1
      with (@Raise (string * option Callback)
              (SynapseError 400 "Password login has been disabled."))
      by (vm_compute; reflexivity).
    intros [H _]. discriminate H; [by left|done].
  - unfold failure_modes_as_stated.
    replace (validate_login _ _ _ _).1
      with (@Raise (string * option Callback)
              (SynapseError 400 "Missing parameter: password"))
      by (vm_compute; reflexivity).
    intros [H _]. discriminate H; [by left|done].
  - unfold failure_modes_as_stated.
    replace (dict_get _ "type") with (VStr "m.login.token")
      by (vm_compute; reflexivity).
    replace (validate_login _ _ _ _).1
      with (@Raise (string * option Callback)
              (unknown_login_type (VStr "m.login.token")))
      by (vm_compute; reflexivity).
    intros [_ H]. apply H; [done|]. right.
    exists Example.declaring_only, {[ "m.login.token" := ["token"] ]},
      "m.login.token".
    split_and!; [apply list_elem_of_here|done|done|].
    rewrite lookup_singleton_eq. eauto.
  - unfold failure_modes_as_stated.
    replace (validate_login _ _ _ _).1
      with (@Raise (string * option Callback) AttributeError)
      by (vm_compute; reflexivity).
    intros [H _]. discriminate H; [by left|done].
  - unfold failure_modes_as_stated.
    replace (dict_get _ "type") with (VStr "com.example.sso")
      by (vm_compute; reflexivity).
    replace (validate_login _ _ _ _).1
      with (@Raise (string * option Callback)
              (SynapseError 400
                 (MsgFormat "Missing parameters for login type %s: %s"
                    [VStr "com.example.sso"; VList [VStr "ticket"]])))
      by (vm_compute; reflexivity).
    intros [H _]. discriminate H; [|done]. right.
    exists sso_provider, {[ "com.example.sso" := ["ticket"] ]},
      "com.example.sso".
    split_and!; [apply list_elem_of_here|done|done|].
    rewrite lookup_singleton_eq. eauto.
Qed.

(** C7 (amended): take a request that [validate_login] does not turn
    down (for the password type, password login is enabled and the
    password is a string that is not empty; no field a provider asks for
    is missing) and for which no provider and no local lookup produces a
    match.  When some step recognizes the login type (the password type,
    or a type declared by a provider that has both
    [get_supported_login_types] and [check_auth]) the call fails with the
    invalid-credentials error.  The unknown-login-type error is raised
    only when no step recognized the type; and it is what is raised then,
    for any login type that can be looked up in a dictionary.  In
    particular the password type with a username that matches no stored
    identifier gives the invalid-credentials error. *)
Theorem validate_login_failure_modes hs username login_submission w :
  let r := (validate_login hs username login_submission w).1 in
  let lt := dict_get login_submission "type" in
  (step_recognized hs lt →
   answerable hs login_submission →
   no_match hs username login_submission →
   r = Raise invalid_credentials)
  ∧ (r = Raise (unknown_login_type lt) → ¬ step_recognized hs lt)
  ∧ (¬ step_recognized hs lt → hashable lt = true →
     r = Raise (unknown_login_type lt))
  ∧ (is_str lt LoginType.PASSWORD = true →
     answerable hs login_submission →
     no_provider_match hs username login_submission →
     get_users_by_id_case_insensitive hs (qualify hs username) = ∅ →
     r = Raise invalid_credentials).
Proof.
  intros r lt. split_and!.
  - intros Hrec Hans [Hprov Hlocal].
    destruct (validate_login_verdict hs username login_submission w
                (step_recognized_hashable _ _ Hrec) Hans Hprov Hlocal)
      as (known & w' & Hrun & Hknown).
    fold lt in Hknown. subst r. rewrite Hrun. simpl.
    apply Hknown in Hrec. by subst known.
  - destruct (validate_login hs username login_submission w) as [r0 w'] eqn:Hrun.
    pose proof (validate_login_outcome _ _ _ _ _ _ Hrun) as Hout.
    fold lt in Hout. simpl in r. subst r.
    intros ->. unfold unknown_login_type in Hout.
    destruct Hout as [[[=] _]|[[[=] _]|[[args [=]]|[[[=] _]|[[[=] _]|[[_ Hn]|[=]]]]]]].
    done.
  - intros Hnot Hh.
    destruct (unrecognized_answerable hs username login_submission Hnot)
      as (Hans & Hprov & Hlocal).
    destruct (validate_login_verdict hs username login_submission w
                Hh Hans Hprov Hlocal) as (known & w' & Hrun & Hknown).
    fold lt in Hknown. subst r. rewrite Hrun. simpl.
    destruct known; [|done]. destruct Hnot. by apply Hknown.
  - intros Hpw Hans Hprov Husers.
    assert (step_recognized hs lt) as Hrec by (by left).
    destruct (validate_login_verdict hs username login_submission w
                (step_recognized_hashable _ _ Hrec) Hans Hprov)
      as (known & w' & Hrun & Hknown).
    { intros _ w0 c Hc.
      by rewrite (check_local_password_nobody _ _ _ _ Husers) in Hc. }
    fold lt in Hknown. subst r. rewrite Hrun. simpl.
    apply Hknown in Hrec. by subst known.
Qed.

(** With a provider that takes the login type "com.example.sso" and
    answers [None], the submission of that type, with the field the
    provider asks for, fails with the invalid-credentials error; on the
    example server, which knows no "alice", so does the password type;
    and a login type nobody has heard of is unknown. *)
Lemma validate_login_failure_modes_witness :
  (validate_login (Example.make true [sso_provider] ∅) "alice"
     {[ "type" := VStr "com.example.sso"; "ticket" := VStr "t" ]}
     Example.w0).1
  = Raise invalid_credentials
  ∧ (validate_login Example.hs "alice"
       {[ "type" := VStr LoginType.PASSWORD; "password" := VStr "x" ]}
       Example.w0).1
    = Raise invalid_credentials
  ∧ (validate_login (Example.make true [sso_provider] ∅) "alice"
       {[ "type" := VStr "m.login.token"; "token" := VStr "t" ]}
       Example.w0).1
    = Raise (unknown_login_type (VStr "m.login.token")).
Proof.
  assert (∀ p, p ∈ [sso_provider] → p = sso_provider) as Hone.
  { intros p Hp. by apply list_elem_of_singleton in Hp. }
  split_and!.
  - refine (proj1 (validate_login_failure_modes
              (Example.make true [sso_provider] ∅) "alice"
              {[ "type" := VStr "com.example.sso"; "ticket" := VStr "t" ]}
              Example.w0) _ _ _).
    + right. exists sso_provider. split; [apply list_elem_of_here|].
      exists {[ "com.example.sso" := ["ticket"] ]}, (λ _ _ _, PRNone),
        "com.example.sso".
      split_and!; [reflexivity|reflexivity|vm_compute; reflexivity|].
      rewrite lookup_singleton_eq. eauto.
    + split.
      * intros Hpw. vm_compute in Hpw. discriminate.
      * intros p types chk t fields f Hp Hty _ Ht Hf Hin.
        apply Hone in Hp. subst p.
        injection Hty as <-. vm_compute in Ht. injection Ht as <-.
        vm_compute in Hf. injection Hf as <-.
        apply list_elem_of_singleton in Hin. subst f.
        vm_compute. eauto.
    + split; [split|].
      * intros p cp Hp Hcp. apply Hone in Hp. subst p. discriminate.
      * intros p types chk t fields Hp _ Hchk _ _.
        apply Hone in Hp. subst p. injection Hchk as <-. by left.
      * intros Hpw. vm_compute in Hpw. discriminate.
  - refine (proj2 (proj2 (proj2 (validate_login_failure_modes Example.hs
              "alice"
              {[ "type" := VStr LoginType.PASSWORD; "password" := VStr "x" ]}
              Example.w0))) _ _ _ _).
    + vm_compute. reflexivity.
    + split.
      * intros _. split; [reflexivity|]. exists "x".
        split; [vm_compute; reflexivity|discriminate].
      * intros p types chk t fields f Hp. by apply not_elem_of_nil in Hp.
    + split.
      * intros p cp Hp. by apply not_elem_of_nil in Hp.
      * intros p types chk t fields Hp. by apply not_elem_of_nil in Hp.
    + reflexivity.
  - refine (proj1 (proj2 (proj2 (validate_login_failure_modes
              (Example.make true [sso_provider] ∅) "alice"
              {[ "type" := VStr "m.login.token"; "token" := VStr "t" ]}
              Example.w0))) _ _).
    + intros [Hpw|(p & Hp & types & chk & t & Hty & _ & Ht & Hs)].
      * vm_compute in Hpw. discriminate.
      * apply Hone in Hp. subst p. injection Hty as <-.
        vm_compute in Ht. injection Ht as <-.
        vm_compute in Hs. by destruct Hs.
    + reflexivity.
Defined.

(** C10: with password login disabled, a submission of the password type
    is refused with the 400 error, whatever the username and the
    password; the world is as before, so that no provider and no store
    has been called. *)
Theorem validate_login_password_disabled hs username login_submission w :
  password_enabled hs = false →
  login_submission !! "type" = Some (VStr LoginType.PASSWORD) →
  validate_login hs username login_submission w
  = (Raise (SynapseError 400 "Password login has been disabled."), w).
Proof.
  intros Hen Ht. unfold validate_login, dict_get. rewrite Ht, Hen. done.
Qed.

Lemma validate_login_password_disabled_witness :
  validate_login Example.hs_no_password "alice"
    {[ "type" := VStr LoginType.PASSWORD; "password" := VStr "x" ]} Example.w0
  = (Raise (SynapseError 400 "Password login has been disabled."), Example.w0).
Proof.
  apply validate_login_password_disabled.
  - reflexivity.
  - vm_compute. reflexivity.
Defined.

(** ** The short-term login token (C8) *)

(** C8: the login token is the serialisation of a macaroon whose caveats
    are, in this order, [gen = 1], [user_id = <id>], [type = login] and
    [time < <deadline>]; the deadline is the reading of the clock plus the
    duration, which is 120000 ms when the caller gives none, and it lies
    strictly after the reading of the clock when the duration is
    positive. *)
Theorem generate_short_term_login_token_spec hs user_id duration_in_ms w :
  let duration := default 120000 duration_in_ms in
  let deadline := time_msec w + duration in
  ∃ macaroon,
    generate_short_term_login_token hs user_id duration_in_ms w
    = (Ok (macaroon_serialize hs macaroon), w)
    ∧ caveats macaroon
      = [ "gen = 1"; "user_id = " ++ user_id; "type = login";
          "time < " ++ pretty deadline ]
    ∧ (0 < duration → time_msec w < deadline).
Proof.
  intros duration deadline.
  exists (short_term_login_macaroon hs (time_msec w) user_id duration).
  split_and!; [reflexivity|reflexivity|]. unfold deadline. lia.
Qed.

Lemma generate_short_term_login_token_spec_witness :
  ∃ macaroon,
    generate_short_term_login_token Example.hs "@alice:example.org" None
      Example.w0
    = (Ok (macaroon_serialize Example.hs macaroon), Example.w0)
    ∧ caveats macaroon
      = [ "gen = 1"; "user_id = @alice:example.org"; "type = login";
          "time < 121000" ]
    ∧ time_msec Example.w0 < 121000.
Proof.
  destruct (generate_short_term_login_token_spec Example.hs
              "@alice:example.org" None Example.w0) as (m & Hrun & Hcav & Hlt).
  exists m. split_and!; [exact Hrun|exact Hcav|]. apply Hlt. reflexivity.
Defined.

(** * More properties of the handler *)

(** ** Finding and creating sessions *)

(** The four ways [_get_session_info] can go. *)
Lemma get_session_info_cases sid w r w' :
  _get_session_info sid w = (r, w') →
  (r = Raise TypeError ∧ hashable sid = false ∧ w' = w)
  ∨ (∃ k s, sid = VStr k ∧ k ≠ "" ∧ sessions w !! k = Some s
            ∧ r = Ok s ∧ w' = w)
  ∨ (∃ k rest,
        fresh_session_id (entropy w) (sessions w) = Some (k, rest)
        ∧ sessions w !! k = None ∧ r = Ok (new_session k)
        ∧ w' = with_sessions (insert k (new_session k)) (with_entropy rest w))
  ∨ (r = Diverge ∧ fresh_session_id (entropy w) (sessions w) = None
     ∧ w' = with_entropy [] w).
Proof.
  unfold _get_session_info. destruct (hashable sid) eqn:Hh; simpl.
  2:{ intros [= <- <-]. by left. }
  destruct (match sid with
            | VStr s => if truthy sid then sessions w !! s else None
            | _ => None
            end) as [s0|] eqn:Hknown.
  - intros [= <- <-]. right. left.
    destruct sid as [| | |k| |]; try done. simpl in Hknown.
    destruct (String.eqb_spec k ""); [done|]. simpl in Hknown. by exists k, s0.
  - destruct (fresh_session_id _ _) as [[k rest]|] eqn:Hf; intros [= <- <-].
    + right. right. left. exists k, rest.
      by destruct (fresh_session_id_spec _ _ _ _ Hf) as [? _].
    + by do 3 right.
Qed.

(** What [_get_session_info] returns: the live session of the id given,
    or a new one under an unused id. *)
Lemma get_session_info_resolved sid w s w' :
  sessions_wf w →
  _get_session_info sid w = (Ok s, w') →
  (sid = VStr (id s) ∧ id s ≠ "" ∧ sessions w !! id s = Some s ∧ w' = w)
  ∨ (sessions w !! id s = None ∧ s = new_session (id s)
     ∧ id s ∈ entropy w
     ∧ sessions w' = <[id s := s]> (sessions w)
     ∧ (∀ k, k ≠ id s → sessions w' !! k = sessions w !! k)).
Proof.
  intros Hwf H.
  apply get_session_info_cases in H
    as [(? & _)|[(k & s0 & -> & Hne & Hk & [= <-] & ->)
       |[(k & rest & Hf & Hk & [= ->] & ->)|(? & _)]]]; try done.
  - left. by rewrite (Hwf _ _ Hk).
  - right. simpl. split_and!; [done|done| |done|].
    + apply fresh_session_id_spec in Hf as (_ & used & Hd). rewrite Hd.
      apply elem_of_app. right. apply list_elem_of_here.
    + intros k' Hk'. by rewrite lookup_insert_ne.
Qed.



(** ** What [check_auth] leaves alone *)

Lemma creds_frame_refl P w : creds_frame P w w.
Proof. by intros sid stage _. Qed.

Lemma creds_frame_trans P w1 w2 w3 :
  creds_frame P w1 w2 → creds_frame P w2 w3 → creds_frame P w1 w3.
Proof.
  intros H12 H23 sid stage Hn. by rewrite (H23 _ _ Hn), (H12 _ _ Hn).
Qed.

Lemma creds_frame_weaken (P Q : string → string → Prop) w w' :
  (∀ sid stage, P sid stage → Q sid stage) →
  creds_frame P w w' → creds_frame Q w w'.
Proof. intros HPQ H sid stage Hn. apply H. intros HP. by apply Hn, HPQ. Qed.

Lemma same_store_frame P w w' : same_store w w' → creds_frame P w w'.
Proof. intros (Hs & _) sid stage _. unfold creds_of. by rewrite Hs. Qed.

(** Writing back a session dictionary whose credentials agree with the
    ones in the cache outside of [P]. *)
Lemma creds_frame_insert P s s' w :
  in_sync s w → id s' = id s →
  (∀ stage, ¬ P (id s) stage →
            default ∅ (creds s') !! stage = default ∅ (creds s) !! stage) →
  creds_frame P w (with_sessions (insert (id s') s') w).
Proof.
  intros Hs Hid Hc sid stage Hn. unfold creds_of. simpl.
  rewrite lookup_insert. case_decide as Hk; [|done].
  subst sid. rewrite Hid in Hn |- *. unfold in_sync in Hs. rewrite Hs. simpl.
  by apply Hc.
Qed.

Lemma get_session_info_frame P sid w r w' :
  _get_session_info sid w = (r, w') → creds_frame P w w'.
Proof.
  intros H.
  apply get_session_info_cases in H
    as [(_ & _ & ->)|[(k & s0 & _ & _ & _ & _ & ->)
       |[(k & rest & _ & Hk & _ & ->)|(_ & _ & ->)]]];
    try apply creds_frame_refl.
  - intros sid' stage _. unfold creds_of. simpl.
    rewrite lookup_insert. case_decide as Hd; [|done]. subst. by rewrite Hk.
  - by intros sid' stage _.
Qed.

Lemma stash_clientdict_frame P s cd w r w' :
  stash_clientdict s cd w = (r, w') → in_sync s w → creds_frame P w w'.
Proof.
  unfold stash_clientdict. intros H Hs.
  destruct (negb (Nat.eqb (size cd) 0)).
  - cbv [bind update_session modify _save_session get ret] in H.
    injection H as <- <-.
    intros sid stage _. unfold creds_of. simpl. rewrite !lookup_insert.
    case_decide as Hk; [|done]. subst. unfold in_sync in Hs. by rewrite Hs.
  - destruct (clientdict s); injection H as <- <-; apply creds_frame_refl.
Qed.

Lemma ensure_creds_frame P s w r w' :
  ensure_creds s w = (r, w') → in_sync s w → creds_frame P w w'.
Proof.
  unfold ensure_creds. intros H Hs. destruct (creds s) as [c|] eqn:Hc.
  - injection H as <- <-. apply creds_frame_refl.
  - cbv [bind update_session modify ret] in H. injection H as <- <-.
    apply (creds_frame_insert P s (set_creds s ∅)); [done..|].
    intros stage _. by rewrite Hc.
Qed.

Lemma record_result_frame s t result w r w' :
  record_result s t result w = (r, w') → in_sync s w →
  creds_frame (entry (id s) t) w w'.
Proof.
  intros H Hs.
  cbv [record_result bind update_session modify _save_session get ret] in H.
  injection H as <- <-.
  intros sid stage Hn. unfold creds_of. simpl. rewrite !lookup_insert.
  case_decide as Hk; [|done]. subst. unfold in_sync in Hs. rewrite Hs. simpl.
  rewrite lookup_insert_ne; [done|]. intros ->. by apply Hn.
Qed.

(** The dispatch block touches the entry of the presented stage type in
    the session of the request, and nothing else. *)
Lemma check_stage_frame hs s a ip w r w' :
  check_stage hs s a ip w = (r, w') → in_sync s w →
  creds_frame (λ sid stage, sid = id s ∧ presented a = Some stage) w w'.
Proof.
  intros H Hs. unfold check_stage in H.
  destruct (a !! "type") as [lt|] eqn:Ht;
    [|injection H as <- <-; apply creds_frame_refl].
  destruct (negb (hashable lt));
    [injection H as <- <-; apply creds_frame_refl|].
  destruct lt as [| | |t| |];
    try (injection H as <- <-; apply creds_frame_refl).
  destruct (checkers hs !! t) as [checker|] eqn:Hc;
    [|injection H as <- <-; apply creds_frame_refl].
  rewrite (presented_str _ _ Ht).
  pose proof (quiet_checkers hs t checker a ip Hc w) as Hq.
  unfold try_except_LoginError, bind at 1 in H.
  destruct (checker a ip w) as [[result|e|] w1] eqn:Hrun;
    specialize (Hq _ _ eq_refl).
  - destruct (truthy result).
    + destruct (record_result_spec s t result w1) as (s' & w2 & Hrec & _).
      rewrite (bind_Ok _ _ _ _ _ Hrec) in H. injection H as <- <-.
      eapply creds_frame_trans; [by apply same_store_frame|].
      eapply creds_frame_weaken;
        [|eapply record_result_frame; [done|by eapply same_store_in_sync]].
      intros sid stage [-> ->]. done.
    + injection H as <- <-. by apply same_store_frame.
  - destruct e; try (injection H as <- <-; by apply same_store_frame).
    destruct (String.eqb t LoginType.EMAIL_IDENTITY);
      injection H as <- <-; by apply same_store_frame.
  - injection H as <- <-. by apply same_store_frame.
Qed.

Lemma check_auth_frame_at hs flows clientdict0 clientip w r w' :
  sessions_wf w →
  check_auth hs flows clientdict0 clientip w = (r, w') →
  ∀ sid stage,
    ¬ (request_session clientdict0 w = Some sid
       ∧ auth_block clientdict0 ≫= presented = Some stage) →
    creds_of w' sid !! stage = creds_of w sid !! stage.
Proof.
  intros Hwf H.
  change (creds_frame
            (λ sid stage, request_session clientdict0 w = Some sid
                          ∧ auth_block clientdict0 ≫= presented = Some stage)
            w w').
  unfold check_auth in H.
  apply bind_inv in H as [(s & w1 & Hget & H)|[(e & Hget & _)|[Hget _]]].
  2,3: by eapply get_session_info_frame.
  destruct (get_session_info_spec _ _ _ _ Hget Hwf) as (Hwf1 & _ & _ & _ & _ & Hs1).
  specialize (Hs1 _ eq_refl).
  assert (request_session clientdict0 w = Some (id s)) as Hreq.
  { unfold request_session, get_session_id. by rewrite Hget. }
  eapply creds_frame_trans; [by eapply get_session_info_frame|].
  destruct clientdict0 as [cd|];
    [|injection H as <- <-; apply creds_frame_refl].
  destruct (stash_clientdict_spec s (cd_rest cd) w1)
    as (s2 & c & w2 & Hstash & _ & _ & _ & Hstep2).
  rewrite (bind_Ok _ _ _ _ _ Hstash) in H.
  destruct (Hstep2 Hwf1 Hs1) as (Hid2 & Hs2 & Hwf2 & _).
  eapply creds_frame_trans; [by eapply stash_clientdict_frame|].
  simpl in H. unfold auth_block. simpl.
  destruct (cd_auth cd) as [a|] eqn:Ha;
    [|injection H as <- <-; apply creds_frame_refl].
  destruct (Nat.eqb (size a) 0);
    [injection H as <- <-; apply creds_frame_refl|].
  destruct (ensure_creds_spec s2 w2) as (s3 & w3 & Hens & _ & _ & Hstep3).
  rewrite (bind_Ok _ _ _ _ _ Hens) in H.
  destruct (Hstep3 Hwf2 Hs2) as (Hid3 & Hs3 & Hwf3 & _).
  eapply creds_frame_trans; [by eapply ensure_creds_frame|].
  assert (creds_frame
            (λ sid stage, request_session (Some cd) w = Some sid
                          ∧ Some a ≫= presented = Some stage) w3 w') as Hgoal;
    [|exact Hgoal].
  assert (∀ rs w4, check_stage hs s3 a clientip w3 = (rs, w4) →
            creds_frame
              (λ sid stage, request_session (Some cd) w = Some sid
                            ∧ Some a ≫= presented = Some stage) w3 w4) as Hst.
  { intros rs w4 Hrun. eapply creds_frame_weaken;
      [|by eapply check_stage_frame].
    intros sid stage [-> Hp]. split; [|done]. rewrite Hreq. congruence. }
  apply bind_inv in H as [([s4 ed] & w4 & Hrun & H)|[(e & Hrun & _)|[Hrun _]]].
  - injection H as <- <-. by eapply Hst.
  - by eapply Hst.
  - by eapply Hst.
Qed.

(** X2: [check_auth], however it ends, changes no entry of any credential
    map but the one of the presented stage type in the session of the
    request; a request that presents no stage type changes no credential
    at all. *)
Theorem check_auth_frame hs flows clientdict0 clientip w r w' :
  sessions_wf w →
  check_auth hs flows clientdict0 clientip w = (r, w') →
  (∀ sid stage,
     ¬ (request_session clientdict0 w = Some sid
        ∧ auth_block clientdict0 ≫= presented = Some stage) →
     creds_of w' sid !! stage = creds_of w sid !! stage)
  ∧ (auth_block clientdict0 ≫= presented = None →
     ∀ sid, creds_of w' sid = creds_of w sid).
Proof.
  intros Hwf H.
  pose proof (check_auth_frame_at _ _ _ _ _ _ _ Hwf H) as Hframe.
  split; [exact Hframe|].
  intros Hnone sid. apply map_eq. intros stage. apply Hframe.
  intros [_ Hp]. congruence.
Qed.

Lemma check_auth_frame_witness :
  creds_of
    (check_auth Example.hs [[LoginType.DUMMY; LoginType.RECAPTCHA]]
       (Example.request
          {[ "type" := VStr LoginType.RECAPTCHA; "session" := VStr "S" ]})
       "10.0.0.1" Example.w1).2 "S" !! LoginType.DUMMY
  = creds_of Example.w1 "S" !! LoginType.DUMMY.
Proof.
  apply (proj1 (check_auth_frame Example.hs
                  [[LoginType.DUMMY; LoginType.RECAPTCHA]]
                  (Example.request
                     {[ "type" := VStr LoginType.RECAPTCHA;
                        "session" := VStr "S" ]})
                  "10.0.0.1" Example.w1 _ _ example_w1_wf
                  (surjective_pairing _))).
  intros [_ H]. vm_compute in H. discriminate.
Defined.

(** ** What [check_auth] returns and records *)

Lemma stash_clientdict_cases s cd w :
  (size cd ≠ 0%nat
   ∧ stash_clientdict s cd w
     = (Ok (set_last_used (set_clientdict s cd) (time_msec w), cd),
        with_sessions
          (insert (id s) (set_last_used (set_clientdict s cd) (time_msec w)))
          (with_sessions (insert (id s) (set_clientdict s cd)) w)))
  ∨ (size cd = 0%nat
     ∧ stash_clientdict s cd w = (Ok (s, default cd (clientdict s)), w)).
Proof.
  unfold stash_clientdict. destruct (Nat.eqb_spec (size cd) 0) as [Hz|Hnz]; simpl.
  - right. split; [done|]. by destruct (clientdict s).
  - left. split; [done|]. reflexivity.
Qed.

Lemma ensure_creds_clientdict s w s' w' :
  ensure_creds s w = (Ok s', w') → clientdict s' = clientdict s.
Proof.
  unfold ensure_creds. destruct (creds s).
  - by intros [= <- _].
  - cbv [bind update_session modify ret]. by intros [= <- _].
Qed.

Lemma check_stage_clientdict hs s a ip w s' ed w' :
  check_stage hs s a ip w = (Ok (s', ed), w') → clientdict s' = clientdict s.
Proof.
  unfold check_stage. intros H.
  destruct (a !! "type") as [lt|]; [|by injection H as <- _ _].
  destruct (negb (hashable lt)); [done|].
  destruct lt as [| | |t| |]; try done.
  destruct (checkers hs !! t) as [checker|]; [|done].
  unfold try_except_LoginError, bind at 1 in H.
  destruct (checker a ip w) as [[result|e|] w1]; [| |done].
  - destruct (truthy result); [|by injection H as <- _ _].
    cbv [record_result bind update_session modify _save_session get ret] in H.
    by injection H as <- _ _.
  - destruct e; try done.
    destruct (String.eqb _ _); [done|]. by injection H as <- _ _.
Qed.

(** Every return of [check_auth]: the session it worked on, as the cache
    now holds it, and the client parameters it hands back. *)
Lemma check_auth_Ok_inv hs flows cd ip w authed body client_dict sid w' :
  sessions_wf w →
  check_auth hs flows (Some cd) ip w
  = (Ok (authed, body, client_dict, sid), w') →
  ∃ s0 w1 s,
    _get_session_info (get_session_id (Some cd)) w = (Ok s0, w1)
    ∧ id s0 = sid ∧ id s = sid ∧ sessions w' !! sid = Some s
    ∧ clientdict s
      = (if Nat.eqb (size (cd_rest cd)) 0 then clientdict s0
         else Some (cd_rest cd))
    ∧ client_dict
      = (if Nat.eqb (size (cd_rest cd)) 0
         then default (cd_rest cd) (clientdict s0) else cd_rest cd).
Proof.
  intros Hwf H. unfold check_auth in H.
  apply bind_inv in H as [(s0 & w1 & Hget & H)|[(e & _ & ?)|[_ ?]]]; [|done..].
  destruct (get_session_info_spec _ _ _ _ Hget Hwf) as (Hwf1 & _ & _ & _ & _ & Hs1).
  specialize (Hs1 _ eq_refl).
  assert (∃ s2 w2,
            stash_clientdict s0 (cd_rest cd) w1
            = (Ok (s2, if Nat.eqb (size (cd_rest cd)) 0
                       then default (cd_rest cd) (clientdict s0)
                       else cd_rest cd), w2)
            ∧ clientdict s2
              = (if Nat.eqb (size (cd_rest cd)) 0 then clientdict s0
                 else Some (cd_rest cd))) as (s2 & w2 & Hstash & Hcd2).
  { destruct (stash_clientdict_cases s0 (cd_rest cd) w1) as [[Hnz ->]|[Hz ->]].
    - destruct (Nat.eqb_spec (size (cd_rest cd)) 0); [done|]. by eexists _, _.
    - rewrite Hz. simpl. by eexists _, _. }
  destruct (stash_clientdict_spec s0 (cd_rest cd) w1)
    as (s2' & c' & w2' & Hstash' & _ & _ & _ & Hstep2).
  rewrite Hstash in Hstash'. injection Hstash' as <- <- <-.
  destruct (Hstep2 Hwf1 Hs1) as (Hid2 & Hs2 & Hwf2 & _).
  rewrite (bind_Ok _ _ _ _ _ Hstash) in H. simpl in H.
  exists s0, w1.
  destruct (cd_auth cd) as [a|] eqn:Ha.
  2:{ injection H as <- <- <- <- <-. exists s2. by split_and!. }
  destruct (Nat.eqb (size a) 0).
  { injection H as <- <- <- <- <-. exists s2. by split_and!. }
  destruct (ensure_creds_spec s2 w2) as (s3 & w3 & Hens & _ & _ & Hstep3).
  rewrite (bind_Ok _ _ _ _ _ Hens) in H.
  destruct (Hstep3 Hwf2 Hs2) as (Hid3 & Hs3 & Hwf3 & _).
  apply bind_inv in H as [([s4 ed] & w4 & Hst & H)|[(e & _ & ?)|[_ ?]]]; [|done..].
  destruct (check_stage_spec _ _ _ _ _ _ _ Hst Hwf3 Hs3) as (_ & _ & Hpost).
  destruct (Hpost _ _ eq_refl) as [Hid4 Hs4].
  assert (client_dict
          = (if Nat.eqb (size (cd_rest cd)) 0
             then default (cd_rest cd) (clientdict s0) else cd_rest cd)
          ∧ sid = id s4 ∧ w' = w4) as (-> & -> & ->).
  { unfold ret, flows_response in H.
    destruct (existsb _ flows); by injection H as _ _ <- <- <-. }
  exists s4. split_and!; try done; try congruence.
  rewrite (check_stage_clientdict _ _ _ _ _ _ _ _ Hst).
  by rewrite (ensure_creds_clientdict _ _ _ _ Hens).
Qed.



(** X4: client parameters sent with one request are kept on the session
    and handed back to a later request of the same session that sends
    none. *)
Theorem check_auth_client_params_roundtrip hs flows1 flows2 cd1 cd2 ip1 ip2
    w authed1 body1 c1 authed2 body2 c2 sid w1 w2 :
  sessions_wf w →
  cd_rest cd1 ≠ ∅ → cd_rest cd2 = ∅ →
  check_auth hs flows1 (Some cd1) ip1 w = (Ok (authed1, body1, c1, sid), w1) →
  check_auth hs flows2 (Some cd2) ip2 w1 = (Ok (authed2, body2, c2, sid), w2) →
  c1 = cd_rest cd1 ∧ c2 = cd_rest cd1.
Proof.
  intros Hwf Hne He H1 H2.
  destruct (check_auth_extends _ _ _ _ _ _ _ H1 Hwf) as [Hwf1 _].
  destruct (check_auth_Ok_inv _ _ _ _ _ _ _ _ _ _ Hwf H1)
    as (s0 & w0' & s & _ & _ & Hid & Hs & Hcd & ->).
  destruct (check_auth_Ok_inv _ _ _ _ _ _ _ _ _ _ Hwf1 H2)
    as (s0' & w1' & s' & Hget' & Hid0' & _ & _ & _ & ->).
  destruct (Nat.eqb_spec (size (cd_rest cd1)) 0) as [Hz|_].
  { by apply map_size_empty_iff in Hz. }
  split; [done|]. rewrite He, map_size_empty. simpl.
  destruct (get_session_info_resolved _ _ _ _ Hwf1 Hget')
    as [(_ & _ & Hlive & _)|(Hnone & _)]; rewrite Hid0' in *.
  - rewrite Hs in Hlive. injection Hlive as <-. by rewrite Hcd.
  - by rewrite Hs in Hnone.
Qed.

Lemma check_auth_client_params_roundtrip_witness :
  ∃ authed1 body1 c1 w1 authed2 body2 c2 w2,
    check_auth Example.hs [[LoginType.RECAPTCHA]]
      (Some {| cd_auth := None; cd_rest := {[ "username" := VStr "alice" ]} |})
      "10.0.0.1" Example.w0
    = (Ok (authed1, body1, c1, "AAAA"), w1)
    ∧ check_auth Example.hs [[LoginType.RECAPTCHA]]
        (Example.request {[ "session" := VStr "AAAA" ]}) "10.0.0.2" w1
      = (Ok (authed2, body2, c2, "AAAA"), w2)
    ∧ c1 = {[ "username" := VStr "alice" ]}
    ∧ c2 = {[ "username" := VStr "alice" ]}.
Proof.
  pose (cd1 := {| cd_auth := None;
                  cd_rest := {[ "username" := VStr "alice" ]} |}).
  pose (cd2 := {| cd_auth := Some {[ "session" := VStr "AAAA" ]};
                  cd_rest := ∅ |}).
  destruct (check_auth Example.hs [[LoginType.RECAPTCHA]] (Some cd1)
              "10.0.0.1" Example.w0) as [r1 w1] eqn:H1.
  destruct (check_auth Example.hs [[LoginType.RECAPTCHA]] (Some cd2)
              "10.0.0.2" w1) as [r2 w2] eqn:H2.
  assert (∃ authed1 body1 c1, r1 = Ok (authed1, body1, c1, "AAAA"))
    as (authed1 & body1 & c1 & ->).
  { vm_compute in H1. injection H1 as <- _. by eexists _, _, _. }
  assert (∃ authed2 body2 c2, r2 = Ok (authed2, body2, c2, "AAAA"))
    as (authed2 & body2 & c2 & ->).
  { assert (w1 = (check_auth Example.hs [[LoginType.RECAPTCHA]] (Some cd1)
                    "10.0.0.1" Example.w0).2) as Hw by (by rewrite H1).
    rewrite Hw in H2. vm_compute in H2. injection H2 as <- _.
    by eexists _, _, _. }
  exists authed1, body1, c1, w1, authed2, body2, c2, w2.
  split; [done|]. split; [done|].
  apply (check_auth_client_params_roundtrip Example.hs
           [[LoginType.RECAPTCHA]] [[LoginType.RECAPTCHA]] cd1 cd2
           "10.0.0.1" "10.0.0.2" Example.w0
           authed1 body1 c1 authed2 body2 c2 "AAAA" w1 w2 example_w0_wf);
    [|reflexivity|exact H1|exact H2].
  intros H. apply (f_equal size) in H. vm_compute in H. discriminate.
Defined.

(** The credential map of the session [_get_session_info] returns is the
    one the cache had for its id. *)
Lemma creds_of_resolved sid w s w1 :
  sessions_wf w → _get_session_info sid w = (Ok s, w1) →
  creds_of w (id s) = default ∅ (creds s).
Proof.
  intros Hwf Hget.
  destruct (get_session_info_resolved _ _ _ _ Hwf Hget)
    as [(_ & _ & Hlive & _)|(Hnone & -> & _)]; unfold creds_of.
  - by rewrite Hlive.
  - simpl in *. by rewrite Hnone.
Qed.

(** X5: when the checker of the presented stage type succeeds with a
    result that counts as true, [check_auth] returns, and the session has
    that very result under the stage type, next to what it had. *)
Theorem check_auth_records hs flows cd a clientip t (checker : Checker)
    result w s w1 :
  sessions_wf w →
  cd_auth cd = Some a →
  a !! "type" = Some (VStr t) →
  checkers hs !! t = Some checker →
  (∀ w0, (checker a clientip w0).1 = Ok result) →
  truthy result = true →
  _get_session_info (dict_get a "session") w = (Ok s, w1) →
  ∃ authed body client_dict w',
    check_auth hs flows (Some cd) clientip w
    = (Ok (authed, body, client_dict, id s), w')
    ∧ creds_of w' (id s) = <[t := result]> (creds_of w (id s))
    ∧ (authed = true → body = creds_of w' (id s)).
Proof.
  intros Hwf Ha Ht Hc Hok Htr Hget.
  assert (size a ≠ 0%nat) as Hsz.
  { intros Hz. apply map_size_empty_iff in Hz. subst a.
    by rewrite lookup_empty in Ht. }
  rewrite (creds_of_resolved _ _ _ _ Hwf Hget).
  destruct (check_auth_forward hs flows cd a clientip w s w1 Hwf Ha Hsz Hget)
    as (c & s3 & w3 & -> & Hid3 & Hc3 & Hs3 & Hwf3 & _).
  destruct (check_stage_registered hs s3 a clientip t checker w3 Ht Hc)
    as (r & w4 & Hst & Hout & _ & Hpost).
  rewrite (Hok w3) in Hout. simpl in Hout. rewrite Htr in Hout.
  destruct Hout as (s' & -> & Hc').
  destruct (Hpost Hwf3 Hs3) as (_ & _ & Hr).
  destruct (Hr _ _ eq_refl) as [Hid' Hs'].
  rewrite (bind_Ok _ _ _ _ _ Hst). simpl.
  assert (creds_of w4 (id s) = <[t := result]> (default ∅ (creds s))) as Hcr.
  { unfold creds_of. rewrite <- Hid3, <- Hid'. unfold in_sync in Hs'.
    rewrite Hs'. simpl. by rewrite Hc', Hc3. }
  unfold flows_response, ret. rewrite Hid', Hid3.
  destruct (existsb _ flows).
  - eexists _, _, _, _. split; [reflexivity|]. split; [done|].
    intros _. rewrite Hcr. by rewrite Hc', Hc3.
  - eexists _, _, _, _. split; [reflexivity|]. split; [done|]. done.
Qed.

Lemma check_auth_records_witness :
  ∃ authed body client_dict w',
    check_auth Example.hs [[LoginType.DUMMY; LoginType.RECAPTCHA]]
      (Example.request {[ "type" := VStr LoginType.DUMMY ]})
      "10.0.0.1" Example.w0
    = (Ok (authed, body, client_dict, "AAAA"), w')
    ∧ creds_of w' "AAAA"
      = <[LoginType.DUMMY := VBool true]> (creds_of Example.w0 "AAAA")
    ∧ (authed = true → body = creds_of w' "AAAA").
Proof.
  apply (check_auth_records Example.hs [[LoginType.DUMMY; LoginType.RECAPTCHA]]
           {| cd_auth := Some {[ "type" := VStr LoginType.DUMMY ]};
              cd_rest := ∅ |}
           {[ "type" := VStr LoginType.DUMMY ]} "10.0.0.1" LoginType.DUMMY
           _check_dummy_auth (VBool true) Example.w0 (new_session "AAAA")
           (with_sessions (insert "AAAA" (new_session "AAAA"))
              (with_entropy ["BBBB"] Example.w0))
           example_w0_wf eq_refl).
  - vm_compute. reflexivity.
  - reflexivity.
  - intros w0. reflexivity.
  - reflexivity.
  - vm_compute. reflexivity.
Defined.

Lemma check_stage_failed hs s a ip t (checker : Checker) code msg errcode
    w r w' :
  a !! "type" = Some (VStr t) →
  checkers hs !! t = Some checker →
  (checker a ip w).1 = Raise (LoginError code msg errcode) →
  check_stage hs s a ip w = (r, w') → same_store w w'.
Proof.
  intros Ht Hc Hfail H. unfold check_stage in H. rewrite Ht in H.
  cbn [hashable negb] in H. rewrite Hc in H.
  pose proof (quiet_checkers hs t checker a ip Hc w) as Hq.
  unfold try_except_LoginError, bind at 1 in H.
  destruct (checker a ip w) as [rc w1] eqn:Hrun. simpl in Hfail. subst rc.
  specialize (Hq _ _ eq_refl).
  destruct (String.eqb t LoginType.EMAIL_IDENTITY); by injection H as <- <-.
Qed.

(** X6: a stage whose checker fails with a [LoginError] records nothing:
    whether [check_auth] answers with the error folded in or raises it,
    every credential map is what it was. *)
Theorem check_auth_failed_stage_records_nothing hs flows cd a clientip t
    (checker : Checker) code msg errcode w :
  sessions_wf w →
  cd_auth cd = Some a →
  a !! "type" = Some (VStr t) →
  checkers hs !! t = Some checker →
  (∀ w0, (checker a clientip w0).1 = Raise (LoginError code msg errcode)) →
  ∀ sid,
    creds_of (check_auth hs flows (Some cd) clientip w).2 sid = creds_of w sid.
Proof.
  intros Hwf Ha Ht Hc Hfail sid.
  destruct (check_auth hs flows (Some cd) clientip w) as [r w'] eqn:H. simpl.
  apply map_eq. intros stage. revert sid stage.
  assert (creds_frame nothing w w') as Hframe;
    [|intros sid stage; apply Hframe; by intros []].
  unfold check_auth in H. simpl in H. rewrite Ha in H.
  apply bind_inv in H as [(s & w1 & Hget & H)|[(e & Hget & _)|[Hget _]]].
  2,3: by eapply get_session_info_frame.
  destruct (get_session_info_spec _ _ _ _ Hget Hwf) as (Hwf1 & _ & _ & _ & _ & Hs1).
  specialize (Hs1 _ eq_refl).
  eapply creds_frame_trans; [by eapply get_session_info_frame|].
  destruct (stash_clientdict_spec s (cd_rest cd) w1)
    as (s2 & c & w2 & Hstash & _ & _ & _ & Hstep2).
  rewrite (bind_Ok _ _ _ _ _ Hstash) in H.
  destruct (Hstep2 Hwf1 Hs1) as (Hid2 & Hs2 & Hwf2 & _).
  eapply creds_frame_trans; [by eapply stash_clientdict_frame|].
  simpl in H.
  destruct (Nat.eqb (size a) 0);
    [injection H as <- <-; apply creds_frame_refl|].
  destruct (ensure_creds_spec s2 w2) as (s3 & w3 & Hens & _ & _ & Hstep3).
  rewrite (bind_Ok _ _ _ _ _ Hens) in H.
  eapply creds_frame_trans; [by eapply ensure_creds_frame|].
  apply same_store_frame.
  apply bind_inv in H as [([s4 ed] & w4 & Hst & H)|[(e & Hst & _)|[Hst _]]].
  - injection H as <- <-. by eapply check_stage_failed.
  - by eapply check_stage_failed.
  - by eapply check_stage_failed.
Qed.

Lemma check_auth_failed_stage_records_nothing_witness :
  creds_of
    (check_auth Example.hs [[LoginType.RECAPTCHA]]
       (Some {| cd_auth := Some {[ "type" := VStr LoginType.RECAPTCHA;
                                   "session" := VStr "S" ]};
                cd_rest := ∅ |})
       "10.0.0.1" Example.w1).2 "S"
  = creds_of Example.w1 "S".
Proof.
  apply (check_auth_failed_stage_records_nothing Example.hs
           [[LoginType.RECAPTCHA]]
           {| cd_auth := Some {[ "type" := VStr LoginType.RECAPTCHA;
                                 "session" := VStr "S" ]};
              cd_rest := ∅ |}
           {[ "type" := VStr LoginType.RECAPTCHA; "session" := VStr "S" ]}
           "10.0.0.1" LoginType.RECAPTCHA (_check_recaptcha Example.hs)
           400 "Captcha response is required" Codes.CAPTCHA_NEEDED
           Example.w1 example_w1_wf eq_refl).
  - vm_compute. reflexivity.
  - reflexivity.
  - intros w0. vm_compute. reflexivity.
Defined.

(** X7: a request without [auth] block, or with an empty one, is answered
    with the description of the flows and a new session; the answer has
    the entries ['session'], ['flows'] and ['params'] and no other, the
    client parameters are handed back, and no flow is evaluated. *)
Theorem check_auth_probe hs flows cd clientip w sid rest :
  auth_block (Some cd) = None →
  fresh_session_id (entropy w) (sessions w) = Some (sid, rest) →
  ∃ w',
    check_auth hs flows (Some cd) clientip w
    = (Ok (false, _auth_dict_for_flows hs flows (new_session sid),
           cd_rest cd, sid), w')
    ∧ dom (_auth_dict_for_flows hs flows (new_session sid))
      = ({[ "session"; "flows"; "params" ]} : gset string)
    ∧ sessions w !! sid = None
    ∧ creds_of w' sid = ∅.
Proof.
  intros Hauth Hfresh.
  assert (get_session_id (Some cd) = VNone ∨
          ∃ a, cd_auth cd = Some a ∧ size a = 0%nat) as Hsid.
  { unfold auth_block, get_session_id in *. simpl in *.
    destruct (cd_auth cd) as [a|]; [|by left].
    destruct (Nat.eqb_spec (size a) 0) as [Hz|]; [|done].
    right. eauto. }
  assert (_get_session_info
            (match Some cd ≫= cd_auth with
             | Some a => dict_get a "session"
             | None => VNone
             end) w
          = (Ok (new_session sid),
             with_sessions (insert sid (new_session sid))
               (with_entropy rest w))) as Hget.
  { simpl. destruct (cd_auth cd) as [a|] eqn:Ha.
    - destruct Hsid as [Hs|(a' & [= <-] & Hz)].
      + unfold get_session_id in Hs. simpl in Hs. rewrite Ha in Hs.
        rewrite Hs. by apply get_session_info_new.
      + apply map_size_empty_iff in Hz. subst a.
        replace (dict_get ∅ "session") with VNone by done.
        by apply get_session_info_new.
    - by apply get_session_info_new. }
  assert (sessions w !! sid = None) as Hnone
    by (by apply fresh_session_id_spec in Hfresh as [? _]).
  unfold check_auth. rewrite (bind_Ok _ _ _ _ _ Hget).
  assert (dom (_auth_dict_for_flows hs flows (new_session sid))
          = ({[ "session"; "flows"; "params" ]} : gset string)) as Hdom.
  { unfold _auth_dict_for_flows. rewrite !dom_insert_L, dom_singleton_L.
    set_solver. }
  destruct (stash_clientdict_cases (new_session sid) (cd_rest cd)
              (with_sessions (insert sid (new_session sid))
                 (with_entropy rest w))) as [[Hnz Hst]|[Hz Hst]];
    rewrite (bind_Ok _ _ _ _ _ Hst); simpl;
    unfold auth_block in Hauth; simpl in Hauth.
  - destruct (cd_auth cd) as [a|].
    + destruct (Nat.eqb (size a) 0); [|done].
      eexists. split; [reflexivity|]. split_and!; try done.
      unfold creds_of. simpl. by rewrite !lookup_insert_eq.
    + eexists. split; [reflexivity|]. split_and!; try done.
      unfold creds_of. simpl. by rewrite !lookup_insert_eq.
  - destruct (cd_auth cd) as [a|].
    + destruct (Nat.eqb (size a) 0); [|done].
      eexists. split; [reflexivity|]. split_and!; try done.
      unfold creds_of. simpl. by rewrite lookup_insert_eq.
    + eexists. split; [reflexivity|]. split_and!; try done.
      unfold creds_of. simpl. by rewrite lookup_insert_eq.
Qed.

Lemma check_auth_probe_witness :
  ∃ w',
    check_auth Example.hs [[]; [LoginType.DUMMY]]
      (Some {| cd_auth := None; cd_rest := ∅ |}) "10.0.0.1" Example.w0
    = (Ok (false,
           _auth_dict_for_flows Example.hs [[]; [LoginType.DUMMY]]
             (new_session "AAAA"),
           ∅, "AAAA"), w')
    ∧ dom (_auth_dict_for_flows Example.hs [[]; [LoginType.DUMMY]]
             (new_session "AAAA"))
      = ({[ "session"; "flows"; "params" ]} : gset string)
    ∧ sessions Example.w0 !! "AAAA" = None
    ∧ creds_of w' "AAAA" = ∅.
Proof.
  apply (check_auth_probe Example.hs [[]; [LoginType.DUMMY]]
           {| cd_auth := None; cd_rest := ∅ |} "10.0.0.1" Example.w0
           "AAAA" ["BBBB"]).
  - reflexivity.
  - vm_compute. reflexivity.
Defined.

(** X8: with no client dictionary at all ([None]), [check_auth] fails with
    a [TypeError], after it has created a session. *)
Theorem check_auth_no_clientdict hs flows clientip w sid rest :
  fresh_session_id (entropy w) (sessions w) = Some (sid, rest) →
  ∃ w',
    check_auth hs flows None clientip w = (Raise TypeError, w')
    ∧ sessions w !! sid = None
    ∧ sessions w' = <[sid := new_session sid]> (sessions w).
Proof.
  intros Hfresh. unfold check_auth. simpl.
  rewrite (bind_Ok _ _ _ _ _ (get_session_info_new w sid rest Hfresh)).
  eexists. split; [reflexivity|]. split; [|done].
  by apply fresh_session_id_spec in Hfresh as [? _].
Qed.

Lemma check_auth_no_clientdict_witness :
  ∃ w',
    check_auth Example.hs [[LoginType.DUMMY]] None "10.0.0.1" Example.w0
    = (Raise TypeError, w')
    ∧ sessions Example.w0 !! "AAAA" = None
    ∧ sessions w' = <["AAAA" := new_session "AAAA"]> (sessions Example.w0).
Proof.
  apply (check_auth_no_clientdict Example.hs [[LoginType.DUMMY]] "10.0.0.1"
           Example.w0 "AAAA" ["BBBB"]).
  vm_compute. reflexivity.
Defined.

(** ** Where credentials come from *)

(** The dispatch block either leaves every credential map as it was, or
    records the truthy result of the registered checker under the
    presented stage type in the session of the request. *)
Lemma check_stage_change hs s a ip w r w' :
  check_stage hs s a ip w = (r, w') → in_sync s w →
  same_store w w'
  ∨ ∃ t (checker : Checker) result,
      a !! "type" = Some (VStr t) ∧ checkers hs !! t = Some checker
      ∧ (checker a ip w).1 = Ok result ∧ truthy result = true
      ∧ creds_of w' (id s) !! t = Some result.
Proof.
  intros H Hs. unfold check_stage in H.
  destruct (a !! "type") as [lt|] eqn:Ht;
    [|injection H as <- <-; left; apply same_store_refl].
  destruct (negb (hashable lt));
    [injection H as <- <-; left; apply same_store_refl|].
  destruct lt as [| | |t| |];
    try (injection H as <- <-; left; apply same_store_refl).
  destruct (checkers hs !! t) as [checker|] eqn:Hc;
    [|injection H as <- <-; left; apply same_store_refl].
  pose proof (quiet_checkers hs t checker a ip Hc w) as Hq.
  unfold try_except_LoginError, bind at 1 in H.
  destruct (checker a ip w) as [[result|e|] w1] eqn:Hrun;
    specialize (Hq _ _ eq_refl).
  - destruct (truthy result) eqn:Htr.
    + right. exists t, checker, result. rewrite Hrun. split_and!; try done.
      cbv [record_result bind update_session modify _save_session get ret] in H.
      injection H as <- <-. unfold creds_of. simpl.
      rewrite lookup_insert_eq. simpl. by rewrite lookup_insert_eq.
    + injection H as <- <-. by left.
  - left. destruct e; try (by injection H as <- <-).
    destruct (String.eqb t LoginType.EMAIL_IDENTITY); by injection H as <- <-.
  - left. by injection H as <- <-.
Qed.

(** X9: credentials are not made up.  If a call of [check_auth] changes
    an entry of a credential map, the entry is the one of the presented
    stage type in the session of the request, the checker registered for
    that type has returned a result that counts as true, and the entry is
    that result. *)
Theorem check_auth_credentials_sound hs flows clientdict0 clientip w r w'
    sid stage :
  sessions_wf w →
  check_auth hs flows clientdict0 clientip w = (r, w') →
  creds_of w' sid !! stage ≠ creds_of w sid !! stage →
  ∃ a (checker : Checker) result w0,
    auth_block clientdict0 = Some a
    ∧ a !! "type" = Some (VStr stage)
    ∧ request_session clientdict0 w = Some sid
    ∧ checkers hs !! stage = Some checker
    ∧ (checker a clientip w0).1 = Ok result
    ∧ truthy result = true
    ∧ creds_of w' sid !! stage = Some result.
Proof.
  intros Hwf H Hchange.
  (* outside of the presented entry nothing changes *)
  destruct (decide (request_session clientdict0 w = Some sid
                    ∧ auth_block clientdict0 ≫= presented = Some stage))
    as [[Hreq Hpres]|Hn];
    [|by destruct Hchange; eapply check_auth_frame_at].
  destruct (auth_block clientdict0) as [a|] eqn:Hauth; [|done].
  simpl in Hpres.
  assert (a !! "type" = Some (VStr stage)) as Ht.
  { unfold presented in Hpres.
    destruct (a !! "type") as [[| | |t| |]|]; try done. by injection Hpres as ->. }
  unfold check_auth in H.
  apply bind_inv in H as [(s & w1 & Hget & H)|[(e & Hget & _)|[Hget _]]].
  2,3: destruct Hchange;
       by apply (get_session_info_frame nothing _ _ _ _ Hget); intros [].
  destruct (get_session_info_spec _ _ _ _ Hget Hwf) as (Hwf1 & _ & _ & _ & _ & Hs1).
  specialize (Hs1 _ eq_refl).
  assert (id s = sid) as Hsid.
  { unfold request_session, get_session_id in Hreq. rewrite Hget in Hreq.
    by injection Hreq. }
  pose proof (get_session_info_frame nothing _ _ _ _ Hget) as Hf1.
  destruct clientdict0 as [cd|]; [|done].
  destruct (stash_clientdict_spec s (cd_rest cd) w1)
    as (s2 & c & w2 & Hstash & _ & _ & _ & Hstep2).
  rewrite (bind_Ok _ _ _ _ _ Hstash) in H.
  destruct (Hstep2 Hwf1 Hs1) as (Hid2 & Hs2 & Hwf2 & _).
  pose proof (stash_clientdict_frame nothing _ _ _ _ _ Hstash Hs1) as Hf2.
  unfold auth_block in Hauth. simpl in H, Hauth.
  destruct (cd_auth cd) as [a'|]; [|done].
  destruct (Nat.eqb (size a') 0); [done|]. injection Hauth as ->.
  destruct (ensure_creds_spec s2 w2) as (s3 & w3 & Hens & _ & _ & Hstep3).
  rewrite (bind_Ok _ _ _ _ _ Hens) in H.
  destruct (Hstep3 Hwf2 Hs2) as (Hid3 & Hs3 & Hwf3 & _).
  pose proof (ensure_creds_frame nothing _ _ _ _ Hens Hs2) as Hf3.
  assert (creds_of w3 sid !! stage = creds_of w sid !! stage) as Hpre.
  { rewrite (Hf3 sid stage), (Hf2 sid stage), (Hf1 sid stage); by try intros []. }
  assert (∃ rs, check_stage hs s3 a clientip w3 = (rs, w')) as [rs Hst].
  { apply bind_inv in H as [([s4 ed] & w4 & Hst & H)|[(e & Hst & _)|[Hst _]]];
      [injection H as <- <-|..]; eauto. }
  destruct (check_stage_change _ _ _ _ _ _ _ Hst Hs3)
    as [(Hsame & _)|(t & checker & result & Ht' & Hc & Hok & Htr & Hnew)].
  - destruct Hchange. unfold creds_of in *. by rewrite Hsame.
  - rewrite Ht in Ht'. injection Ht' as <-.
    exists a, checker, result, w3. split_and!; try done.
    by rewrite <- Hsid, <- Hid2, <- Hid3.
Qed.

Lemma check_auth_credentials_sound_witness :
  ∃ a (checker : Checker) result w0,
    auth_block (Example.request {[ "type" := VStr LoginType.DUMMY ]}) = Some a
    ∧ a !! "type" = Some (VStr LoginType.DUMMY)
    ∧ request_session (Example.request {[ "type" := VStr LoginType.DUMMY ]})
        Example.w0 = Some "AAAA"
    ∧ checkers Example.hs !! LoginType.DUMMY = Some checker
    ∧ (checker a "10.0.0.1" w0).1 = Ok result
    ∧ truthy result = true
    ∧ creds_of
        (check_auth Example.hs [[LoginType.DUMMY]]
           (Example.request {[ "type" := VStr LoginType.DUMMY ]})
           "10.0.0.1" Example.w0).2 "AAAA" !! LoginType.DUMMY
      = Some result.
Proof.
  apply (check_auth_credentials_sound Example.hs [[LoginType.DUMMY]]
           (Example.request {[ "type" := VStr LoginType.DUMMY ]})
           "10.0.0.1" Example.w0 _ _ "AAAA" LoginType.DUMMY
           example_w0_wf (surjective_pairing _)).
  vm_compute. discriminate.
Defined.

(** ** What the success of a checker means *)

(** X10: the email and the phone checker return a record only if the
    request has [threepid_creds] and the identity server resolves them to
    a record of the expected medium; the result is that record with the
    submitted [threepid_creds] attached.  Without [threepid_creds] the
    identity server is not asked. *)
Theorem check_threepid_sound hs medium authdict w :
  (authdict !! "threepid_creds" = None →
   _check_threepid hs medium authdict w
   = (Raise (LoginError 400 "Missing threepid_creds" Codes.MISSING_PARAM), w))
  ∧ (∀ v w',
       _check_threepid hs medium authdict w = (Ok v, w') →
       ∃ threepid_creds d,
         authdict !! "threepid_creds" = Some threepid_creds
         ∧ threepid_from_creds hs threepid_creds = VDict d
         ∧ d !! "medium" = Some (VStr medium)
         ∧ v = VDict (<["threepid_creds" := threepid_creds]> d)
         ∧ dict_get (<["threepid_creds" := threepid_creds]> d) "medium"
           = VStr medium
         ∧ w' = with_call (CallIdentity threepid_creds) w).
Proof.
  split.
  - intros Hn. unfold _check_threepid. by rewrite Hn.
  - intros v w' H. unfold _check_threepid in H.
    destruct (authdict !! "threepid_creds") as [tc|]; [|done].
    cbv [bind call modify] in H.
    destruct (threepid_from_creds hs tc) as [|b|z|s|l|d] eqn:Htp;
      try (destruct (truthy _); done).
    destruct (truthy (VDict d)); [|done]. simpl in H.
    destruct (d !! "medium") as [got|] eqn:Hm; [|done].
    destruct got as [| | |m| |]; try done. simpl in H.
    destruct (String.eqb_spec m medium) as [->|]; [|done]. simpl in H.
    injection H as <- <-. exists tc, d. split_and!; try done.
    unfold dict_get. rewrite lookup_insert_ne; [|done]. by rewrite Hm.
Qed.

Lemma check_threepid_sound_witness :
  let threepid : gmap string Value :=
    {[ "medium" := VStr "email"; "address" := VStr "alice@example.org" ]} in
  ∃ threepid_creds d,
    ({[ "threepid_creds" := VStr "sid-1" ]} : gmap string Value)
      !! "threepid_creds" = Some threepid_creds
    ∧ threepid_from_creds (hs_with_threepid (VDict threepid)) threepid_creds
      = VDict d
    ∧ d !! "medium" = Some (VStr "email").
Proof.
  intros threepid.
  assert (_check_threepid (hs_with_threepid (VDict threepid)) "email"
            {[ "threepid_creds" := VStr "sid-1" ]} Example.w0
          = (Ok (VDict (<["threepid_creds" := VStr "sid-1"]> threepid)),
             with_call (CallIdentity (VStr "sid-1")) Example.w0)) as Hrun
    by (vm_compute; reflexivity).
  destruct (proj2 (check_threepid_sound _ _ _ _) _ _ Hrun)
    as (tc & d & Htc & Hd & Hm & _).
  exists tc, d. split_and!; [exact Htc|exact Hd|exact Hm].
Defined.

(** X11: the captcha checker returns only [True], and only if the request
    has a [response] for which the verification service reports success;
    without [response] it fails with [CAPTCHA_NEEDED] and the service is
    not asked; with a [response] that the service does not confirm it
    fails with [UNAUTHORIZED]. *)
Theorem check_recaptcha_sound hs authdict clientip w :
  (authdict !! "response" = None →
   _check_recaptcha hs authdict clientip w
   = (Raise (LoginError 400 "Captcha response is required"
               Codes.CAPTCHA_NEEDED), w))
  ∧ (∀ user_response,
       authdict !! "response" = Some user_response →
       let confirmed :=
         truthy (dict_get (recaptcha_siteverify hs user_response clientip)
                   "success") in
       _check_recaptcha hs authdict clientip w
       = (if confirmed then Ok (VBool true)
          else Raise (LoginError 401 "" Codes.UNAUTHORIZED),
          with_call (CallRecaptcha user_response clientip) w)).
Proof.
  split.
  - intros Hn. unfold _check_recaptcha. by rewrite Hn.
  - intros resp Hr confirmed. unfold _check_recaptcha. rewrite Hr.
    cbv [bind call modify]. unfold confirmed, dict_get.
    destruct (recaptcha_siteverify hs resp clientip !! "success") as [s|];
      simpl; [|done].
    by destruct (truthy s).
Qed.

Lemma check_recaptcha_sound_witness :
  _check_recaptcha Example.hs {[ "type" := VStr LoginType.RECAPTCHA ]}
    "10.0.0.1" Example.w0
  = (Raise (LoginError 400 "Captcha response is required"
              Codes.CAPTCHA_NEEDED), Example.w0)
  ∧ _check_recaptcha Example.hs {[ "response" := VStr "03AHJ" ]}
      "10.0.0.1" Example.w0
    = (Raise (LoginError 401 "" Codes.UNAUTHORIZED),
       with_call (CallRecaptcha (VStr "03AHJ") "10.0.0.1") Example.w0).
Proof.
  split.
  - apply (check_recaptcha_sound Example.hs). vm_compute. reflexivity.
  - apply (proj2 (check_recaptcha_sound Example.hs
                    {[ "response" := VStr "03AHJ" ]} "10.0.0.1" Example.w0)
             (VStr "03AHJ")).
    vm_compute. reflexivity.
Defined.

(** ** The description of the flows *)

Lemma get_params_lookup hs stage :
  get_params hs !! stage
  = if decide (stage = LoginType.RECAPTCHA) then Some (_get_params_recaptcha hs)
    else None.
Proof.
  unfold get_params. case_decide as Hd.
  - subst. by rewrite lookup_singleton_eq.
  - by rewrite lookup_singleton_ne.
Qed.

(** The parameters after the stages of one flow. *)
Lemma params_of_flow hs (f : list string) (params : gmap string Value) :
  (params = ∅ ∨ params = {[ LoginType.RECAPTCHA := _get_params_recaptcha hs ]}) →
  foldl (λ params stage,
           match get_params hs !! stage with
           | Some p => if has_key params stage then params
                       else <[stage := p]> params
           | None => params
           end) params f
  = if bool_decide (params = ∅) && negb (bool_decide (LoginType.RECAPTCHA ∈ f))
    then ∅ else {[ LoginType.RECAPTCHA := _get_params_recaptcha hs ]}.
Proof.
  revert params. induction f as [|stage f IH]; intros params Hp; simpl.
  - destruct Hp as [->| ->].
    + by rewrite bool_decide_eq_true_2.
    + rewrite bool_decide_eq_false_2; [done|].
      intros H. apply (f_equal (lookup LoginType.RECAPTCHA)) in H.
      by rewrite lookup_singleton_eq, lookup_empty in H.
  - rewrite get_params_lookup.
    destruct (decide (stage = LoginType.RECAPTCHA)) as [->|Hs].
    + rewrite (bool_decide_eq_true_2 (LoginType.RECAPTCHA ∈ _));
        [|apply list_elem_of_here].
      rewrite andb_false_r.
      destruct Hp as [->| ->].
      * replace (has_key (∅ : gmap string Value) LoginType.RECAPTCHA) with false
          by (symmetry; by apply has_key_false).
        rewrite insert_empty. rewrite IH; [|by right].
        rewrite bool_decide_eq_false_2; [done|].
        intros H. apply (f_equal (lookup LoginType.RECAPTCHA)) in H.
        by rewrite lookup_singleton_eq, lookup_empty in H.
      * replace (has_key _ LoginType.RECAPTCHA) with true
          by (symmetry; apply has_key_true; rewrite lookup_singleton_eq; eauto).
        rewrite IH; [|by right].
        rewrite bool_decide_eq_false_2; [done|].
        intros H. apply (f_equal (lookup LoginType.RECAPTCHA)) in H.
        by rewrite lookup_singleton_eq, lookup_empty in H.
    + rewrite IH; [|done].
      destruct (bool_decide (params = ∅)); simpl; [|done].
      destruct (decide (LoginType.RECAPTCHA ∈ f)) as [Hin|Hnin].
      * rewrite !bool_decide_eq_true_2; [done| |done].
        by apply list_elem_of_further.
      * rewrite !bool_decide_eq_false_2; [done| |done].
        intros [?|?]%elem_of_cons; done.
Qed.

(** X12: the description of the flows has the session id, the flows in the
    order they are offered, and the public key of the captcha service as
    the only parameter, present exactly when some flow has the captcha
    stage. *)
Theorem auth_dict_for_flows_spec hs flows session :
  _auth_dict_for_flows hs flows session
  = {[ "session" := VStr (id session);
       "flows" :=
         VList ((λ f, VDict {[ "stages" := VList (VStr <$> f) ]}) <$> flows);
       "params" :=
         VDict (if existsb (λ f, bool_decide (LoginType.RECAPTCHA ∈ f)) flows
                then {[ LoginType.RECAPTCHA :=
                          VDict {[ "public_key" := recaptcha_public_key hs ]} ]}
                else ∅) ]}.
Proof.
  unfold _auth_dict_for_flows. do 4 f_equal.
  assert (∀ params,
            params = ∅
            ∨ params = {[ LoginType.RECAPTCHA := _get_params_recaptcha hs ]} →
            foldl (λ params f,
                     foldl (λ params stage,
                              match get_params hs !! stage with
                              | Some p => if has_key params stage then params
                                          else <[stage := p]> params
                              | None => params
                              end) params f) params flows
            = if bool_decide (params = ∅)
                 && negb (existsb (λ f, bool_decide (LoginType.RECAPTCHA ∈ f))
                            flows)
              then ∅
              else {[ LoginType.RECAPTCHA := _get_params_recaptcha hs ]}) as Hfold.
  { induction flows as [|f flows IH]; intros params Hp; simpl.
    - destruct Hp as [->| ->].
      + by rewrite bool_decide_eq_true_2.
      + rewrite bool_decide_eq_false_2; [done|].
        intros H. apply (f_equal (lookup LoginType.RECAPTCHA)) in H.
        by rewrite lookup_singleton_eq, lookup_empty in H.
    - rewrite (params_of_flow hs f params Hp). rewrite IH.
      + destruct (bool_decide (params = ∅)) eqn:He; simpl.
        * destruct (bool_decide (LoginType.RECAPTCHA ∈ f)); simpl.
          -- rewrite bool_decide_eq_false_2; [done|].
             intros H. apply (f_equal (lookup LoginType.RECAPTCHA)) in H.
             by rewrite lookup_singleton_eq, lookup_empty in H.
          -- by rewrite bool_decide_eq_true_2.
        * rewrite bool_decide_eq_false_2; [done|].
          intros H. apply (f_equal (lookup LoginType.RECAPTCHA)) in H.
          by rewrite lookup_singleton_eq, lookup_empty in H.
      + destruct (bool_decide (params = ∅) && _); auto. }
  rewrite (Hfold ∅); [|by left].
  rewrite bool_decide_eq_true_2; [|done]. simpl.
  by destruct (existsb _ flows).
Qed.

(** ** Data kept on a session *)

(** X13: what [set_session_data] stores under a key of a live session,
    [get_session_data] finds again; the other keys and the credentials of
    the session are as before. *)
Theorem session_data_roundtrip session_id key value dflt w s :
  sessions_wf w → sessions w !! session_id = Some s → session_id ≠ "" →
  ∃ w1,
    set_session_data session_id key value w = (Ok tt, w1)
    ∧ (get_session_data session_id key dflt w1).1 = Ok value
    ∧ (∀ key', key' ≠ key →
         (get_session_data session_id key' dflt w1).1
         = (get_session_data session_id key' dflt w).1)
    ∧ creds_of w1 session_id = creds_of w session_id.
Proof.
  intros Hwf Hs Hne. pose proof (Hwf _ _ Hs) as Hid.
  unfold set_session_data.
  rewrite (bind_Ok _ _ _ _ _ (get_session_info_live _ _ _ Hs Hne)).
  eexists. split.
  { cbv [bind update_session modify _save_session get ret]. reflexivity. }
  assert (∀ k,
            (get_session_data session_id k dflt w).1
            = Ok (default dflt (default ∅ (serverdict s) !! k))) as Hbefore.
  { intros k. unfold get_session_data.
    by rewrite (bind_Ok _ _ _ _ _ (get_session_info_live _ _ _ Hs Hne)). }
  assert (∀ k w1 s1,
            sessions w1 !! session_id = Some s1 →
            (get_session_data session_id k dflt w1).1
            = Ok (default dflt (default ∅ (serverdict s1) !! k))) as Hafter.
  { intros k w1 s1 Hs1. unfold get_session_data.
    by rewrite (bind_Ok _ _ _ _ _ (get_session_info_live _ _ _ Hs1 Hne)). }
  split_and!.
  - erewrite Hafter; [|simpl; rewrite Hid; apply lookup_insert_eq].
    simpl. by rewrite lookup_insert_eq.
  - intros key' Hk. rewrite Hbefore.
    erewrite Hafter; [|simpl; rewrite Hid; apply lookup_insert_eq].
    simpl. by rewrite lookup_insert_ne.
  - unfold creds_of. simpl. rewrite Hid, lookup_insert_eq. simpl.
    by rewrite Hs.
Qed.

Lemma session_data_roundtrip_witness :
  ∃ w1,
    set_session_data "S" "registered_user_id" (VStr "@alice:example.org")
      Example.w1 = (Ok tt, w1)
    ∧ (get_session_data "S" "registered_user_id" VNone w1).1
      = Ok (VStr "@alice:example.org")
    ∧ (∀ key', key' ≠ "registered_user_id" →
         (get_session_data "S" key' VNone w1).1
         = (get_session_data "S" key' VNone Example.w1).1)
    ∧ creds_of w1 "S" = creds_of Example.w1 "S".
Proof.
  apply (session_data_roundtrip "S" "registered_user_id"
           (VStr "@alice:example.org") VNone Example.w1 Example.done_session
           example_w1_wf).
  - vm_compute. reflexivity.
  - discriminate.
Defined.




(** ** Results obtained out of band *)

(** X15: [add_oob_auth] needs the ['session'] entry: without it, it fails
    with [MISSING_PARAM] and touches nothing.  With it, the checker of
    the stage type decides: a result that counts as true is recorded under
    the stage type and the answer is [True]; any other result leaves the
    credentials alone and the answer is [False]; an error of the checker,
    a [LoginError] included, is passed on and nothing is recorded. *)
Theorem add_oob_auth_spec hs stagetype (checker : Checker) authdict clientip
    w rc :
  sessions_wf w →
  checkers hs !! stagetype = Some checker →
  (∀ w0, (checker authdict clientip w0).1 = rc) →
  (authdict !! "session" = None →
   add_oob_auth hs stagetype authdict clientip w
   = (Raise (LoginError 400 "" Codes.MISSING_PARAM), w))
  ∧ (∀ sid s w1,
       authdict !! "session" = Some sid →
       _get_session_info sid w = (Ok s, w1) →
       let run := add_oob_auth hs stagetype authdict clientip w in
       match rc with
       | Ok result =>
           if truthy result then
             run.1 = Ok true
             ∧ creds_of run.2 (id s)
               = <[stagetype := result]> (creds_of w (id s))
           else run.1 = Ok false ∧ ∀ k, creds_of run.2 k = creds_of w k
       | Raise e => run.1 = Raise e ∧ ∀ k, creds_of run.2 k = creds_of w k
       | Diverge => run.1 = Diverge
       end).
Proof.
  intros Hwf Hc Hrc. split.
  - intros Hn. unfold add_oob_auth. by rewrite Hc, Hn.
  - intros sid s w1 Hsid Hget run. unfold run, add_oob_auth.
    rewrite Hc, Hsid. rewrite (bind_Ok _ _ _ _ _ Hget).
    destruct (get_session_info_spec _ _ _ _ Hget Hwf)
      as (Hwf1 & _ & _ & _ & _ & Hs1).
    specialize (Hs1 _ eq_refl).
    pose proof (get_session_info_frame nothing _ _ _ _ Hget) as Hf1.
    destruct (ensure_creds_spec s w1) as (s2 & w2 & Hens & Hc2 & _ & Hstep2).
    rewrite (bind_Ok _ _ _ _ _ Hens).
    destruct (Hstep2 Hwf1 Hs1) as (Hid2 & Hs2 & Hwf2 & _).
    pose proof (ensure_creds_frame nothing _ _ _ _ Hens Hs1) as Hf2.
    pose proof (quiet_checkers hs stagetype checker authdict clientip Hc w2)
      as Hq.
    assert (∀ w3, same_store w2 w3 → ∀ k, creds_of w3 k = creds_of w k)
      as Hsame.
    { intros w3 (Heq & _) k. apply map_eq. intros stage.
      transitivity (creds_of w2 k !! stage).
      - unfold creds_of. by rewrite Heq.
      - rewrite (Hf2 k stage), (Hf1 k stage); by try intros []. }
    specialize (Hrc w2).
    destruct (checker authdict clientip w2) as [rc' w3] eqn:Hrun.
    simpl in Hrc. subst rc'. specialize (Hq _ _ eq_refl).
    destruct rc as [result|e|].
    2:{ rewrite (bind_Raise _ _ _ _ _ Hrun). split; [done|by apply Hsame]. }
    2:{ by rewrite (bind_Diverge _ _ _ _ Hrun). }
    rewrite (bind_Ok _ _ _ _ _ Hrun).
    destruct (truthy result) eqn:Htr; [|split; [done|by apply Hsame]].
    destruct (record_result_spec s2 stagetype result w3)
      as (s4 & w4 & Hrec & Hc4 & _ & Hstep4).
    rewrite (bind_Ok _ _ _ _ _ Hrec). simpl. split; [done|].
    destruct (Hstep4 (same_store_wf _ _ Hq Hwf2)
                (same_store_in_sync _ _ _ Hq Hs2)) as (Hid4 & Hs4 & _).
    rewrite (creds_of_resolved _ _ _ _ Hwf Hget).
    unfold creds_of. rewrite <- Hid2, <- Hid4. unfold in_sync in Hs4.
    rewrite Hs4. simpl. by rewrite Hc4, Hc2.
Qed.

Lemma add_oob_auth_spec_witness :
  let run :=
    add_oob_auth Example.hs LoginType.DUMMY {[ "session" := VStr "S" ]}
      "10.0.0.1" Example.w1 in
  run.1 = Ok true
  ∧ creds_of run.2 "S"
    = <[LoginType.DUMMY := VBool true]> (creds_of Example.w1 "S").
Proof.
  apply (proj2 (add_oob_auth_spec Example.hs LoginType.DUMMY _check_dummy_auth
                  {[ "session" := VStr "S" ]} "10.0.0.1" Example.w1
                  (Ok (VBool true)) example_w1_wf eq_refl (λ _, eq_refl))
           (VStr "S") Example.done_session Example.w1).
  - vm_compute. reflexivity.
  - vm_compute. reflexivity.
Defined.

(** ** Who can log in *)

Lemma provider_check_password_Some i p q lt pw known w res k w' :
  provider_check_password i p q lt pw known w = (Ok (Some res, k), w') →
  ∃ cp, Provider.check_password p = Some cp
        ∧ is_str lt LoginType.PASSWORD = true
        ∧ cp q pw = true ∧ res = (q, None).
Proof.
  unfold provider_check_password.
  destruct (Provider.check_password p) as [cp|]; [|done].
  destruct (is_str lt LoginType.PASSWORD); [|done].
  cbv [bind call modify ret]. destruct (cp q pw) eqn:Hcp; [|done].
  intros [= <- _ _]. by exists cp.
Qed.

Lemma provider_check_auth_Some i p u lt sub known w res k w' :
  provider_check_auth i p u lt sub known w = (Ok (Some res, k), w') →
  accepted_by_check_auth p u lt sub res.
Proof.
  unfold provider_check_auth, accepted_by_check_auth.
  destruct (Provider.get_supported_login_types p) as [types|]; [|done].
  destruct (Provider.check_auth p) as [chk|]; [|done].
  cbv [bind call modify]. destruct (hashable lt); [|done]. simpl.
  destruct lt as [| | |t| |]; try done.
  destruct (types !! t) as [fields|] eqn:Hf; [|done].
  destruct (collect_fields fields sub [] ∅) as [missing login_dict] eqn:Hcol.
  destruct missing; [|done].
  destruct (chk u (VStr t) login_dict) as [|result|uid cb] eqn:Hchk; [done| |].
  - destruct (String.eqb_spec result ""); [done|].
    intros [= <- _ _]. exists types, chk, t, fields, login_dict.
    split_and!; try done. right. by rewrite Hchk.
  - intros [= <- _ _]. exists types, chk, t, fields, login_dict.
    split_and!; try done. left. by rewrite Hchk.
Qed.

Lemma providers_loop_Some providers : ∀ i u q lt pw sub known w res k w',
  providers_loop i providers u q lt pw sub known w = (Ok (Some res, k), w') →
  ∃ p, p ∈ providers
       ∧ ((∃ cp, Provider.check_password p = Some cp
                 ∧ is_str lt LoginType.PASSWORD = true
                 ∧ cp q pw = true ∧ res = (q, None))
          ∨ accepted_by_check_auth p u lt sub res).
Proof.
  induction providers as [|p rest IH]; intros i u q lt pw sub known w res k w' H;
    [done|].
  simpl in H.
  apply bind_inv in H as [([res1 k1] & w1 & H1 & H)|[(e & _ & ?)|[_ ?]]];
    [|done..].
  destruct res1 as [res1|].
  { injection H as <- <- <-. exists p. split; [apply list_elem_of_here|].
    left. by eapply provider_check_password_Some. }
  apply bind_inv in H as [([res2 k2] & w2 & H2 & H)|[(e & _ & ?)|[_ ?]]];
    [|done..].
  destruct res2 as [res2|].
  { injection H as <- <- <-. exists p. split; [apply list_elem_of_here|].
    right. by eapply provider_check_auth_Some. }
  apply IH in H as (p' & Hin & Hp'). exists p'.
  split; [by apply list_elem_of_further|done].
Qed.

Lemma popitem_lookup {A} (d : gmap string A) k v :
  popitem d = Some (k, v) → d !! k = Some v.
Proof.
  unfold popitem. intros H. apply elem_of_map_to_list.
  destruct (map_to_list d) as [|kv l]; [done|].
  injection H as ->. apply list_elem_of_here.
Qed.

Lemma check_local_password_Some hs user_id password w canonical w' :
  _check_local_password hs user_id password w = (Ok (Some canonical), w') →
  ∃ p stored,
    password = VStr p
    ∧ get_users_by_id_case_insensitive hs user_id !! canonical
      = Some (Some stored)
    ∧ stored ≠ ""
    ∧ bcrypt_hashpw hs (encode_utf8 p ++ password_pepper hs)
        (encode_utf8 stored) = stored.
Proof.
  unfold _check_local_password, _find_user_id_and_pwd_hash.
  cbv [bind call modify ret].
  set (user_infos := get_users_by_id_case_insensitive hs user_id).
  destruct (Nat.eqb (size user_infos) 0); [done|].
  destruct (if Nat.eqb (size user_infos) 1 then popitem user_infos
            else match user_infos !! user_id with
                 | Some password_hash => Some (user_id, password_hash)
                 | None => None
                 end) as [[uid ph]|] eqn:Hfind; [|done].
  assert (user_infos !! uid = Some ph) as Hl.
  { destruct (Nat.eqb (size user_infos) 1).
    - by apply popitem_lookup.
    - destruct (user_infos !! user_id) eqn:He; [|done].
      by injection Hfind as <- <-. }
  unfold validate_hash.
  destruct ph as [stored|]; [|done].
  destruct (String.eqb_spec stored "") as [|Hne]; [done|]. simpl.
  destruct password as [| | |p| |]; try done. unfold ret.
  destruct (String.eqb_spec
              (bcrypt_hashpw hs (encode_utf8 p ++ password_pepper hs)
                 (encode_utf8 stored)) stored) as [Heq|]; [|done].
  simpl. intros [= <- _]. by exists p, stored.
Qed.

(** X16: nobody is logged in without evidence.  When [validate_login]
    returns a user id, either a provider has accepted the password by its
    [check_password] (the id is then the qualified user name), or a
    provider that declares the login type has accepted the login by its
    [check_auth], or the login type is the password type and the store
    holds, for the id returned, a hash that bcrypt reproduces from the
    submitted password and the pepper.  For the password type, password
    login is enabled and the password is not empty. *)
Theorem validate_login_sound hs username login_submission w user_id callback
    w' :
  validate_login hs username login_submission w
  = (Ok (user_id, callback), w') →
  let lt := dict_get login_submission "type" in
  let password := dict_get login_submission "password" in
  (is_str lt LoginType.PASSWORD = true →
   password_enabled hs = true ∧ truthy password = true)
  ∧ ((∃ p cp,
         p ∈ password_providers hs
         ∧ Provider.check_password p = Some cp
         ∧ is_str lt LoginType.PASSWORD = true
         ∧ cp (qualify hs username) password = true
         ∧ user_id = qualify hs username ∧ callback = None)
     ∨ (∃ p,
         p ∈ password_providers hs
         ∧ accepted_by_check_auth p username lt login_submission
             (user_id, callback))
     ∨ (is_str lt LoginType.PASSWORD = true ∧ callback = None
        ∧ ∃ p stored,
            password = VStr p
            ∧ get_users_by_id_case_insensitive hs (qualify hs username)
                !! user_id = Some (Some stored)
            ∧ stored ≠ ""
            ∧ bcrypt_hashpw hs (encode_utf8 p ++ password_pepper hs)
                (encode_utf8 stored) = stored)).
Proof.
  intros H lt password. unfold validate_login in H. fold lt password in H.
  split.
  { intros Hpw. rewrite Hpw in H. simpl in H.
    destruct (password_enabled hs); [|done].
    destruct (truthy password); done. }
  destruct (is_str lt LoginType.PASSWORD && negb (password_enabled hs));
    [done|].
  destruct (is_str lt LoginType.PASSWORD && negb (truthy password)); [done|].
  apply bind_inv in H as [([res k] & w1 & Hloop & H)|[(e & _ & ?)|[_ ?]]];
    [|done..].
  destruct res as [res|].
  { injection H as -> <-.
    apply providers_loop_Some in Hloop as (p & Hin & [Hcp|Hca]).
    - destruct Hcp as (cp & Hc & Hpw & Hv & [= -> ->]). left.
      by exists p, cp.
    - right. left. by exists p. }
  destruct (is_str lt LoginType.PASSWORD) eqn:Hpw.
  2:{ cbv [bind ret] in H. by destruct k. }
  apply bind_inv in H as [([res2 k2] & w2 & Hlocal & H)|[(e & _ & ?)|[_ ?]]];
    [|done..].
  destruct res2 as [res2|]; [|by destruct (negb k2)].
  injection H as -> <-.
  apply bind_inv in Hlocal as [(c & w3 & Hl & Hr)|[(e & _ & ?)|[_ ?]]];
    [|done..].
  destruct c as [c|]; [|done].
  destruct (String.eqb c ""); [done|]. injection Hr as <- <- _ _.
  apply check_local_password_Some in Hl as (p & stored & Hp & Hs & Hne & Hh).
  right. right. split_and!; try done. by exists p, stored.
Qed.

Lemma validate_login_sound_witness :
  let hs :=
    hs_with_users
      {[ "@Alice:example.org" := Some (hash Example.hs "r4nd0m" "secret") ]} in
  let submission : gmap string Value :=
    {[ "type" := VStr LoginType.PASSWORD; "password" := VStr "secret" ]} in
  (validate_login hs "alice" submission Example.w0).1
  = Ok ("@Alice:example.org", None)
  ∧ bcrypt_hashpw hs ("secret" ++ password_pepper hs)
      (hash Example.hs "r4nd0m" "secret")
    = hash Example.hs "r4nd0m" "secret".
Proof.
  intros hs submission.
  assert (validate_login hs "alice" submission Example.w0
          = (Ok ("@Alice:example.org", None),
             with_call (CallStore "@alice:example.org") Example.w0)) as Hrun
    by (vm_compute; reflexivity).
  split; [by rewrite Hrun|].
  destruct (validate_login_sound hs "alice" submission Example.w0
              "@Alice:example.org" None _ Hrun)
    as [_ [(p & cp & Hin & _)|[(p & Hin & _)|(_ & _ & p & stored & Hp & Hs & _ & Hh)]]].
  - by apply not_elem_of_nil in Hin.
  - by apply not_elem_of_nil in Hin.
  - vm_compute in Hp. injection Hp as <-.
    vm_compute in Hs. injection Hs as <-. exact Hh.
Defined.

(** X17: providers come first.  When the first provider has
    [check_password] and accepts the password, [validate_login] returns
    the qualified user name without callback, and that provider's
    [check_password] is the only collaborator called: the local store is
    not consulted. *)
Theorem validate_login_provider_first hs username login_submission w p rest
    cp :
  password_providers hs = p :: rest →
  Provider.check_password p = Some cp →
  is_str (dict_get login_submission "type") LoginType.PASSWORD = true →
  password_enabled hs = true →
  truthy (dict_get login_submission "password") = true →
  cp (qualify hs username) (dict_get login_submission "password") = true →
  validate_login hs username login_submission w
  = (Ok (qualify hs username, None),
     with_call (CallCheckPassword 0 (qualify hs username)
                  (dict_get login_submission "password")) w).
Proof.
  intros Hp Hcp Hpw Hen Htr Hok. unfold validate_login.
  rewrite Hpw, Hen, Htr, Hp. simpl.
  unfold provider_check_password. rewrite Hcp, Hpw.
  cbv [bind call modify ret]. by rewrite Hok.
Qed.

Lemma validate_login_provider_first_witness :
  let p := {| Provider.check_password := Some (λ _ pw, is_str pw "letmein");
              Provider.get_supported_login_types := None;
              Provider.check_auth := None |} in
  validate_login (Example.make true [p] ∅) "alice"
    {[ "type" := VStr LoginType.PASSWORD; "password" := VStr "letmein" ]}
    Example.w0
  = (Ok ("@alice:example.org", None),
     with_call (CallCheckPassword 0 "@alice:example.org" (VStr "letmein"))
       Example.w0).
Proof.
  intros p.
  refine (eq_trans
            (validate_login_provider_first (Example.make true [p] ∅) "alice"
               {[ "type" := VStr LoginType.PASSWORD;
                  "password" := VStr "letmein" ]}
               Example.w0 p [] (λ _ pw, is_str pw "letmein") _ _ _ _ _ _) _);
    reflexivity.
Defined.



(** X19: an account without password hash, or with an empty one, cannot
    log in locally: whatever is submitted as password, the local check
    answers [None], and bcrypt is not given anything to hash. *)
Theorem check_local_password_no_hash hs user_id password w canonical stored :
  get_users_by_id_case_insensitive hs user_id = {[ canonical := stored ]} →
  stored = None ∨ stored = Some "" →
  _check_local_password hs user_id password w
  = (Ok None, with_call (CallStore user_id) w).
Proof.
  intros Hu Hs. unfold _check_local_password, _find_user_id_and_pwd_hash.
  cbv [bind call modify ret]. rewrite Hu, map_size_singleton. simpl.
  unfold popitem. rewrite map_to_list_singleton. simpl.
  by destruct Hs as [-> | ->].
Qed.

Lemma check_local_password_no_hash_witness :
  _check_local_password
    (hs_with_users {[ "@alice:example.org" := None ]})
    "@alice:example.org" (VStr "anything") Example.w0
  = (Ok None, with_call (CallStore "@alice:example.org") Example.w0).
Proof.
  apply (check_local_password_no_hash
           (hs_with_users {[ "@alice:example.org" := None ]})
           "@alice:example.org" (VStr "anything") Example.w0
           "@alice:example.org" None).
  - reflexivity.
  - by left.
Defined.

(** ** The login types on offer *)

Lemma supported_login_types_fold providers (acc : gset string) t :
  t ∈ foldl (λ login_types provider,
               match Provider.get_supported_login_types provider with
               | Some types => login_types ∪ dom types
               | None => login_types
               end) acc providers
  ↔ t ∈ acc
    ∨ ∃ p types, p ∈ providers
                 ∧ Provider.get_supported_login_types p = Some types
                 ∧ is_Some (types !! t).
Proof.
  revert acc. induction providers as [|p rest IH]; intros acc; simpl.
  - split; [by left|]. intros [?|(p & ? & Hin & _)]; [done|].
    by apply not_elem_of_nil in Hin.
  - rewrite IH. split.
    + intros [Hacc|(p' & types & Hin & Ht & Hs)].
      * destruct (Provider.get_supported_login_types p) as [types|] eqn:Hp;
          [|by left].
        apply elem_of_union in Hacc as [?|Hd]; [by left|].
        right. exists p, types. split_and!; [apply list_elem_of_here|done|].
        by apply elem_of_dom.
      * right. exists p', types. split_and!; [|done..].
        by apply list_elem_of_further.
    + intros [Hacc|(p' & types & Hin & Ht & Hs)].
      * left. destruct (Provider.get_supported_login_types p); [|done].
        apply elem_of_union. by left.
      * apply elem_of_cons in Hin as [->|Hin].
        -- left. rewrite Ht. apply elem_of_union. right. by apply elem_of_dom.
        -- right. by exists p', types.
Qed.

Lemma supported_login_types_elem hs t :
  t ∈ get_supported_login_types hs
  ↔ (t = LoginType.PASSWORD ∧ password_enabled hs = true)
    ∨ ∃ p types, p ∈ password_providers hs
                 ∧ Provider.get_supported_login_types p = Some types
                 ∧ is_Some (types !! t).
Proof.
  unfold get_supported_login_types, _supported_login_types.
  rewrite supported_login_types_fold.
  destruct (password_enabled hs).
  - rewrite elem_of_singleton. split.
    + intros [->|?]; [by left|by right].
    + intros [[-> _]|?]; [by left|by right].
  - rewrite elem_of_empty. split.
    + intros [[]|?]. by right.
    + intros [[_ ?]|?]; [done|by right].
Qed.

(** X20: the login types on offer are the password type, when password
    login is enabled, and the types the password providers declare,
    whether or not a provider has [check_auth]; so every login type that
    a step of [validate_login] recognizes is on offer, the password type
    provided that password login is enabled. *)
Theorem supported_login_types_spec hs t :
  (t ∈ get_supported_login_types hs
   ↔ (t = LoginType.PASSWORD ∧ password_enabled hs = true)
     ∨ ∃ p types, p ∈ password_providers hs
                  ∧ Provider.get_supported_login_types p = Some types
                  ∧ is_Some (types !! t))
  ∧ (t ≠ LoginType.PASSWORD ∨ password_enabled hs = true →
     step_recognized hs (VStr t) → t ∈ get_supported_login_types hs).
Proof.
  split; [apply supported_login_types_elem|].
  intros Hor [Hpw|(p & Hin & types & chk & t' & Hty & _ & [= <-] & Hs)];
    apply supported_login_types_elem.
  - simpl in Hpw. apply String.eqb_eq in Hpw. subst t.
    left. by destruct Hor.
  - right. by exists p, types.
Qed.

Lemma supported_login_types_spec_witness :
  "m.login.token"
  ∈ get_supported_login_types (Example.make false [Example.declaring_only] ∅).
Proof.
  apply (proj1 (supported_login_types_spec
                  (Example.make false [Example.declaring_only] ∅)
                  "m.login.token")).
  right. exists Example.declaring_only, {[ "m.login.token" := ["token"] ]}.
  split_and!; [apply list_elem_of_here|reflexivity|].
  rewrite lookup_singleton_eq. eauto.
Defined.




(** ** Does the user exist? *)

Lemma map_size_1_singleton {A} (d : gmap string A) :
  size d = 1%nat → ∃ k v, d = {[ k := v ]}.
Proof.
  intros Hsz. rewrite <- length_map_to_list in Hsz.
  destruct (map_to_list d) as [|[k v] [|? ?]] eqn:Hl; try done.
  exists k, v. rewrite <- (list_to_map_to_list d), Hl. simpl.
  by rewrite insert_empty.
Qed.

Lemma popitem_singleton_key {A} (d : gmap string A) k v k' :
  size d = 1%nat → popitem d = Some (k, v) → is_Some (d !! k') → k = k'.
Proof.
  intros Hsz Hpop [v' Hk'].
  apply map_size_1_singleton in Hsz as (k0 & v0 & ->).
  unfold popitem in Hpop. rewrite map_to_list_singleton in Hpop.
  injection Hpop as <- <-.
  apply lookup_singleton_Some in Hk' as [-> _]. done.
Qed.

(** X22: [check_user_exists] asks the store once and always answers.  An
    id it returns is one the store has found; the queried id itself is
    returned whenever the store has found it, whatever else matches; an
    id of another spelling is returned only when it is the single match;
    and the answer is [None] exactly when the store finds nothing or
    finds several users without the queried id among them. *)
Theorem check_user_exists_spec hs user_id w :
  let user_infos := get_users_by_id_case_insensitive hs user_id in
  ∃ r,
    check_user_exists hs user_id w = (Ok r, with_call (CallStore user_id) w)
    ∧ (∀ c, r = Some c →
            is_Some (user_infos !! c)
            ∧ (c ≠ user_id → size user_infos = 1%nat))
    ∧ (is_Some (user_infos !! user_id) → r = Some user_id)
    ∧ (r = None
       ↔ user_infos = ∅
         ∨ ((1 < size user_infos)%nat ∧ user_infos !! user_id = None)).
Proof.
  intros user_infos. eexists. split; [reflexivity|]. fold user_infos.
  destruct (Nat.eqb_spec (size user_infos) 0) as [H0|H0].
  { apply map_size_empty_iff in H0 as Hemp. simpl. split_and!.
    - done.
    - rewrite Hemp, lookup_empty. by intros [? ?].
    - split; [by left|done]. }
  destruct (Nat.eqb_spec (size user_infos) 1) as [H1|H1].
  { destruct (popitem user_infos) as [[k v]|] eqn:Hpop; simpl.
    - pose proof (popitem_lookup _ _ _ Hpop) as Hk. split_and!.
      + intros c [= <-]. by split; [eexists|].
      + intros Hq. f_equal. by eapply popitem_singleton_key.
      + split; [done|]. intros [Hemp|[Hsz _]]; [|lia].
        by rewrite Hemp, map_size_empty in H0.
    - exfalso. apply map_size_1_singleton in H1 as (k0 & v0 & Heq).
      unfold popitem in Hpop. by rewrite Heq, map_to_list_singleton in Hpop. }
  destruct (user_infos !! user_id) as [h|] eqn:Hq; simpl.
  - split_and!.
    + intros c [= <-]. by split; [eexists|].
    + done.
    + split; [done|]. intros [Hemp|[_ ?]]; [|done].
      by rewrite Hemp, map_size_empty in H0.
  - split_and!.
    + done.
    + by intros [? ?].
    + split; [|done]. intros _. right. split; [lia|done].
Qed.

Lemma check_user_exists_spec_witness :
  let hs :=
    hs_with_users
      {[ "@Alice:example.org" := Some (hash Example.hs "r4nd0m" "secret") ]} in
  check_user_exists hs "@Alice:example.org" Example.w0
  = (Ok (Some "@Alice:example.org"),
     with_call (CallStore "@Alice:example.org") Example.w0).
Proof.
  intros hs.
  destruct (check_user_exists_spec hs "@Alice:example.org" Example.w0)
    as (r & Hrun & _ & Hexact & _).
  rewrite Hrun, Hexact; [reflexivity|].
  vm_compute. eauto.
Defined.

(** X23: the local password check and [check_user_exists] resolve a user
    id in the same way: an id under which [_check_local_password] accepts
    a password is the id [check_user_exists] answers for the same
    query. *)
Theorem local_password_user_exists hs user_id password w canonical w' w2 :
  _check_local_password hs user_id password w = (Ok (Some canonical), w') →
  check_user_exists hs user_id w2
  = (Ok (Some canonical), with_call (CallStore user_id) w2).
Proof.
  intros H. unfold _check_local_password in H.
  unfold check_user_exists.
  unfold _find_user_id_and_pwd_hash in *.
  cbv [bind call modify ret] in *. simpl in *.
  destruct (if Nat.eqb (size (get_users_by_id_case_insensitive hs user_id)) 0
            then None
            else if Nat.eqb
                      (size (get_users_by_id_case_insensitive hs user_id)) 1
                 then popitem (get_users_by_id_case_insensitive hs user_id)
                 else match get_users_by_id_case_insensitive hs user_id
                            !! user_id with
                      | Some password_hash => Some (user_id, password_hash)
                      | None => None
                      end) as [[uid ph]|]; [|done].
  simpl in *.
  destruct (validate_hash hs password ph _) as [[[]| |] ?]; try done.
  by injection H as <- _.
Qed.

Lemma local_password_user_exists_witness :
  let hs :=
    hs_with_users
      {[ "@Alice:example.org" := Some (hash Example.hs "r4nd0m" "secret") ]} in
  check_user_exists hs "@alice:example.org" Example.w1
  = (Ok (Some "@Alice:example.org"),
     with_call (CallStore "@alice:example.org") Example.w1).
Proof.
  intros hs.
  apply (local_password_user_exists hs "@alice:example.org" (VStr "secret")
           Example.w0 "@Alice:example.org"
           (with_call (CallStore "@alice:example.org") Example.w0)).
  vm_compute. reflexivity.
Defined.

(** ** The three kinds of token *)

Lemma foldl_add_first_party_caveat l : ∀ m,
  let m' := foldl add_first_party_caveat m l in
  location m' = location m ∧ identifier m' = identifier m ∧ key m' = key m
  ∧ caveats m' = (caveats m ++ l)%list.
Proof.
  induction l as [|c l IH]; intros m; simpl.
  - by rewrite app_nil_r.
  - destruct (IH (add_first_party_caveat m c)) as (-> & -> & -> & ->).
    simpl. by rewrite <- app_assoc.
Qed.

(** X24: an access token is the serialisation of a macaroon for the
    server's name and key whose caveats are, in this order, [gen = 1],
    [user_id = <id>], [type = access], [nonce = <nonce>] and then the
    caller's extra caveats in the order given; no extra caveats and an
    empty list of them give the same token. *)
Theorem generate_access_token_spec hs user_id extra_caveats nonce :
  ∃ macaroon,
    generate_access_token hs user_id extra_caveats nonce
    = macaroon_serialize hs macaroon
    ∧ location macaroon = server_name hs
    ∧ identifier macaroon = "key"
    ∧ key macaroon = macaroon_secret_key hs
    ∧ caveats macaroon
      = ([ "gen = 1"; ("user_id = " ++ user_id)%string; "type = access";
           ("nonce = " ++ nonce)%string ] ++ default [] extra_caveats)%list
    ∧ generate_access_token hs user_id None nonce
      = generate_access_token hs user_id (Some []) nonce.
Proof.
  exists (access_macaroon hs user_id extra_caveats nonce).
  split; [reflexivity|]. unfold access_macaroon.
  destruct (foldl_add_first_party_caveat (default [] extra_caveats)
              (add_first_party_caveat
                 (add_first_party_caveat (_generate_base_macaroon hs user_id)
                    "type = access") ("nonce = " ++ nonce)))
    as (Hl & Hi & Hk & Hc).
  simpl in *. by rewrite Hl, Hi, Hk, Hc.
Qed.

Lemma access_macaroon_caveats hs user_id extra_caveats nonce :
  caveats (access_macaroon hs user_id extra_caveats nonce)
  = ([ "gen = 1"; ("user_id = " ++ user_id)%string; "type = access";
       ("nonce = " ++ nonce)%string ] ++ default [] extra_caveats)%list.
Proof.
  unfold access_macaroon.
  by destruct (foldl_add_first_party_caveat (default [] extra_caveats)
                 (add_first_party_caveat
                    (add_first_party_caveat
                       (_generate_base_macaroon hs user_id) "type = access")
                    ("nonce = " ++ nonce))) as (_ & _ & _ & ->).
Qed.



(** X26: the three kinds of token are made for one server name and key and
    start with the same two caveats, [gen = 1] and [user_id = <id>]; the
    third caveat tells them apart: [type = access], [type = login] or
    [type = delete_pusher].  Making a token changes nothing in the
    handler's state. *)
Theorem token_types hs user_id extra_caveats nonce duration_in_ms w :
  ∃ access login delete_pusher,
    generate_access_token hs user_id extra_caveats nonce
    = macaroon_serialize hs access
    ∧ generate_short_term_login_token hs user_id duration_in_ms w
      = (Ok (macaroon_serialize hs login), w)
    ∧ generate_delete_pusher_token hs user_id w
      = (Ok (macaroon_serialize hs delete_pusher), w)
    ∧ (∀ m, m ∈ [access; login; delete_pusher] →
            location m = server_name hs ∧ identifier m = "key"
            ∧ key m = macaroon_secret_key hs
            ∧ take 2 (caveats m) = [ "gen = 1"; "user_id = " ++ user_id ])
    ∧ caveats access !! 2%nat = Some "type = access"
    ∧ caveats login !! 2%nat = Some "type = login"
    ∧ caveats delete_pusher !! 2%nat = Some "type = delete_pusher".
Proof.
  exists (access_macaroon hs user_id extra_caveats nonce),
    (short_term_login_macaroon hs (time_msec w) user_id
       (default (2 * 60 * 1000) duration_in_ms)),
    (add_first_party_caveat (_generate_base_macaroon hs user_id)
       "type = delete_pusher").
  split_and!; try reflexivity.
  - intros m Hm.
    apply elem_of_cons in Hm as [->|Hm];
      [|apply elem_of_cons in Hm as [->|Hm];
        [|apply list_elem_of_singleton in Hm as ->]]; try done.
    rewrite access_macaroon_caveats. unfold access_macaroon.
    by destruct (foldl_add_first_party_caveat (default [] extra_caveats)
                   (add_first_party_caveat
                      (add_first_party_caveat
                         (_generate_base_macaroon hs user_id) "type = access")
                      ("nonce = " ++ nonce))) as (-> & -> & -> & _).
  - by rewrite access_macaroon_caveats.
Qed.

Lemma token_types_witness :
  ∃ access,
    generate_access_token Example.hs "@alice:example.org" None
      "0123456789abcdef"
    = macaroon_serialize Example.hs access
    ∧ location access = "example.org"
    ∧ caveats access !! 2%nat = Some "type = access".
Proof.
  destruct (token_types Example.hs "@alice:example.org" None
              "0123456789abcdef" None Example.w0)
    as (a & l & d & Ha & _ & _ & Hall & Hta & _).
  exists a. split_and!; [exact Ha| |exact Hta].
  apply (Hall a), list_elem_of_here.
Defined.
